(** * chat-margins: paragraph segmentation, note lifecycle and the
      annotation protocol

    A shallow embedding of the logic of [src/App.jsx] (segmentation, the
    paragraph-count trigger, the note store, position calculation, the
    margins column, saving and the startup load), of the triggers of its
    earlier versions (double Enter, every paragraph) and of the two
    annotation clients ([src/gemini.js] and the adaptive two-stage
    variant), followed by the properties proved about them.

    Conventions.
    - A JavaScript string is a [list ascii]: a sequence of code units, here
      the code units U+0000..U+00FF.  [length] is the JS [.length].
    - A promise that settles is a [Completion]: [Resolved v] or
      [Rejected e]; [try]/[catch] is [tryCatch].
    - The React state [marginNotes] is a [gmap nat Note]; a functional
      update [setMarginNotes(prev => ...)] is a function on that map.
    - Logging ([console.error], [console.warn]) has no effect on the values
      computed and is left out.
    - Lengths are whole numbers of a fixed unit; [Measured] has [NaN]
      beside them, which [parseFloat] gives for the line height [normal]. *)

From Stdlib Require Import Ascii String List ZArith Lia Bool.
From Stdlib Require Import DecimalString DecimalNat.
From stdpp Require Import gmap list.
Import ListNotations.

(* ================================================================= *)
(** ** JavaScript strings *)
(* ================================================================= *)

Module JS.

Abbreviation jsstring := (list ascii).

(** String literals of the source are written [str "..."]. *)
Definition str (s : string) : jsstring := list_ascii_of_string s.

Definition code (c : ascii) : N := N_of_ascii c.

(** The line feed and the double quote, which have no literal form. *)
Definition LF : ascii := ascii_of_N 10.
Definition DQUOTE : ascii := ascii_of_N 34.

(** [WhiteSpace] and [LineTerminator] of ECMAScript below U+0100: TAB, LF,
    VT, FF, CR, SP and NBSP.  This is the set removed by [trim] and matched
    by the regular expression class [\s]. *)
Definition isWhiteSpace (c : ascii) : bool :=
  let n := code c in
  ((9 <=? n) && (n <=? 13) || (n =? 32) || (n =? 160))%N.

Definition isEmpty (s : jsstring) : bool :=
  match s with [] => true | _ :: _ => false end.

(** [s.trimStart()], [s.trimEnd()], [s.trim()] *)
Fixpoint trimStart (s : jsstring) : jsstring :=
  match s with
  | [] => []
  | c :: s' => if isWhiteSpace c then trimStart s' else s
  end.

Definition trimEnd (s : jsstring) : jsstring := rev (trimStart (rev s)).

Definition trim (s : jsstring) : jsstring := trimEnd (trimStart s).

(** [s.toLowerCase()] on U+0000..U+00FF: A-Z and the accented capitals
    U+00C0..U+00DE (without the multiplication sign U+00D7) move up by 32. *)
Definition lowerChar (c : ascii) : ascii :=
  let n := code c in
  if ((65 <=? n) && (n <=? 90)
      || (192 <=? n) && (n <=? 222) && negb (n =? 215))%N
  then ascii_of_N (n + 32) else c.

Definition toLowerCase (s : jsstring) : jsstring := map lowerChar s.

(** [Canonicalize] of the regular expression flag [i] (upper-casing).  The
    two letters whose capital lies above U+00FF (U+00B5, U+00FF) are left
    as they are: no other code unit of the range shares their capital. *)
Definition canonicalize (c : ascii) : ascii :=
  let n := code c in
  if ((97 <=? n) && (n <=? 122)
      || (224 <=? n) && (n <=? 254) && negb (n =? 247))%N
  then ascii_of_N (n - 32) else c.

Fixpoint startsWith (p s : jsstring) : bool :=
  match p, s with
  | [], _ => true
  | _ :: _, [] => false
  | a :: p', b :: s' => Ascii.eqb a b && startsWith p' s'
  end.

(** [s.split(sep)] for a non-empty separator: the pieces between the
    leftmost, non-overlapping occurrences of [sep].  [skip] counts the code
    units of a separator still to be passed over, [cur] is the piece being
    collected. *)
Fixpoint split_go (sep s : jsstring) (skip : nat) (cur : jsstring)
  : list jsstring :=
  match s with
  | [] => [cur]
  | c :: s' =>
      match skip with
      | S k => split_go sep s' k cur
      | O =>
          if startsWith sep s
          then cur :: split_go sep s' (length sep - 1) []
          else split_go sep s' 0 (cur ++ [c])
      end
  end.

Definition split (sep s : jsstring) : list jsstring := split_go sep s 0 [].

(** [pieces.join(sep)] *)
Fixpoint join (sep : jsstring) (pieces : list jsstring) : jsstring :=
  match pieces with
  | [] => []
  | [p] => p
  | p :: rest => p ++ sep ++ join sep rest
  end.

(** [s.includes(p)] *)
Fixpoint includes (p s : jsstring) : bool :=
  startsWith p s ||
  match s with
  | [] => false
  | _ :: s' => includes p s'
  end.

End JS.

Import JS.

(* ================================================================= *)
(** ** Segmentation ([App.jsx], [paragraphs]) *)
(* ================================================================= *)

(** The delimiter ['\n\n']. *)
Definition blankLine : jsstring := [LF; LF].

(** The filter predicate [p => p.trim() !== ''] *)
Definition nonBlank (p : jsstring) : bool := negb (isEmpty (trim p)).

(** [content.split('\n\n').filter(p => p.trim() !== '')] *)
Definition paragraphs (content : jsstring) : list jsstring :=
  List.filter nonBlank (split blankLine content).

(* ================================================================= *)
(** ** Regular expressions ([String.prototype.match]) *)
(* ================================================================= *)

Module Regex.

(** One-character patterns: a literal, the class [\s], and the dot. *)
Inductive atom : Type :=
| AChar (c : ascii)
| ASpace
| ADot.

(** The patterns used by the clients.  Quantifiers apply to atoms only,
    which is all the source needs; there is one capture group. *)
Inductive regex : Type :=
| REmpty
| RAtom (a : atom)
| RSeq (r1 r2 : regex)
| RAlt (r1 r2 : regex)
| RStar (a : atom)
| RPlus (a : atom)
| RGroup (r : regex).

Record flags : Type := { ignoreCase : bool; dotAll : bool }.

Definition isLineTerminator (c : ascii) : bool :=
  ((code c =? 10) || (code c =? 13))%N.

Definition atomMatches (fl : flags) (a : atom) (c : ascii) : bool :=
  match a with
  | AChar p =>
      if ignoreCase fl
      then Ascii.eqb (canonicalize p) (canonicalize c)
      else Ascii.eqb p c
  | ASpace => isWhiteSpace c
  | ADot => dotAll fl || negb (isLineTerminator c)
  end.

(** A literal run of characters. *)
Fixpoint lit (p : jsstring) : regex :=
  match p with
  | [] => REmpty
  | c :: p' => RSeq (RAtom (AChar c)) (lit p')
  end.

Section Matcher.
Context {R : Type}.
Variable fl : flags.

(** Greedy iteration of an atom: take as many characters as match, and
    give one back at a time while the continuation fails. *)
Fixpoint starK (a : atom) (s : jsstring) (k : jsstring -> option R)
  : option R :=
  match s with
  | [] => k []
  | c :: s' =>
      if atomMatches fl a c
      then match starK a s' k with
           | Some x => Some x
           | None => k s
           end
      else k s
  end.

(** The backtracking matcher in continuation-passing style: [s] is the
    input left, [cap] the capture of group 1 so far, and [k] matches the
    rest of the pattern.  Alternatives are tried left to right. *)
Fixpoint matchK (r : regex) (s : jsstring) (cap : option jsstring)
  (k : jsstring -> option jsstring -> option R) : option R :=
  match r with
  | REmpty => k s cap
  | RAtom a =>
      match s with
      | [] => None
      | c :: s' => if atomMatches fl a c then k s' cap else None
      end
  | RSeq r1 r2 => matchK r1 s cap (fun s1 cap1 => matchK r2 s1 cap1 k)
  | RAlt r1 r2 =>
      match matchK r1 s cap k with
      | Some x => Some x
      | None => matchK r2 s cap k
      end
  | RStar a => starK a s (fun s' => k s' cap)
  | RPlus a =>
      match s with
      | [] => None
      | c :: s' =>
          if atomMatches fl a c
          then starK a s' (fun s'' => k s'' cap)
          else None
      end
  | RGroup r1 =>
      matchK r1 s cap
        (fun s1 _ => k s1 (Some (take (length s - length s1) s)))
  end.
End Matcher.

(** The match array of a successful match, reduced to what the clients
    read from it: entry [1], which is [undefined] ([None]) when the group
    took no part in the match. *)
Record MatchArray : Type := { group1 : option jsstring }.

(** A match anchored at the start of [s]. *)
Definition matchHere (fl : flags) (r : regex) (s : jsstring)
  : option MatchArray :=
  matchK fl r s None (fun _ cap => Some {| group1 := cap |}).

(** [s.match(r)] for a pattern without the [g] flag: the match at the
    leftmost position that has one, or [null] ([None]). *)
Fixpoint regexMatch (fl : flags) (r : regex) (s : jsstring)
  : option MatchArray :=
  match matchHere fl r s with
  | Some m => Some m
  | None =>
      match s with
      | [] => None
      | _ :: s' => regexMatch fl r s'
      end
  end.

End Regex.

Import Regex.

(* ================================================================= *)
(** ** Promises, exceptions and the text-generation collaborator *)
(* ================================================================= *)

(** What can go wrong inside a client: the three steps of a model call,
    and reading entry [1] of a match array whose group is [undefined]. *)
Inductive Failure : Type :=
| GenerateContentRejected
| ResponseRejected
| TextThrew
| TypeErrorUndefined.

Inductive Completion (A : Type) : Type :=
| Resolved (a : A)
| Rejected (e : Failure).
Arguments Resolved {A} a.
Arguments Rejected {A} e.

Definition bind {A B : Type} (c : Completion A) (f : A -> Completion B)
  : Completion B :=
  match c with
  | Resolved a => f a
  | Rejected e => Rejected e
  end.

Notation "'let!' x ':=' c 'in' f" := (bind c (fun x => f))
  (at level 10, x name, c at level 100, f at level 200).

(** [try { body } catch (error) { handler }] *)
Definition tryCatch {A : Type} (body : Completion A)
  (handler : Failure -> Completion A) : Completion A :=
  match body with
  | Resolved a => Resolved a
  | Rejected e => handler e
  end.

(** One exchange with the model: the three source lines
    [await model.generateContent(prompt)], [await result.response] and
    [response.text()] either yield the text or fail at one of them. *)
Inductive CallOutcome : Type :=
| ReturnsText (raw : jsstring)
| Fails (e : Failure).

(** The collaborator is free to answer each call as it likes: its answer
    may depend on the number of the call and on the prompt. *)
Definition Collaborator : Type := nat -> jsstring -> CallOutcome.

Definition generateContentText (model : Collaborator) (n : nat)
  (prompt : jsstring) : Completion jsstring :=
  match model n prompt with
  | ReturnsText raw => Resolved raw
  | Fails e => Rejected e
  end.

(* ================================================================= *)
(** ** The annotation clients ([generateMarginNote]) *)
(* ================================================================= *)

(** The value a client resolves to: [{ type, text }], both strings. *)
Module Result.
Record MarginNote : Type := { type : jsstring; text : jsstring }.
End Result.
Abbreviation MarginNote := Result.MarginNote.

Definition commentary : jsstring := str "commentary".
Definition question : jsstring := str "question".

(** [/TYPE:\s*(commentary|question)/i] *)
Definition typeFlags : flags := {| ignoreCase := true; dotAll := false |}.
Definition typePattern : regex :=
  RSeq (lit (str "TYPE:"))
    (RSeq (RStar ASpace) (RGroup (RAlt (lit commentary) (lit question)))).

(** [/TEXT:\s*(.+)/s] *)
Definition textFlags : flags := {| ignoreCase := false; dotAll := true |}.
Definition textPattern : regex :=
  RSeq (lit (str "TEXT:")) (RSeq (RStar ASpace) (RGroup (RPlus ADot))).

(** [m[1].f()]: a [TypeError] when entry 1 is [undefined]. *)
Definition entry1 (m : MatchArray) : Completion jsstring :=
  match group1 m with
  | Some g => Resolved g
  | None => Rejected TypeErrorUndefined
  end.

(** The parsing step shared by both clients (the lines from
    [const typeMatch] to the last [return] of the [try] block). *)
Definition parseResponse (responseText : jsstring) : Completion MarginNote :=
  let typeMatch := regexMatch typeFlags typePattern responseText in
  let textMatch := regexMatch textFlags textPattern responseText in
  match typeMatch, textMatch with
  | Some tm, Some xm =>
      let! ty := entry1 tm in
      let! tx := entry1 xm in
      Resolved {| Result.type := toLowerCase ty; Result.text := trim tx |}
  | _, _ =>
      Resolved {| Result.type := commentary; Result.text := trim responseText |}
  end.

(** The layout shared by every generation prompt of the source: an
    introduction, the quoted paragraph, two options, the required output
    shape and a closing line. *)
Definition promptTemplate (intro option1 option2 closing : string)
  (paragraphText : jsstring) : jsstring :=
  str intro ++ str "

For this paragraph:
" ++ [DQUOTE] ++ paragraphText ++ [DQUOTE] ++ str "

Provide either:
1. " ++ str option1 ++ str "
2. " ++ str option2 ++ str "

Format your response EXACTLY like this:
TYPE: commentary
TEXT: Your response here

OR

TYPE: question
TEXT: Your question here

" ++ str closing.

(** *** [src/gemini.js] *)
Module Basic.

Definition prompt : jsstring -> jsstring :=
  promptTemplate
    "You are a thoughtful writing companion. The user is journaling and you're providing reflections in the margins."
    "A brief, empathetic commentary (1-2 sentences acknowledging what they wrote)"
    "A gentle, reflective question to help them think deeper"
    "Keep your response under 50 words. Be warm, supportive, and genuinely curious.".

Definition fallback : MarginNote :=
  {| Result.type := commentary;
     Result.text := str "I'm having trouble connecting right now. Try again in a moment." |}.

Definition generateMarginNote (model : Collaborator)
  (paragraphText : jsstring) : Completion MarginNote :=
  tryCatch
    (let! responseText := generateContentText model 0 (prompt paragraphText) in
     parseResponse responseText)
    (fun error => Resolved fallback).

End Basic.

(** *** The adaptive two-stage client *)
Module Adaptive.

(** Stage 1: the classification prompt. *)
Definition analysisPrompt (paragraphText : jsstring) : jsstring :=
  str "Analyze this text and identify what type of writing it is.

Text: " ++ [DQUOTE] ++ paragraphText ++ [DQUOTE] ++ str "

Categorize it as ONE of these types:
- journaling (personal reflection, emotions, daily thoughts)
- brainstorming (ideas, plans, creative thinking)
- technical (code, analysis, problem-solving)
- storytelling (narrative, fiction, describing events)
- note-taking (facts, lists, information capture)
- other (anything else)

Respond with ONLY the category name, nothing else.".

(** The branches of [switch (contentType)]: five [case]s and [default]. *)
Inductive Branch : Type :=
| CaseJournaling
| CaseBrainstorming
| CaseTechnical
| CaseStorytelling
| CaseNoteTaking
| Default.

Definition eqs (a b : jsstring) : bool := bool_decide (a = b).

(** [switch] compares with [===], in the order of the [case] labels. *)
Definition switchBranch (contentType : jsstring) : Branch :=
  if eqs contentType (str "journaling") then CaseJournaling
  else if eqs contentType (str "brainstorming") then CaseBrainstorming
  else if eqs contentType (str "technical") then CaseTechnical
  else if eqs contentType (str "storytelling") then CaseStorytelling
  else if eqs contentType (str "note-taking") then CaseNoteTaking
  else Default.

(** Stage 2: the template each branch assigns to [mainPrompt]. *)
Definition mainPromptOf (b : Branch) : jsstring -> jsstring :=
  match b with
  | CaseJournaling =>
      promptTemplate
        "You are a thoughtful writing companion. The user is journaling."
        "A brief, empathetic commentary (1-2 sentences)"
        "A gentle, reflective question"
        "Keep it under 50 words. Be warm and curious."
  | CaseBrainstorming =>
      promptTemplate
        "You are a creative thinking partner. The user is brainstorming ideas."
        "A brief connection to related ideas or possibilities"
        "A question that expands the thinking"
        "Keep it under 50 words. Be energizing and idea-generating."
  | CaseTechnical =>
      promptTemplate
        "You are a technical review assistant. The user is writing technical content."
        "A brief technical observation or connection"
        "A clarifying question about implementation or edge cases"
        "Keep it under 50 words. Be precise and technically insightful."
  | CaseStorytelling =>
      promptTemplate
        "You are a story development assistant. The user is writing a narrative."
        "A brief observation about character, setting, or plot"
        "A question about what happens next or character motivation"
        "Keep it under 50 words. Be encouraging and narrative-focused."
  | CaseNoteTaking =>
      promptTemplate
        "You are a note organization assistant. The user is capturing information."
        "A brief connection to related concepts or categories"
        "A question about missing information or next steps"
        "Keep it under 50 words. Be organized and connective."
  | Default =>
      promptTemplate
        "You are a supportive writing assistant."
        "A brief, helpful commentary"
        "A thoughtful question"
        "Keep it under 50 words. Be helpful and clear."
  end.

(** [analysisResponse.text().trim().toLowerCase()] *)
Definition normalize (raw : jsstring) : jsstring := toLowerCase (trim raw).

Definition mainPrompt (contentType paragraphText : jsstring) : jsstring :=
  mainPromptOf (switchBranch contentType) paragraphText.

Definition fallback : MarginNote :=
  {| Result.type := commentary;
     Result.text := str "Unable to generate reflection. Please try again." |}.

Definition generateMarginNote (model : Collaborator)
  (paragraphText : jsstring) : Completion MarginNote :=
  tryCatch
    (let! analysisText :=
       generateContentText model 0 (analysisPrompt paragraphText) in
     let contentType := normalize analysisText in
     let! responseText :=
       generateContentText model 1 (mainPrompt contentType paragraphText) in
     parseResponse responseText)
    (fun error => Resolved fallback).

End Adaptive.


(* ================================================================= *)
(** ** The note store and the note-lifecycle handler ([App.jsx]) *)
(* ================================================================= *)

Module Store.
(** An entry of [marginNotes]: [{ text, type, isVisible, isLoading }]. *)
Record Note : Type :=
  { text : jsstring; type : jsstring; isVisible : bool; isLoading : bool }.
End Store.
Abbreviation Note := Store.Note.

(** The entry written by the first [setMarginNotes] of the handler. *)
Definition loadingNote : Note :=
  {| Store.text := str "Thinking..."; Store.type := commentary;
     Store.isVisible := true; Store.isLoading := true |}.

(** The entry written once the client has resolved to [note]. *)
Definition settledNote (note : MarginNote) : Note :=
  {| Store.text := Result.text note; Store.type := Result.type note;
     Store.isVisible := true; Store.isLoading := false |}.

(** The three functional updates [setMarginNotes(prev => ...)]. *)
Definition showLoading (paragraphIndex : nat) (prev : gmap nat Note)
  : gmap nat Note := <[paragraphIndex := loadingNote]> prev.

Definition updateWithNote (paragraphIndex : nat) (note : MarginNote)
  (prev : gmap nat Note) : gmap nat Note :=
  <[paragraphIndex := settledNote note]> prev.

Definition removeLoading (paragraphIndex : nat) (prev : gmap nat Note)
  : gmap nat Note := delete paragraphIndex prev.

(** A call of the client that has been made and not yet settled. *)
Record Request : Type :=
  { paragraphIndex : nat; paragraphText : jsstring }.

(** [generateMarginNoteForParagraph] runs in two parts.  Up to its [await]
    it checks the two gates against the [marginNotes] of the render it
    belongs to and, if they pass, queues the loading entry and calls the
    client. *)
Inductive Started : Type :=
| Skipped
| Fired (update : gmap nat Note -> gmap nat Note) (req : Request).

Definition generateMarginNoteForParagraph (marginNotes : gmap nat Note)
  (paragraphIndex : nat) (paragraphText : jsstring) : Started :=
  if length (trim paragraphText) <? 10 then Skipped
  else if bool_decide (is_Some (marginNotes !! paragraphIndex)) then Skipped
  else Fired (showLoading paragraphIndex)
             {| paragraphIndex := paragraphIndex;
                paragraphText := paragraphText |}.

(** After the [await]: the rest of the [try] block when the client
    resolved, the [catch] block when it rejected. *)
Definition resume (paragraphIndex : nat) (settled : Completion MarginNote)
  : gmap nat Note -> gmap nat Note :=
  match settled with
  | Resolved note => updateWithNote paragraphIndex note
  | Rejected error => removeLoading paragraphIndex
  end.

(* ================================================================= *)
(** ** The paragraph-count trigger ([App.jsx], the second effect) *)
(* ================================================================= *)

(** Truthiness of a string: [''] is falsy. *)
Definition truthy (s : jsstring) : bool := negb (isEmpty s).

(** The body of the effect: the handler call it makes, if any, and the
    value it leaves in [prevParagraphCount.current]. *)
Definition triggerEffect (prevParagraphCount : nat)
  (paragraphs : list jsstring) (marginNotes : gmap nat Note)
  : Started * nat :=
  let started :=
    if prevParagraphCount <? length paragraphs then
      let targetIndex : Z := (Z.of_nat (length paragraphs) - 2)%Z in
      if (0 <=? targetIndex)%Z then
        match paragraphs !! Z.to_nat targetIndex with
        | Some p =>
            if truthy p
            then generateMarginNoteForParagraph marginNotes
                   (Z.to_nat targetIndex) p
            else Skipped
        | None => Skipped
        end
      else Skipped
    else Skipped in
  (started, length paragraphs).

(** The component between two events. *)
Record AppState : Type :=
  { content : jsstring;
    marginNotes : gmap nat Note;
    prevParagraphCount : nat;
    inFlight : list Request }.

(** What reaches the component: the editor reports a new text
    ([handleContentChange]), or the [n]-th pending client call settles,
    the collaborator having behaved as [model] during it. *)
Inductive Event : Type :=
| ContentChanged (newText : jsstring)
| Settled (n : nat) (model : Collaborator).

(** One event, handled to completion: the new state and the requests
    issued.  The effect has [paragraphs.length] as its dependency, so it
    runs when the count differs from that of the previous render, which is
    the value the effect itself stored in [prevParagraphCount]. *)
Definition step (st : AppState) (ev : Event) : AppState * list Request :=
  match ev with
  | ContentChanged newText =>
      let ps := paragraphs newText in
      if length ps =? prevParagraphCount st then
        ({| content := newText; marginNotes := marginNotes st;
            prevParagraphCount := prevParagraphCount st;
            inFlight := inFlight st |}, [])
      else
        match triggerEffect (prevParagraphCount st) ps (marginNotes st) with
        | (Fired update req, count) =>
            ({| content := newText; marginNotes := update (marginNotes st);
                prevParagraphCount := count;
                inFlight := inFlight st ++ [req] |}, [req])
        | (Skipped, count) =>
            ({| content := newText; marginNotes := marginNotes st;
                prevParagraphCount := count;
                inFlight := inFlight st |}, [])
        end
  | Settled n model =>
      match inFlight st !! n with
      | Some req =>
          let settled := Basic.generateMarginNote model (paragraphText req) in
          ({| content := content st;
              marginNotes :=
                resume (paragraphIndex req) settled (marginNotes st);
              prevParagraphCount := prevParagraphCount st;
              inFlight := delete n (inFlight st) |}, [])
      | None => (st, [])
      end
  end.

(** A sequence of events, with the log of all requests issued. *)
Fixpoint run (st : AppState) (evs : list Event) : AppState * list Request :=
  match evs with
  | [] => (st, [])
  | ev :: evs' =>
      let '(st1, issued1) := step st ev in
      let '(st2, issued2) := run st1 evs' in
      (st2, issued1 ++ issued2)
  end.

(** The component after mounting with the store [notes]: no text yet, the
    effect has run once on the empty document. *)
Definition mounted (notes : gmap nat Note) : AppState :=
  {| content := []; marginNotes := notes; prevParagraphCount := 0;
     inFlight := [] |}.

(* ================================================================= *)
(** ** Position calculation ([App.jsx], [calculateParagraphPositions]) *)
(* ================================================================= *)

(** What the function reads from the editor element: the computed line
    height and top padding, and the height the measuring element reports
    for a text.  Lengths are whole numbers of a fixed unit. *)
Record Layout : Type :=
  { lineHeight : Z; paddingTop : Z; offsetHeight : jsstring -> Z }.

(** [paragraphTexts.forEach((para, index) => ...)], threading [positions]
    and [currentY]. *)
Fixpoint forEachPara (m : Layout) (paragraphTexts : list jsstring)
  (index : nat) (positions : gmap nat Z) (currentY : Z) : gmap nat Z * Z :=
  match paragraphTexts with
  | [] => (positions, currentY)
  | para :: rest =>
      if isEmpty (trim para)
      then forEachPara m rest (S index) positions currentY
      else
        let positions' := <[index := currentY]> positions in
        let paraHeight := offsetHeight m para in
        forEachPara m rest (S index) positions'
          (currentY + (paraHeight + lineHeight m * 2))%Z
  end.

(** [editorRef] is [None] while the editor is not mounted; the function
    then returns without touching [paragraphPositions]. *)
Definition calculateParagraphPositions (editorRef : option Layout)
  (content : jsstring) : option (gmap nat Z) :=
  match editorRef with
  | None => None
  | Some m =>
      let paragraphTexts := split blankLine content in
      Some (fst (forEachPara m paragraphTexts 0 ∅ (paddingTop m)))
  end.

(* ================================================================= *)
(** ** [JSON.parse] *)
(* ================================================================= *)

Module JSON.

(** A parsed value.  Strings hold their code units after unescaping, a
    number its lexeme, an object its members in the order of the text. *)
#[warnings="-register-all"]
Inductive json : Type :=
| JNull
| JBool (b : bool)
| JNumber (lexeme : jsstring)
| JString (units : list N)
| JArray (elements : list json)
| JObject (members : list (list N * json)).

Inductive token : Type :=
| TLBrace | TRBrace | TLBracket | TRBracket | TColon | TComma
| TString (units : list N)
| TNumber (lexeme : jsstring)
| TTrue | TFalse | TNull.

Definition isCode (c : ascii) (n : N) : bool := (code c =? n)%N.

(** JSON white space: TAB, LF, CR, SP. *)
Definition isJsonSpace (c : ascii) : bool :=
  isCode c 9 || isCode c 10 || isCode c 13 || isCode c 32.

Definition isDigit (c : ascii) : bool :=
  ((48 <=? code c) && (code c <=? 57))%N.

Definition hexValue (c : ascii) : option N :=
  let n := code c in
  if ((48 <=? n) && (n <=? 57))%N then Some (n - 48)%N
  else if ((65 <=? n) && (n <=? 70))%N then Some (n - 55)%N
  else if ((97 <=? n) && (n <=? 102))%N then Some (n - 87)%N
  else None.

(** The character after a backslash, other than [u]. *)
Definition unescape (c : ascii) : option N :=
  if isCode c 34 then Some 34%N          (* quotation mark *)
  else if isCode c 92 then Some 92%N     (* reverse solidus *)
  else if isCode c 47 then Some 47%N     (* solidus *)
  else if isCode c 98 then Some 8%N      (* b *)
  else if isCode c 102 then Some 12%N    (* f *)
  else if isCode c 110 then Some 10%N    (* n *)
  else if isCode c 114 then Some 13%N    (* r *)
  else if isCode c 116 then Some 9%N     (* t *)
  else None.

(** The rest of a string after its opening quote: the code units, and the
    number of characters read, the closing quote included. *)
Fixpoint lexString (s : jsstring) (acc : list N) (n : nat)
  : option (list N * nat) :=
  match s with
  | [] => None
  | c :: r =>
      if isCode c 34 then Some (rev acc, S n)
      else if isCode c 92 then
        match r with
        | [] => None
        | e :: r' =>
            if isCode e 117 then
              match r' with
              | h1 :: h2 :: h3 :: h4 :: r'' =>
                  match hexValue h1, hexValue h2, hexValue h3, hexValue h4 with
                  | Some a, Some b, Some c', Some d =>
                      lexString r'' (((a * 16 + b) * 16 + c') * 16 + d :: acc)%N
                        (n + 6)
                  | _, _, _, _ => None
                  end
              | _ => None
              end
            else
              match unescape e with
              | Some u => lexString r' (u :: acc) (n + 2)
              | None => None
              end
        end
      else if (code c <? 32)%N then None
      else lexString r (code c :: acc) (S n)
  end.

Fixpoint spanDigits (s : jsstring) : nat :=
  match s with
  | c :: r => if isDigit c then S (spanDigits r) else 0
  | [] => 0
  end.

(** The length of the number at the start of [s]: an optional minus
    sign; a zero, or a digit from 1 to 9 followed by any digits; then
    optionally a point and at least one digit; then optionally [e] or [E],
    an optional sign and at least one digit. *)
Definition lexNumber (s : jsstring) : option nat :=
  let sign := match s with c :: _ => if isCode c 45 then 1 else 0 | [] => 0 end in
  let s1 := drop sign s in
  match s1 with
  | [] => None
  | c :: r =>
      if negb (isDigit c) then None else
      let int := if isCode c 48 then 1 else S (spanDigits r) in
      let s2 := drop int s1 in
      let frac :=
        match s2 with
        | p :: r2 =>
            if isCode p 46
            then match spanDigits r2 with 0 => None | d => Some (S d) end
            else Some 0
        | [] => Some 0
        end in
      match frac with
      | None => None
      | Some frac =>
          let s3 := drop frac s2 in
          let exp :=
            match s3 with
            | e :: r3 =>
                if isCode e 101 || isCode e 69 then
                  let sg :=
                    match r3 with
                    | g :: _ => if isCode g 43 || isCode g 45 then 1 else 0
                    | [] => 0
                    end in
                  match spanDigits (drop sg r3) with
                  | 0 => None
                  | d => Some (S (sg + d))
                  end
                else Some 0
            | [] => Some 0
            end in
          match exp with
          | None => None
          | Some exp => Some (sign + int + frac + exp)
          end
      end
  end.

(** The token at the start of [s] and its length. *)
Definition lexToken (s : jsstring) : option (token * nat) :=
  match s with
  | [] => None
  | c :: r =>
      if isCode c 123 then Some (TLBrace, 1)
      else if isCode c 125 then Some (TRBrace, 1)
      else if isCode c 91 then Some (TLBracket, 1)
      else if isCode c 93 then Some (TRBracket, 1)
      else if isCode c 58 then Some (TColon, 1)
      else if isCode c 44 then Some (TComma, 1)
      else if isCode c 34 then
        match lexString r [] 1 with
        | Some (units, n) => Some (TString units, n)
        | None => None
        end
      else if startsWith (str "true") s then Some (TTrue, 4)
      else if startsWith (str "false") s then Some (TFalse, 5)
      else if startsWith (str "null") s then Some (TNull, 4)
      else
        match lexNumber s with
        | Some n => Some (TNumber (take n s), n)
        | None => None
        end
  end.

(** The tokens of a text; [skip] counts the characters of the current
    token still to be passed over.  [None] is a lexical error. *)
Fixpoint tokenize (s : jsstring) (skip : nat) : option (list token) :=
  match s with
  | [] => Some []
  | c :: s' =>
      match skip with
      | S k => tokenize s' k
      | O =>
          if isJsonSpace c then tokenize s' 0
          else
            match lexToken s with
            | Some (t, n) =>
                match tokenize s' (n - 1) with
                | Some ts => Some (t :: ts)
                | None => None
                end
            | None => None
            end
      end
  end.

(** The containers that are open, innermost first. *)
Inductive frame : Type :=
| FArray (done : list json)
| FObject (done : list (list N * json)) (key : option (list N)).

(** What the grammar allows next. *)
Inductive expect : Type :=
| EValue            (* a value *)
| EValueOrClose     (* just after [[] *)
| EKeyOrClose       (* just after [{] *)
| EKey              (* after a comma inside an object *)
| EColon
| ECommaOrClose
| EEnd (v : json).  (* the top-level value is complete *)

(** A value is complete: it is the result, or goes into the innermost
    open container. *)
Definition complete (v : json) (stack : list frame)
  : option (list frame * expect) :=
  match stack with
  | [] => Some ([], EEnd v)
  | FArray done :: st => Some (FArray (v :: done) :: st, ECommaOrClose)
  | FObject done (Some k) :: st =>
      Some (FObject ((k, v) :: done) None :: st, ECommaOrClose)
  | FObject _ None :: _ => None
  end.

Definition startValue (t : token) (stack : list frame)
  : option (list frame * expect) :=
  match t with
  | TNull => complete JNull stack
  | TTrue => complete (JBool true) stack
  | TFalse => complete (JBool false) stack
  | TNumber l => complete (JNumber l) stack
  | TString u => complete (JString u) stack
  | TLBracket => Some (FArray [] :: stack, EValueOrClose)
  | TLBrace => Some (FObject [] None :: stack, EKeyOrClose)
  | _ => None
  end.

Definition closeArray (stack : list frame) : option (list frame * expect) :=
  match stack with
  | FArray done :: st => complete (JArray (rev done)) st
  | _ => None
  end.

Definition closeObject (stack : list frame) : option (list frame * expect) :=
  match stack with
  | FObject done None :: st => complete (JObject (rev done)) st
  | _ => None
  end.

Definition takeKey (t : token) (stack : list frame)
  : option (list frame * expect) :=
  match t, stack with
  | TString k, FObject done None :: st =>
      Some (FObject done (Some k) :: st, EColon)
  | _, _ => None
  end.

(** One token of input; [None] is a syntax error. *)
Definition feed (state : list frame * expect) (t : token)
  : option (list frame * expect) :=
  let '(stack, e) := state in
  match e with
  | EValue => startValue t stack
  | EValueOrClose =>
      match t with
      | TRBracket => closeArray stack
      | _ => startValue t stack
      end
  | EKeyOrClose =>
      match t with
      | TRBrace => closeObject stack
      | _ => takeKey t stack
      end
  | EKey => takeKey t stack
  | EColon => match t with TColon => Some (stack, EValue) | _ => None end
  | ECommaOrClose =>
      match t, stack with
      | TComma, FArray _ :: _ => Some (stack, EValue)
      | TComma, FObject _ _ :: _ => Some (stack, EKey)
      | TRBracket, _ => closeArray stack
      | TRBrace, _ => closeObject stack
      | _, _ => None
      end
  | EEnd _ => None
  end.

Fixpoint feedAll (state : list frame * expect) (ts : list token)
  : option (list frame * expect) :=
  match ts with
  | [] => Some state
  | t :: ts' =>
      match feed state t with
      | Some state' => feedAll state' ts'
      | None => None
      end
  end.

(** [JSON.parse(text)]: the value, or [None] where it throws a
    [SyntaxError]. *)
Definition parse (text : jsstring) : option json :=
  match tokenize text 0 with
  | None => None
  | Some ts =>
      match feedAll ([], EValue) ts with
      | Some ([], EEnd v) => Some v
      | _ => None
      end
  end.

End JSON.

(* ================================================================= *)
(** ** Loading at startup ([App.jsx], the first effect) *)
(* ================================================================= *)

(** [localStorage.getItem]: the stored string, or [null]. *)
Definition Storage : Type := string -> option jsstring.

(** How the effect ends: it returns, having queued the state updates it
    made ([None] where it called no setter), or an exception leaves it. *)
Inductive LoadOutcome : Type :=
| LoadReturned (setContent : option jsstring)
    (setMarginNotes : option JSON.json)
| LoadThrew (setContent : option jsstring).

Definition whenTruthy (item : option jsstring) : option jsstring :=
  match item with
  | Some s => if truthy s then Some s else None
  | None => None
  end.

Definition loadEffect (localStorage : Storage) : LoadOutcome :=
  let savedContent := localStorage "chatMargins-content"%string in
  let savedNotes := localStorage "chatMargins-notes"%string in
  let contentUpdate := whenTruthy savedContent in
  match whenTruthy savedNotes with
  | Some notes =>
      match JSON.parse notes with
      | Some v => LoadReturned contentUpdate (Some v)
      | None => LoadThrew contentUpdate
      end
  | None => LoadReturned contentUpdate None
  end.


(* ================================================================= *)
(** ** The margins column ([App.jsx], the render) *)
(* ================================================================= *)

(** The numbers the render meets.  The computed top padding is a length,
    but the computed line height is a length or the keyword [normal], for
    which [parseFloat] gives [NaN]; what the position calculation adds to
    [NaN] is [NaN] again.  [Measured] is the position calculation with
    that case in it; with a line height that is a number it is the
    calculation of the section above. *)
Module Measured.

Inductive number : Type :=
| Num (z : Z)
| NaN.

Definition add (a b : number) : number :=
  match a, b with
  | Num x, Num y => Num (x + y)
  | _, _ => NaN
  end.

Definition mul (a b : number) : number :=
  match a, b with
  | Num x, Num y => Num (x * y)
  | _, _ => NaN
  end.

Record Layout : Type :=
  { lineHeight : number; paddingTop : Z; offsetHeight : jsstring -> Z }.

Fixpoint forEachPara (m : Layout) (paragraphTexts : list jsstring)
  (index : nat) (positions : gmap nat number) (currentY : number)
  : gmap nat number * number :=
  match paragraphTexts with
  | [] => (positions, currentY)
  | para :: rest =>
      if isEmpty (trim para)
      then forEachPara m rest (S index) positions currentY
      else
        let positions' := <[index := currentY]> positions in
        let paraHeight := Num (offsetHeight m para) in
        forEachPara m rest (S index) positions'
          (add currentY (add paraHeight (mul (lineHeight m) (Num 2))))
  end.

Definition calculateParagraphPositions (editorRef : option Layout)
  (content : jsstring) : option (gmap nat number) :=
  match editorRef with
  | None => None
  | Some m =>
      let paragraphTexts := split blankLine content in
      Some (fst (forEachPara m paragraphTexts 0 ∅ (Num (paddingTop m))))
  end.

End Measured.

(** [x || 0] for an entry of [paragraphPositions]: a missing entry, [NaN]
    and the offset 0 all give 0. *)
Definition orZero (entry : option Measured.number) : Z :=
  match entry with
  | Some (Measured.Num y) => y
  | Some Measured.NaN => 0
  | None => 0
  end.

(** What is drawn for one note: the container's [top], the number in
    its label and the text. *)
Record Drawn : Type := { top : Z; label : nat; shown : jsstring }.

(** The callback of [paragraphs.map] in the margins column: nothing for
    a missing or hidden note. *)
Definition drawNote (marginNotes : gmap nat Note)
  (paragraphPositions : gmap nat Measured.number) (index : nat)
  : option Drawn :=
  match marginNotes !! index with
  | None => None
  | Some note =>
      if Store.isVisible note
      then Some {| top := (orZero (paragraphPositions !! index) - 60)%Z;
                   label := index + 1;
                   shown := Store.text note |}
      else None
  end.

(** The margins column: [None] is the empty state with its prompt,
    otherwise one slot for each paragraph. *)
Definition drawMargins (paragraphs : list jsstring)
  (marginNotes : gmap nat Note) (paragraphPositions : gmap nat Measured.number)
  : option (list (option Drawn)) :=
  if length paragraphs =? 0 then None
  else Some (imap (fun index _ => drawNote marginNotes paragraphPositions index)
               paragraphs).

(* ================================================================= *)
(** ** Saving ([App.jsx], the two saving effects) *)
(* ================================================================= *)

Module Stringify.

Definition BACKSLASH : ascii := ascii_of_N 92.

(** A hexadecimal digit, in lower case. *)
Definition hexDigit (n : N) : ascii :=
  if (n <? 10)%N then ascii_of_N (48 + n) else ascii_of_N (87 + n).

(** [QuoteJSONString], one code unit: the short escapes, [\u00xx] for the
    other control characters, every other code unit as it is. *)
Definition quoteChar (c : ascii) : jsstring :=
  let n := code c in
  if (n =? 8)%N then [BACKSLASH; ascii_of_N 98]
  else if (n =? 9)%N then [BACKSLASH; ascii_of_N 116]
  else if (n =? 10)%N then [BACKSLASH; ascii_of_N 110]
  else if (n =? 12)%N then [BACKSLASH; ascii_of_N 102]
  else if (n =? 13)%N then [BACKSLASH; ascii_of_N 114]
  else if (n =? 34)%N then [BACKSLASH; DQUOTE]
  else if (n =? 92)%N then [BACKSLASH; BACKSLASH]
  else if (n <? 32)%N then
    [BACKSLASH; ascii_of_N 117; ascii_of_N 48; ascii_of_N 48;
     hexDigit (n / 16); hexDigit (n mod 16)]
  else [c].

Definition quote (s : jsstring) : jsstring :=
  DQUOTE :: flat_map quoteChar s ++ [DQUOTE].

(** [ToString] of an array index: its decimal digits. *)
Definition ToString (n : nat) : jsstring :=
  str (NilEmpty.string_of_uint (Nat.to_uint n)).

Definition boolean (b : bool) : jsstring :=
  if b then str "true" else str "false".

(** The own properties of the notes object, in the order [JSON.stringify]
    visits them: integer keys ascending. *)
Definition entries (marginNotes : gmap nat Note) : list (nat * Note) :=
  omap (fun index => pair index <$> marginNotes !! index)
    (seq 0 (S (max_list (map fst (map_to_list marginNotes))))).

(** One note: its four properties in the order the handler's object
    literals create them. *)
Definition stringifyNote (note : Note) : jsstring :=
  str "{" ++ quote (str "text") ++ str ":" ++ quote (Store.text note)
  ++ str "," ++ quote (str "type") ++ str ":" ++ quote (Store.type note)
  ++ str "," ++ quote (str "isVisible") ++ str ":"
  ++ boolean (Store.isVisible note)
  ++ str "," ++ quote (str "isLoading") ++ str ":"
  ++ boolean (Store.isLoading note)
  ++ str "}".

Definition stringifyMember (entry : nat * Note) : jsstring :=
  quote (ToString (fst entry)) ++ str ":" ++ stringifyNote (snd entry).

(** [JSON.stringify(marginNotes)]. *)
Definition stringify (marginNotes : gmap nat Note) : jsstring :=
  str "{" ++ join (str ",") (map stringifyMember (entries marginNotes))
  ++ str "}".

End Stringify.

(** [localStorage.setItem(key, value)]. *)
Definition setItem (key : string) (value : jsstring) (localStorage : Storage)
  : Storage :=
  fun k => if String.eqb k key then Some value else localStorage k.

(** The two saving effects, run after a render with this state. *)
Definition saveEffects (content : jsstring) (marginNotes : gmap nat Note)
  (localStorage : Storage) : Storage :=
  setItem "chatMargins-notes" (Stringify.stringify marginNotes)
    (setItem "chatMargins-content" content localStorage).

(** Reading a property of a parsed value, [value[key]]: of the members
    with that key the last one, as [JSON.parse] keeps it. *)
Fixpoint lookupMember (members : list (list N * JSON.json)) (key : list N)
  : option JSON.json :=
  match members with
  | [] => None
  | (k, v) :: rest =>
      match lookupMember rest key with
      | Some w => Some w
      | None => if bool_decide (k = key) then Some v else None
      end
  end.

Definition property (value : JSON.json) (key : list N) : option JSON.json :=
  match value with
  | JSON.JObject members => lookupMember members key
  | _ => None
  end.

(* ================================================================= *)
(** ** The double-Enter trigger (the earlier [App.jsx], [handleKeyDown]) *)
(* ================================================================= *)

Module DoubleEnter.

(** The callback handed to [setTimeout]: it calls the handler of the
    render in which the key was pressed, so it carries the [marginNotes]
    of that render along with the two arguments. *)
Record Timer : Type :=
  { seenNotes : gmap nat Note;
    lastParagraphIndex : nat;
    lastParagraph : jsstring }.

Definition Enter : jsstring := str "Enter".

(** [handleKeyDown]: the new value of [lastKeyWasEnter.current] and the
    timer set, if any. *)
Definition handleKeyDown (content : jsstring) (marginNotes : gmap nat Note)
  (lastKeyWasEnter : bool) (key : jsstring) : bool * option Timer :=
  if bool_decide (key = Enter) then
    if lastKeyWasEnter then
      let currentParagraphs := paragraphs content in
      let lastParagraphIndex : Z :=
        (Z.of_nat (length currentParagraphs) - 1)%Z in
      let timer :=
        if (0 <=? lastParagraphIndex)%Z then
          match currentParagraphs !! Z.to_nat lastParagraphIndex with
          | Some p =>
              if truthy p
              then Some {| seenNotes := marginNotes;
                           lastParagraphIndex := Z.to_nat lastParagraphIndex;
                           lastParagraph := p |}
              else None
          | None => None
          end
        else None in
      (false, timer)
    else (true, None)
  else (false, None).

(** The timer fires: the handler tests its gates against the store it
    carries, and its update is applied to the store of the moment. *)
Definition fire (t : Timer) (current : gmap nat Note)
  : gmap nat Note * list Request :=
  match generateMarginNoteForParagraph (seenNotes t)
          (lastParagraphIndex t) (lastParagraph t) with
  | Fired update req => (update current, [req])
  | Skipped => (current, [])
  end.

(** A key press, with the text and the store of the render it reaches. *)
Record KeyDown : Type :=
  { key : jsstring; contentThen : jsstring; notesThen : gmap nat Note }.

(** A sequence of key presses: the flag at the end and the timers set. *)
Fixpoint keyDowns (lastKeyWasEnter : bool) (ks : list KeyDown)
  : bool * list Timer :=
  match ks with
  | [] => (lastKeyWasEnter, [])
  | k :: rest =>
      let '(flag, timer) :=
        handleKeyDown (contentThen k) (notesThen k) lastKeyWasEnter (key k) in
      let '(flag', timers) := keyDowns flag rest in
      (flag', match timer with Some t => t :: timers | None => timers end)
  end.

End DoubleEnter.

(* ================================================================= *)
(** ** The trigger for every paragraph (the first [App.jsx] with notes) *)
(* ================================================================= *)

Module EveryParagraph.

(** [paragraphs.forEach((paragraph, index) => generateMarginNoteForParagraph
    (index, paragraph))]: every call tests its gates against the
    [marginNotes] of the render; the updates are queued in the order of
    the calls. *)
Fixpoint forEachParagraph (marginNotes : gmap nat Note)
  (paragraphs : list jsstring) (index : nat)
  : (gmap nat Note -> gmap nat Note) * list Request :=
  match paragraphs with
  | [] => (fun prev => prev, [])
  | paragraph :: rest =>
      let '(later, requests) := forEachParagraph marginNotes rest (S index) in
      match generateMarginNoteForParagraph marginNotes index paragraph with
      | Fired update req => (fun prev => later (update prev), req :: requests)
      | Skipped => (later, requests)
      end
  end.

(** The effect, which runs when the number of paragraphs changes. *)
Definition effect (marginNotes : gmap nat Note) (paragraphs : list jsstring)
  : (gmap nat Note -> gmap nat Note) * list Request :=
  forEachParagraph marginNotes paragraphs 0.

End EveryParagraph.

(* ================================================================= *)
(** ** The vocabulary of the statements *)
(* ================================================================= *)

(** The segmentation as the specification words it: split on the blank
    line, trim each entry, drop the entries that are then empty. *)
Definition segmentSpec (document : jsstring) : list jsstring :=
  List.filter (fun t => negb (isEmpty t)) (map trim (split blankLine document)).

(** Every character, for facts checked by enumeration. *)
Definition allAscii : list ascii := map ascii_of_nat (seq 0 256).

(** The letters a to z. *)
Definition isLowerLetter (c : ascii) : bool :=
  ((97 <=? code c) && (code c <=? 122))%N.

(** A literal run matches at the start of [s], character by character
    under the flags. *)
Fixpoint litMatches (fl : flags) (p s : jsstring) : bool :=
  match p, s with
  | [], _ => true
  | _ :: _, [] => false
  | a :: p', c :: s' => atomMatches fl (AChar a) c && litMatches fl p' s'
  end.

(** Equal up to the case of letters: the same after lower-casing. *)
Definition sameIgnoringCase (a b : jsstring) : Prop :=
  toLowerCase a = toLowerCase b.

(** What group 1 of the body pattern holds for the text [body] that
    follows the marker: [body] without its leading white space, or its
    last character when there is nothing else. *)
Definition textGroup (body : jsstring) : jsstring :=
  match trimStart body with
  | [] => drop (length body - 1) body
  | t => t
  end.

(** The continuation that ends a match. *)
Definition finish (s : jsstring) (cap : option jsstring) : option MatchArray :=
  Some {| group1 := cap |}.

(** What group 1 of the type pattern holds when the text after the marker
    and the white space is [r]. *)
Definition typeGroup (r : jsstring) : option jsstring :=
  if litMatches typeFlags commentary r then Some (take 10 r)
  else if litMatches typeFlags question r then Some (take 8 r)
  else None.

(** The match array whose entry 1 is the group found, if any. *)
Definition foundGroup (g : option jsstring) : option MatchArray :=
  match g with
  | Some v => Some {| group1 := Some v |}
  | None => None
  end.

(** What the type pattern of the source accepts, stated on the text: after
    [pre] stand the word TYPE and a colon in any case, optional white space,
    and then text that begins with one of the two kinds, in any case;
    [kind] is that kind in lower case.  What follows the kind is not looked
    at, so the value [questionable] is accepted as [question]. *)
Definition TypeMarkerAt (raw pre kind : jsstring) : Prop :=
  ∃ marker ws value post,
    raw = pre ++ marker ++ ws ++ value ++ post
    ∧ sameIgnoringCase marker (str "TYPE:")
    ∧ forallb isWhiteSpace ws = true
    ∧ sameIgnoringCase value kind
    ∧ (kind = commentary ∨ kind = question).

(** What the body pattern of the source accepts, stated on the text: after
    [pre] stand the word TEXT in capitals and a colon, followed by the
    body, which is not empty and runs to the end of the output.  The
    pattern has no [i] flag: [Text:] is not accepted. *)
Definition BodyMarkerAt (raw pre body : jsstring) : Prop :=
  raw = pre ++ str "TEXT:" ++ body ∧ body ≠ [].

(** The parse as the specification words it, to be compared with
    [parseResponse].  Both markers are located without regard to case; the
    value of the type marker is the word that follows it, on the same line
    or the next, and is recognised when it is one of the two kinds in any
    case; the body runs from the body marker to the end of the output. *)
Fixpoint afterMarker (marker raw : jsstring) : option jsstring :=
  if bool_decide (toLowerCase (take (length marker) raw) = toLowerCase marker)
  then Some (drop (length marker) raw)
  else match raw with
       | [] => None
       | _ :: rest => afterMarker marker rest
       end.

Fixpoint wordOf (s : jsstring) : jsstring :=
  match s with
  | [] => []
  | c :: rest => if isWhiteSpace c then [] else c :: wordOf rest
  end.

Definition specifiedParse (raw : jsstring) : MarginNote :=
  let whole := {| Result.type := commentary; Result.text := trim raw |} in
  match afterMarker (str "TYPE:") raw, afterMarker (str "TEXT:") raw with
  | Some rest, Some body =>
      let value := toLowerCase (wordOf (trimStart rest)) in
      if bool_decide (value = commentary) || bool_decide (value = question)
      then {| Result.type := value; Result.text := trim body |}
      else whole
  | _, _ => whole
  end.

(** The answers whose parse has an empty text: the blank ones, and those
    with a type marker in which only white space follows the first body
    marker. *)
Definition textless (raw : jsstring) : Prop :=
  trim raw = []
  ∨ ((∃ pre kind, TypeMarkerAt raw pre kind)
     ∧ ∃ pre body,
         BodyMarkerAt raw pre body
         ∧ (∀ p b, BodyMarkerAt raw p b → length pre ≤ length p)
         ∧ trim body = []).

(** The six classification labels of the specification, their names and
    the template each one stands for. *)
Inductive Label : Type :=
| Journaling | Brainstorming | Technical | Storytelling | NoteTaking | Other.

Definition labelName (l : Label) : jsstring :=
  match l with
  | Journaling => str "journaling"
  | Brainstorming => str "brainstorming"
  | Technical => str "technical"
  | Storytelling => str "storytelling"
  | NoteTaking => str "note-taking"
  | Other => str "other"
  end.

Definition templateOf (l : Label) : Adaptive.Branch :=
  match l with
  | Journaling => Adaptive.CaseJournaling
  | Brainstorming => Adaptive.CaseBrainstorming
  | Technical => Adaptive.CaseTechnical
  | Storytelling => Adaptive.CaseStorytelling
  | NoteTaking => Adaptive.CaseNoteTaking
  | Other => Adaptive.Default
  end.

(** The classification as the specification words it: the label whose
    name the normalised output is, and [Other] when it is none. *)
Definition labels : list Label :=
  [Journaling; Brainstorming; Technical; Storytelling; NoteTaking; Other].

Definition classify (normalized : jsstring) : Label :=
  match List.find (fun l => bool_decide (normalized = labelName l)) labels with
  | Some l => l
  | None => Other
  end.

(** The template of a label: the prompt of the generation stage when the
    content type is the name of the label. *)
Definition templateFor (l : Label) (paragraphText : jsstring) : jsstring :=
  Adaptive.mainPrompt (labelName l) paragraphText.

(** The word by which the specification tells the voice of each template:
    empathetic reflection, idea expansion, clarifying questions, narrative
    feedback, organizational connections, a supportive fallback. *)
Definition voice (l : Label) : jsstring :=
  match l with
  | Journaling => str "empathetic"
  | Brainstorming => str "idea"
  | Technical => str "clarifying"
  | Storytelling => str "narrative"
  | NoteTaking => str "organiz"
  | Other => str "supportive"
  end.

(** The output shape every template asks for. *)
Definition outputShape : jsstring := str "Format your response EXACTLY like this:
TYPE: commentary
TEXT: Your response here

OR

TYPE: question
TEXT: Your question here".

(** The request an observation of [newText] issues, as the source decides
    it: the count has grown, there is a second-to-last paragraph, and that
    paragraph passes the two gates. *)
Definition due (st : AppState) (newText : jsstring) (req : Request) : Prop :=
  let ps := paragraphs newText in
  prevParagraphCount st < length ps
  ∧ 2 ≤ length ps
  ∧ paragraphIndex req = length ps - 2
  ∧ ps !! (length ps - 2) = Some (paragraphText req)
  ∧ 10 ≤ length (trim (paragraphText req))
  ∧ marginNotes st !! (length ps - 2) = None.



(** The paragraph indices of a list of requests. *)
Definition indices (rs : list Request) : list nat := map paragraphIndex rs.

(** Every request in flight belongs to an index of its own, whose entry is
    present in the store. *)
Definition tracked (st : AppState) : Prop :=
  NoDup (indices (inFlight st))
  ∧ ∀ r, r ∈ inFlight st → is_Some (marginNotes st !! paragraphIndex r).


(** The document of the scenario in the specification. *)
Definition stuckDocument : jsstring := str "I feel stuck today.

Maybe I should try a walk.".

(** A collaborator that rejects every call, and one that classifies and
    then fails. *)
Definition failingModel : Collaborator := fun _ _ => Fails GenerateContentRejected.

Definition halfFailingModel : Collaborator :=
  fun n _ =>
    match n with
    | 0 => ReturnsText (str "journaling")
    | _ => Fails TextThrew
    end.



(** An answer with a type marker and a body of white space only. *)
Definition blankBody : jsstring := str "TYPE: question
TEXT:   ".

(** A collaborator answer in the required shape. *)
Definition stuckAnswer : jsstring := str "TYPE: question
TEXT: What does 'stuck' feel like in your body right now?".

(** A collaborator that classifies a text as poetry and then answers the
    template of the label other for the first sentence of the scenario,
    and no other prompt. *)
Definition poetryModel : Collaborator :=
  fun n prompt =>
    match n with
    | 0 => ReturnsText (str "poetry")
    | _ =>
        if bool_decide (prompt = templateFor Other (str "I feel stuck today."))
        then ReturnsText stuckAnswer
        else Fails GenerateContentRejected
    end.

(** Two paragraphs with four line breaks between them. *)
Definition gapped : jsstring := str "first paragraph



second paragraph".

(** The vertical room the entries of a split text take: for each entry
    that is not blank, its measured height and two line heights. *)
Fixpoint heightOf (m : Layout) (entries : list jsstring) : Z :=
  match entries with
  | [] => 0
  | e :: rest =>
      ((if nonBlank e then offsetHeight m e + lineHeight m * 2 else 0)
       + heightOf m rest)%Z
  end.

(** The code units of a string, and a note as a parsed value. *)
Definition units (s : jsstring) : list N := map code s.

Definition noteJson (note : Note) : JSON.json :=
  JSON.JObject
    [(units (str "text"), JSON.JString (units (Store.text note)));
     (units (str "type"), JSON.JString (units (Store.type note)));
     (units (str "isVisible"), JSON.JBool (Store.isVisible note));
     (units (str "isLoading"), JSON.JBool (Store.isLoading note))].

Definition noteTokens (note : Note) : list JSON.token :=
  [JSON.TLBrace;
   JSON.TString (units (str "text")); JSON.TColon;
   JSON.TString (units (Store.text note)); JSON.TComma;
   JSON.TString (units (str "type")); JSON.TColon;
   JSON.TString (units (Store.type note)); JSON.TComma;
   JSON.TString (units (str "isVisible")); JSON.TColon;
   (if Store.isVisible note then JSON.TTrue else JSON.TFalse); JSON.TComma;
   JSON.TString (units (str "isLoading")); JSON.TColon;
   (if Store.isLoading note then JSON.TTrue else JSON.TFalse);
   JSON.TRBrace].

Definition memberTokens (entry : nat * Note) : list JSON.token :=
  JSON.TString (units (Stringify.ToString (fst entry))) :: JSON.TColon
  :: noteTokens (snd entry).

Definition memberJson (entry : nat * Note) : list N * JSON.json :=
  (units (Stringify.ToString (fst entry)), noteJson (snd entry)).

(** The notes object as [JSON.parse] returns it. *)
Definition notesJson (marginNotes : gmap nat Note) : JSON.json :=
  JSON.JObject (map memberJson (Stringify.entries marginNotes)).

(** The note a parsed value stands for: the four properties the
    component reads, where they have the types the handler gives them. *)
Definition noteOf (value : JSON.json) : option Note :=
  match property value (units (str "text")),
        property value (units (str "type")),
        property value (units (str "isVisible")),
        property value (units (str "isLoading")) with
  | Some (JSON.JString t), Some (JSON.JString y),
    Some (JSON.JBool v), Some (JSON.JBool l) =>
      Some {| Store.text := map ascii_of_N t; Store.type := map ascii_of_N y;
              Store.isVisible := v; Store.isLoading := l |}
  | _, _, _, _ => None
  end.

(** A piece that [split] closes at the separator put after it: no
    occurrence of [sep] starts inside the piece, not even one that runs
    over into the separator. *)
Definition tight (sep p : jsstring) : Prop :=
  forall i, i < length p -> startsWith sep (drop i (p ++ sep)) = false.

(** Pieces that [split] gives back from their [join]. *)
Fixpoint separated (sep : jsstring) (pieces : list jsstring) : Prop :=
  match pieces with
  | [] => True
  | [p] => includes sep p = false
  | p :: rest => tight sep p /\ separated sep rest
  end.

(** The number of presses of Enter among the keys. *)
Definition enterCount (ks : list DoubleEnter.KeyDown) : nat :=
  length (List.filter
            (fun k => bool_decide (DoubleEnter.key k = DoubleEnter.Enter)) ks).

(** Enter pressed on the text [c] while the store is [notes]. *)
Definition enterOn (c : jsstring) (notes : gmap nat Note) : DoubleEnter.KeyDown :=
  {| DoubleEnter.key := DoubleEnter.Enter;
     DoubleEnter.contentThen := c;
     DoubleEnter.notesThen := notes |}.

(** A layout in which every text measures one line of 24 units. *)
Definition oneLineLayout : Layout :=
  {| lineHeight := 24; paddingTop := 60; offsetHeight := fun _ => 24%Z |}.

(** The layout on whole numbers that a measured layout with the line
    height [lh] stands for. *)
Definition wholeLayout (m : Measured.Layout) (lh : Z) : Layout :=
  {| lineHeight := lh; paddingTop := Measured.paddingTop m;
     offsetHeight := Measured.offsetHeight m |}.

(** The same measurements with the line height as a number, and with the
    line height [normal]. *)
Definition oneLineMeasured : Measured.Layout :=
  {| Measured.lineHeight := Measured.Num 24; Measured.paddingTop := 60;
     Measured.offsetHeight := fun _ => 24%Z |}.

Definition normalLineHeight : Measured.Layout :=
  {| Measured.lineHeight := Measured.NaN; Measured.paddingTop := 60;
     Measured.offsetHeight := fun _ => 24%Z |}.

(** A collaborator that gives the answer of the scenario. *)
Definition answeringModel : Collaborator := fun _ _ => ReturnsText stuckAnswer.


(** The document of the scenario with a third paragraph begun. *)
Definition longerDocument : jsstring := str "I feel stuck today.

Maybe I should try a walk.

Or".

(* ================================================================= *)
(** * Properties *)
(* ================================================================= *)

(* ---- strings ---- *)
Lemma startsWith_app (p r : jsstring) : startsWith p (p ++ r) = true.
Proof. induction p as [|a p IH]; simpl; [done|]. by rewrite Ascii.eqb_refl. Qed.

Lemma startsWith_inv (p s : jsstring) :
  startsWith p s = true → s = p ++ drop (length p) s.
Proof.
  revert s. induction p as [|a p IH]; intros [|b s]; simpl; try done.
  intros [Hab Hps]%andb_true_iff. apply Ascii.eqb_eq in Hab as ->.
  f_equal. by apply IH.
Qed.

Lemma startsWith_weaken (p s r : jsstring) :
  startsWith p s = true → startsWith p (s ++ r) = true.
Proof.
  intros H. rewrite (startsWith_inv _ _ H), <- app_assoc. apply startsWith_app.
Qed.

Lemma trimStart_app_space (ws s : jsstring) :
  forallb isWhiteSpace ws = true → trimStart (ws ++ s) = trimStart s.
Proof.
  induction ws as [|c ws IH]; simpl; [done|].
  intros [Hc Hws]%andb_true_iff. rewrite Hc. auto.
Qed.

Lemma trimStart_blank (s : jsstring) :
  trimStart s = [] ↔ forallb isWhiteSpace s = true.
Proof.
  induction s as [|c s IH]; simpl; [done|].
  destruct (isWhiteSpace c); simpl; [done|]. split; discriminate.
Qed.

Lemma trimStart_nil_trim (s : jsstring) : trimStart s = [] → trim s = [].
Proof. unfold trim, trimEnd. by intros ->. Qed.

Lemma trim_app_space (ws s : jsstring) :
  forallb isWhiteSpace ws = true → trim (ws ++ s) = trim s.
Proof. intros H. unfold trim. by rewrite trimStart_app_space. Qed.

Lemma trim_blank (s : jsstring) :
  forallb isWhiteSpace s = true → trim s = [].
Proof. intros H. by apply trimStart_nil_trim, trimStart_blank. Qed.

(* ---- split ---- *)
Lemma split_go_skip (sep s : jsstring) (skip : nat) (cur : jsstring) :
  split_go sep s skip cur = split_go sep (drop skip s) 0 cur.
Proof.
  revert skip. induction s as [|c s IH]; intros [|k]; simpl; try done.
Qed.

Lemma join_cons (sep p : jsstring) (q : jsstring) (rest : list jsstring) :
  join sep (p :: q :: rest) = p ++ sep ++ join sep (q :: rest).
Proof. done. Qed.

Lemma split_go_not_nil sep s skip cur : split_go sep s skip cur ≠ [].
Proof.
  revert skip cur. induction s as [|c s IH]; intros skip cur; simpl; [done|].
  destruct skip; [|apply IH]. destruct (startsWith sep (c :: s)); [done|apply IH].
Qed.

Lemma join_split_go (sep : jsstring) (n : nat) :
  sep ≠ [] →
  ∀ s cur, length s ≤ n → 
    join sep (split_go sep s 0 cur) = cur ++ s.
Proof.
  intros Hsep. induction n as [|n IH]; intros s cur Hn.
  - destruct s; [|simpl in Hn; lia]. simpl. by rewrite app_nil_r.
  - destruct s as [|c s]; [simpl; by rewrite app_nil_r|].
    simpl in Hn. cbn [split_go].
    destruct (startsWith sep (c :: s)) eqn:Hp.
    + rewrite split_go_skip.
      destruct (split_go sep (drop (length sep - 1) s) 0 []) as [|q rest] eqn:Hq.
      { by apply split_go_not_nil in Hq. }
      rewrite join_cons, <- Hq, IH by (rewrite length_drop; lia).
      f_equal. pose proof (startsWith_inv _ _ Hp) as E.
      destruct sep as [|a sep]; [done|]. simpl in E |- *.
      rewrite Nat.sub_0_r. injection E as -> E. by rewrite <- E.
    + rewrite IH by lia. by rewrite <- app_assoc.
Qed.

Lemma join_split (sep s : jsstring) : sep ≠ [] → join sep (split sep s) = s.
Proof. intros H. unfold split. by rewrite (join_split_go sep (length s)). Qed.

Lemma includes_false (p s : jsstring) :
  (∀ i, i ≤ length s → startsWith p (drop i s) = false) → includes p s = false.
Proof.
  induction s as [|c s IH]; intros H.
  - simpl. rewrite orb_false_r. apply (H 0). simpl; lia.
  - cbn [includes]. pose proof (H 0 ltac:(simpl; lia)) as H0.
    rewrite drop_0 in H0. rewrite H0. simpl.
    apply IH. intros i Hi. apply (H (S i)). simpl; lia.
Qed.

Lemma split_go_pieces (sep : jsstring) (n : nat) :
  sep ≠ [] →
  ∀ s cur, length s ≤ n →
    (∀ i, i < length cur → startsWith sep (drop i (cur ++ s)) = false) →
    Forall (fun e => includes sep e = false) (split_go sep s 0 cur).
Proof.
  intros Hsep. induction n as [|n IH]; intros s cur Hn Hcur.
  - destruct s; [|simpl in Hn; lia]. simpl. constructor; [|done].
    apply includes_false. intros i Hi.
    destruct (decide (i < length cur)) as [Hlt|Hge].
    + specialize (Hcur i Hlt). by rewrite app_nil_r in Hcur.
    + rewrite drop_ge by lia. by destruct sep.
  - destruct s as [|c s].
    { simpl. constructor; [|done]. apply includes_false. intros i Hi.
      destruct (decide (i < length cur)) as [Hlt|Hge].
      + specialize (Hcur i Hlt). by rewrite app_nil_r in Hcur.
      + rewrite drop_ge by lia. by destruct sep. }
    simpl in Hn. cbn [split_go].
    destruct (startsWith sep (c :: s)) eqn:Hp.
    + constructor.
      * apply includes_false. intros i Hi.
        destruct (decide (i < length cur)) as [Hlt|Hge].
        -- specialize (Hcur i Hlt).
           destruct (startsWith sep (drop i cur)) eqn:Hd; [|done].
           apply (startsWith_weaken _ _ (c :: s)) in Hd.
           rewrite <- drop_app_le in Hd by lia. congruence.
        -- rewrite drop_ge by lia. by destruct sep.
      * rewrite split_go_skip. apply IH; [rewrite length_drop; lia|].
        simpl. intros; lia.
    + apply IH; [lia|]. intros i Hi. rewrite length_app in Hi. simpl in Hi.
      rewrite <- app_assoc. simpl.
      destruct (decide (i < length cur)) as [Hlt|Hge]; [by apply Hcur|].
      assert (i = length cur) as -> by lia.
      by rewrite drop_app_length.
Qed.

Lemma split_pieces (sep s : jsstring) :
  sep ≠ [] → Forall (fun e => includes sep e = false) (split sep s).
Proof.
  intros H. apply (split_go_pieces sep (length s) H); [done|]. simpl. intros; lia.
Qed.

(* ---- segmentation ---- *)
Lemma filter_lookup_count {A} (f : A → bool) (l : list A) (j : nat) (e : A) :
  l !! j = Some e → f e = true →
  List.filter f l !! length (List.filter f (take j l)) = Some e.
Proof.
  revert j. induction l as [|a l IH]; intros [|j]; simpl; try done.
  - intros [= ->] ->. done.
  - intros Hj He. destruct (f a); simpl; by apply IH.
Qed.

Lemma filter_lookup_inv {A} (f : A → bool) (l : list A) (i : nat) (p : A) :
  List.filter f l !! i = Some p →
  ∃ j, l !! j = Some p ∧ f p = true ∧ i = length (List.filter f (take j l)).
Proof.
  revert i. induction l as [|a l IH]; intros i; simpl; [done|].
  destruct (f a) eqn:Ha.
  - destruct i as [|i]; simpl.
    + intros [= ->]. by exists 0.
    + intros (j & ? & ? & ->)%IH. exists (S j). simpl. by rewrite Ha.
  - intros (j & ? & ? & ->)%IH. exists (S j). simpl. by rewrite Ha.
Qed.

Lemma map_filter_comm {A B} (g : A → B) (f : B → bool) (l : list A) :
  map g (List.filter (fun a => f (g a)) l) = List.filter f (map g l).
Proof.
  induction l as [|a l IH]; simpl; [done|].
  destruct (f (g a)); simpl; by rewrite IH.
Qed.

Lemma blankLine_not_nil : blankLine ≠ [].
Proof. done. Qed.

(** C5, as the source has it.  Segmentation splits the document on the
    blank line: the pieces joined by the delimiter give the document back
    and no piece contains the delimiter.  It keeps, in order and with their
    text untouched, the pieces that are not blank after trimming, so the
    trimmed texts of the paragraphs are the non-blank trimmed pieces.  The
    index of a paragraph is its position among the kept pieces: the number
    of non-blank pieces before it.  [paragraphs] is a total function: the
    same document gives the same paragraphs at the same indices. *)
Theorem paragraphs_are_the_nonblank_entries (document : jsstring) :
  join blankLine (split blankLine document) = document
  ∧ Forall (fun e => includes blankLine e = false) (split blankLine document)
  ∧ map trim (paragraphs document) = segmentSpec document
  ∧ (∀ j e, split blankLine document !! j = Some e → nonBlank e = true →
       paragraphs document
         !! length (List.filter nonBlank (take j (split blankLine document)))
       = Some e)
  ∧ (∀ i p, paragraphs document !! i = Some p →
       nonBlank p = true ∧
       ∃ j, split blankLine document !! j = Some p
            ∧ i = length (List.filter nonBlank
                            (take j (split blankLine document))))
  ∧ (∀ again, again = document → paragraphs again = paragraphs document).
Proof.
  split; [apply join_split, blankLine_not_nil|].
  split; [apply split_pieces, blankLine_not_nil|].
  split; [apply (map_filter_comm trim (fun t => negb (isEmpty t)))|].
  split_and!.
  - intros j e. apply filter_lookup_count.
  - intros i p (j & ? & ? & ?)%filter_lookup_inv. eauto.
  - by intros again ->.
Qed.

(** C5 on the document of the scenario. *)
Lemma paragraphs_are_the_nonblank_entries_witness :
  paragraphs stuckDocument !! 1 = Some (str "Maybe I should try a walk.")
  ∧ join blankLine (split blankLine stuckDocument) = stuckDocument.
Proof.
  split.
  - apply (proj1 (proj2 (proj2 (proj2
             (paragraphs_are_the_nonblank_entries stuckDocument))))
             1 (str "Maybe I should try a walk.")); reflexivity.
  - apply (proj1 (paragraphs_are_the_nonblank_entries stuckDocument)).
Defined.

(** C5 as stated does not hold: the kept entries are not trimmed.  A
    document with spaces around its only paragraph keeps them. *)
Lemma paragraphs_keep_surrounding_space :
  paragraphs (str "  hello world  ") = [str "  hello world  "]
  ∧ segmentSpec (str "  hello world  ") = [str "hello world"]
  ∧ paragraphs (str "  hello world  ") ≠ segmentSpec (str "  hello world  ").
Proof. vm_compute. split; [done|]. split; [done|]. discriminate. Qed.

(* ---- characters ---- *)

Lemma allAscii_complete (c : ascii) : In c allAscii.
Proof.
  unfold allAscii. rewrite <- (ascii_nat_embedding c).
  apply in_map, in_seq. pose proof (nat_ascii_bounded c). lia.
Qed.

Lemma forall_ascii (P : ascii → bool) :
  forallb P allAscii = true → ∀ c, P c = true.
Proof. intros H c. eapply forallb_forall in H; [done|apply allAscii_complete]. Qed.

Lemma space_is_no_letter (p c : ascii) :
  isLowerLetter p = true → isWhiteSpace c = true →
  Ascii.eqb (canonicalize p) (canonicalize c) = false.
Proof.
  intros Hp Hc.
  assert (H : forallb (fun p => forallb (fun c =>
             implb (isLowerLetter p && isWhiteSpace c)
                   (negb (Ascii.eqb (canonicalize p) (canonicalize c))))
             allAscii) allAscii = true) by (vm_compute; reflexivity).
  pose proof (forall_ascii _ (forall_ascii _ H p) c) as E. simpl in E.
  rewrite Hp, Hc in E. simpl in E. by apply negb_true_iff.
Qed.

Lemma lower_of_same_capital (p c : ascii) :
  isLowerLetter p = true →
  Ascii.eqb (canonicalize p) (canonicalize c) = true → lowerChar c = p.
Proof.
  intros Hp Hc.
  assert (H : forallb (fun p => forallb (fun c =>
             implb (isLowerLetter p && Ascii.eqb (canonicalize p) (canonicalize c))
                   (Ascii.eqb (lowerChar c) p))
             allAscii) allAscii = true) by (vm_compute; reflexivity).
  pose proof (forall_ascii _ (forall_ascii _ H p) c) as E. simpl in E.
  rewrite Hp, Hc in E. simpl in E. by apply Ascii.eqb_eq.
Qed.

(* ---- the matcher on the shapes the two patterns are built from ---- *)

Section MatcherFacts.
Context {R : Type}.
Variable fl : flags.

Lemma matchK_lit (p s : jsstring) (cap : option jsstring)
    (k : jsstring → option jsstring → option R) :
  matchK fl (lit p) s cap k
  = if litMatches fl p s then k (drop (length p) s) cap else None.
Proof.
  revert s. induction p as [|a p IH]; intros s; [done|].
  cbn [lit matchK litMatches]. destruct s as [|c s]; [done|].
  cbn [length skipn].
  destruct (atomMatches fl (AChar a) c); cbn [andb]; [apply IH|done].
Qed.

Lemma starK_space (s : jsstring) (k : jsstring → option R) :
  (∀ c s', isWhiteSpace c = true → k (c :: s') = None) →
  starK fl ASpace s k = k (trimStart s).
Proof.
  intros Hk. induction s as [|c s IH]; simpl; [done|].
  destruct (isWhiteSpace c) eqn:Hc; [|done].
  rewrite IH. destruct (k (trimStart s)) eqn:E; [done|]. by apply Hk.
Qed.

Lemma starK_all (a : atom) (s : jsstring) (k : jsstring → option R) (x : R) :
  forallb (atomMatches fl a) s = true → k [] = Some x →
  starK fl a s k = Some x.
Proof.
  intros Hs Hk. induction s as [|c s IH]; simpl; [done|].
  simpl in Hs. apply andb_true_iff in Hs as [-> Hs]. by rewrite IH.
Qed.
End MatcherFacts.

Lemma matchK_seq {R} fl (r1 r2 : regex) s cap
    (k : jsstring → option jsstring → option R) :
  matchK fl (RSeq r1 r2) s cap k
  = matchK fl r1 s cap (fun s1 cap1 => matchK fl r2 s1 cap1 k).
Proof. done. Qed.

Lemma litMatches_length fl p s : litMatches fl p s = true → length p ≤ length s.
Proof.
  revert s. induction p as [|a p IH]; intros [|c s]; simpl; try done; try lia.
  intros [_ H]%andb_true_iff. apply IH in H. lia.
Qed.

Lemma litMatches_exact (p s : jsstring) :
  litMatches textFlags p s = startsWith p s.
Proof.
  revert s. induction p as [|a p IH]; intros [|c s]; simpl; try done.
  by rewrite IH.
Qed.

Lemma same_capital_same_lower (c d : ascii) :
  canonicalize c = canonicalize d ↔ lowerChar c = lowerChar d.
Proof.
  assert (H : forallb (fun c => forallb (fun d =>
             Bool.eqb (Ascii.eqb (canonicalize c) (canonicalize d))
                      (Ascii.eqb (lowerChar c) (lowerChar d)))
             allAscii) allAscii = true) by (vm_compute; reflexivity).
  pose proof (forall_ascii _ (forall_ascii _ H c) d) as E. simpl in E.
  apply Bool.eqb_prop in E. rewrite <- !Ascii.eqb_eq. by rewrite E.
Qed.

Lemma sameIgnoringCase_canonical (a b : jsstring) :
  sameIgnoringCase a b ↔ map canonicalize a = map canonicalize b.
Proof.
  unfold sameIgnoringCase, toLowerCase. revert b.
  induction a as [|c a IH]; intros [|d b]; simpl; [done|by split|by split|].
  split; intros [= H1 H2]; f_equal;
    try (by apply same_capital_same_lower); by apply IH.
Qed.

Lemma litMatches_ignoring_case (p s : jsstring) :
  litMatches typeFlags p s = true
  ↔ ∃ m rest, s = m ++ rest ∧ sameIgnoringCase m p.
Proof.
  setoid_rewrite sameIgnoringCase_canonical.
  revert s. induction p as [|a p IH]; intros s; simpl.
  - split; [|done]. intros _. by exists [], s.
  - destruct s as [|c s].
    + split; [done|]. intros (m & rest & E & Hm).
      symmetry in E. apply app_eq_nil in E as [-> _]. done.
    + rewrite andb_true_iff, IH. split.
      * intros [Hc (m & rest & -> & Hm)]. exists (c :: m), rest.
        split; [done|]. simpl. apply Ascii.eqb_eq in Hc. by rewrite Hm, Hc.
      * intros (m & rest & E & Hm). destruct m as [|c' m]; [done|].
        simpl in E, Hm. injection E as -> ->. injection Hm as Hc Hm.
        split; [by apply Ascii.eqb_eq|]. by exists m, rest.
Qed.

Lemma sameIgnoringCase_length a b : sameIgnoringCase a b → length a = length b.
Proof.
  intros H%sameIgnoringCase_canonical. apply (f_equal length) in H.
  by rewrite !length_map in H.
Qed.

Lemma lower_of_same_word (kind value : jsstring) :
  forallb isLowerLetter kind = true → sameIgnoringCase value kind →
  toLowerCase value = kind.
Proof.
  intros Hk Hv. apply sameIgnoringCase_canonical in Hv. revert Hk Hv.
  unfold toLowerCase.
  revert value. induction kind as [|p kind IH]; intros [|c value]; simpl; try done.
  intros [Hp Hk]%andb_true_iff [= Hc Hv]. f_equal; [|by apply IH].
  apply lower_of_same_capital; [done|]. apply Ascii.eqb_eq. done.
Qed.

(* ---- the body pattern ---- *)

Lemma trim_textGroup (body : jsstring) : trim (textGroup body) = trim body.
Proof.
  unfold textGroup. destruct (trimStart body) as [|c t] eqn:E.
  - rewrite (trimStart_nil_trim _ E). apply trim_blank.
    apply trimStart_blank in E.
    rewrite <- (take_drop (length body - 1) body) in E.
    rewrite forallb_app in E. by apply andb_true_iff in E as [_ ?].
  - rewrite <- E. unfold trim.
    assert (trimStart (trimStart body) = trimStart body) as ->; [|done].
    rewrite E. simpl. destruct (isWhiteSpace c) eqn:Hc; [|done].
    exfalso. clear -E Hc. induction body as [|b body IH]; simpl in E; [done|].
    destruct (isWhiteSpace b) eqn:Hb; [auto|]. injection E as -> _. congruence.
Qed.

Lemma matchK_anything (s : jsstring) (cap : option jsstring) :
  matchK textFlags (RGroup (RPlus ADot)) s cap finish
  = match s with
    | [] => None
    | _ :: _ => Some {| group1 := Some s |}
    end.
Proof.
  destruct s as [|c s]; [done|]. cbn [matchK atomMatches textFlags dotAll orb].
  erewrite starK_all; [done| |].
  - by apply forallb_forall.
  - unfold finish. cbn [length]. rewrite Nat.sub_0_r.
    change (S (length s)) with (length (c :: s)). by rewrite firstn_all.
Qed.

Lemma starK_space_anything (s : jsstring) (cap : option jsstring) :
  starK textFlags ASpace s
    (fun s' => matchK textFlags (RGroup (RPlus ADot)) s' cap finish)
  = match s with
    | [] => None
    | _ :: _ => Some {| group1 := Some (textGroup s) |}
    end.
Proof.
  induction s as [|c s IH]; [done|]. cbn [starK atomMatches].
  destruct (isWhiteSpace c) eqn:Hc.
  - rewrite IH. destruct s as [|d s].
    + rewrite matchK_anything. unfold textGroup. simpl. by rewrite Hc.
    + do 3 f_equal. unfold textGroup. cbn [trimStart]. rewrite Hc.
      destruct (if isWhiteSpace d then trimStart s else d :: s); [|done].
      cbn [length]. by rewrite !Nat.sub_succ, !Nat.sub_0_r.
  - rewrite matchK_anything. unfold textGroup. simpl. by rewrite Hc.
Qed.

Lemma matchHere_text (s : jsstring) :
  matchHere textFlags textPattern s
  = if startsWith (str "TEXT:") s
    then match drop 5 s with
         | [] => None
         | body => Some {| group1 := Some (textGroup body) |}
         end
    else None.
Proof.
  unfold matchHere, textPattern. rewrite matchK_seq, matchK_lit, litMatches_exact.
  destruct (startsWith (str "TEXT:") s); [|done].
  change (length (str "TEXT:")) with 5.
  etrans; [exact (starK_space_anything (drop 5 s) None)|].
  by destruct (drop 5 s).
Qed.

(* ---- the type pattern ---- *)

Lemma take_consumed (n : nat) (r : jsstring) :
  n ≤ length r → take (length r - length (drop n r)) r = take n r.
Proof. intros H. rewrite length_drop. f_equal. lia. Qed.

Lemma matchK_kinds (r : jsstring) (cap : option jsstring) :
  matchK typeFlags (RGroup (RAlt (lit commentary) (lit question))) r cap finish
  = foundGroup (typeGroup r).
Proof.
  change (matchK typeFlags (RGroup (RAlt (lit commentary) (lit question))) r cap finish)
    with (match matchK typeFlags (lit commentary) r cap
                  (fun s1 _ => finish s1 (Some (take (length r - length s1) r))) with
          | Some x => Some x
          | None => matchK typeFlags (lit question) r cap
                      (fun s1 _ => finish s1 (Some (take (length r - length s1) r)))
          end).
  rewrite !matchK_lit. unfold typeGroup, finish.
  destruct (litMatches typeFlags commentary r) eqn:Hc.
  { apply litMatches_length in Hc. simpl. by rewrite take_consumed. }
  destruct (litMatches typeFlags question r) eqn:Hq; [|done].
  apply litMatches_length in Hq. simpl. by rewrite take_consumed.
Qed.

Lemma typeGroup_space (c : ascii) (s : jsstring) :
  isWhiteSpace c = true → typeGroup (c :: s) = None.
Proof.
  intros Hc. unfold typeGroup, commentary, question. cbn [str list_ascii_of_string litMatches].
  cbn [atomMatches typeFlags ignoreCase].
  rewrite !space_is_no_letter; done.
Qed.

Lemma matchHere_type (s : jsstring) :
  matchHere typeFlags typePattern s
  = if litMatches typeFlags (str "TYPE:") s
    then foundGroup (typeGroup (trimStart (drop 5 s)))
    else None.
Proof.
  unfold matchHere, typePattern. rewrite matchK_seq, matchK_lit.
  destruct (litMatches typeFlags (str "TYPE:") s); [|done].
  change (length (str "TYPE:")) with 5.
  etrans; [apply (starK_space typeFlags (drop 5 s)
                    (fun s' => matchK typeFlags
                       (RGroup (RAlt (lit commentary) (lit question))) s' None finish))|].
  - intros c s' Hc. by rewrite matchK_kinds, typeGroup_space.
  - apply matchK_kinds.
Qed.

(* ---- the leftmost match ---- *)

Lemma no_occurrence_before (w raw : jsstring) (n : nat) :
  forallb (fun i => negb (startsWith w (drop i raw))) (seq 0 n) = true →
  ∀ p b, raw = p ++ w ++ b → n ≤ length p.
Proof.
  intros H p b E. destruct (decide (n ≤ length p)) as [|Hlt]; [done|].
  rewrite forallb_forall in H. specialize (H (length p)).
  rewrite E, drop_app_length, startsWith_app in H.
  discriminate H. apply in_seq. lia.
Qed.

Lemma regexMatch_found fl r (s : jsstring) (m : MatchArray) :
  regexMatch fl r s = Some m
  ↔ ∃ pre post, s = pre ++ post ∧ matchHere fl r post = Some m
      ∧ ∀ pre' post', s = pre' ++ post' → length pre' < length pre →
          matchHere fl r post' = None.
Proof.
  induction s as [|c s IH]; cbn [regexMatch].
  - destruct (matchHere fl r []) eqn:E.
    + split.
      * intros [= <-]. exists [], []. repeat split; [done|]. simpl; intros; lia.
      * intros (pre & post & Eq & H & _). symmetry in Eq.
        apply app_eq_nil in Eq as [-> ->]. congruence.
    + split; [done|]. intros (pre & post & Eq & H & _). symmetry in Eq.
      apply app_eq_nil in Eq as [-> ->]. congruence.
  - destruct (matchHere fl r (c :: s)) eqn:E.
    + split.
      * intros [= <-]. exists [], (c :: s). repeat split; [done|]. simpl; intros; lia.
      * intros (pre & post & Eq & H & Hmin). destruct pre as [|c' pre].
        -- simpl in Eq. subst post. congruence.
        -- rewrite (Hmin [] (c :: s)) in E; [done|done|simpl; lia].
    + rewrite IH. split.
      * intros (pre & post & -> & H & Hmin). exists (c :: pre), post.
        repeat split; [done|]. intros [|c' pre'] post' Eq Hlen.
        -- simpl in Eq. by subst post'.
        -- simpl in Eq. injection Eq as -> Eq. apply (Hmin pre' post' Eq).
           simpl in Hlen. lia.
      * intros (pre & post & Eq & H & Hmin). destruct pre as [|c' pre].
        -- simpl in Eq. subst post. congruence.
        -- simpl in Eq. injection Eq as -> ->. exists pre, post.
           repeat split; [done|]. intros pre' post' Eq' Hlen.
           apply (Hmin (c' :: pre') post'); [simpl; by rewrite Eq'|simpl; lia].
Qed.

Lemma regexMatch_none fl r (s : jsstring) :
  regexMatch fl r s = None
  ↔ ∀ pre post, s = pre ++ post → matchHere fl r post = None.
Proof.
  induction s as [|c s IH]; cbn [regexMatch].
  - destruct (matchHere fl r []) eqn:E.
    + split; [done|]. intros H. by rewrite (H [] []) in E.
    + split; [|done]. intros _ pre post Eq. symmetry in Eq.
      by apply app_eq_nil in Eq as [-> ->].
  - destruct (matchHere fl r (c :: s)) eqn:E.
    + split; [done|]. intros H. by rewrite (H [] (c :: s)) in E.
    + rewrite IH. split.
      * intros H [|c' pre] post Eq.
        -- simpl in Eq. by subst post.
        -- simpl in Eq. injection Eq as -> ->. by apply (H pre).
      * intros H pre post ->. by apply (H (c :: pre)).
Qed.

(* ---- the occurrences the two patterns accept ---- *)

Lemma trimStart_split (s : jsstring) :
  ∃ ws, s = ws ++ trimStart s ∧ forallb isWhiteSpace ws = true.
Proof.
  induction s as [|c s (ws & E & Hws)]; [by exists []|]. simpl.
  destruct (isWhiteSpace c) eqn:Hc.
  - exists (c :: ws). simpl. rewrite Hc, Hws. split; [by f_equal|done].
  - by exists [].
Qed.

Lemma kind_lower (kind : jsstring) :
  kind = commentary ∨ kind = question → forallb isLowerLetter kind = true.
Proof. by intros [-> | ->]. Qed.

Lemma kind_starts_with_letter (kind value rest : jsstring) :
  kind = commentary ∨ kind = question → sameIgnoringCase value kind →
  trimStart (value ++ rest) = value ++ rest.
Proof.
  intros Hk Hv. apply sameIgnoringCase_canonical in Hv. destruct value as [|v value]; [by destruct Hk as [-> | ->]|].
  simpl. destruct (isWhiteSpace v) eqn:Hw; [|done]. exfalso.
  destruct Hk as [-> | ->]; injection Hv as Hv _;
    (eapply eq_true_false_abs;
      [apply Ascii.eqb_eq; symmetry; exact Hv
      |apply space_is_no_letter; [done|exact Hw]]).
Qed.

Lemma typeGroup_of_kind (kind value rest : jsstring) :
  kind = commentary ∨ kind = question → sameIgnoringCase value kind →
  typeGroup (value ++ rest) = Some value.
Proof.
  intros Hk Hv. pose proof (sameIgnoringCase_length _ _ Hv) as Hlen.
  assert (Hm : litMatches typeFlags kind (value ++ rest) = true).
  { apply litMatches_ignoring_case. by exists value, rest. }
  apply sameIgnoringCase_canonical in Hv.
  unfold typeGroup. destruct Hk as [-> | ->].
  - rewrite Hm. f_equal. change 10 with (length commentary).
    by rewrite <- Hlen, take_app_length.
  - assert (litMatches typeFlags commentary (value ++ rest) = false) as ->.
    { destruct value as [|v value]; [done|]. injection Hv as Hv _.
      cbn [app commentary str list_ascii_of_string litMatches atomMatches
           typeFlags ignoreCase].
      apply andb_false_iff. left. apply Ascii.eqb_neq. rewrite Hv.
      by vm_compute. }
    rewrite Hm. f_equal. change 8 with (length question).
    by rewrite <- Hlen, take_app_length.
Qed.

Lemma typeGroup_inv (r g : jsstring) :
  typeGroup r = Some g →
  ∃ kind rest, r = g ++ rest ∧ sameIgnoringCase g kind
    ∧ (kind = commentary ∨ kind = question).
Proof.
  unfold typeGroup. intros H.
  destruct (litMatches typeFlags commentary r) eqn:Hc.
  - injection H as <-. apply litMatches_ignoring_case in Hc as (m & rest & -> & Hm).
    exists commentary, rest. apply sameIgnoringCase_length in Hm as Hlen.
    change 10 with (length commentary). rewrite <- Hlen, take_app_length. auto.
  - destruct (litMatches typeFlags question r) eqn:Hq; [|done].
    injection H as <-. apply litMatches_ignoring_case in Hq as (m & rest & -> & Hm).
    exists question, rest. apply sameIgnoringCase_length in Hm as Hlen.
    change 8 with (length question). rewrite <- Hlen, take_app_length. auto.
Qed.

Lemma matchHere_type_marker (post : jsstring) (m : MatchArray) :
  matchHere typeFlags typePattern post = Some m →
  ∃ kind value, TypeMarkerAt post [] kind
    ∧ group1 m = Some value ∧ toLowerCase value = kind.
Proof.
  rewrite matchHere_type.
  destruct (litMatches typeFlags (str "TYPE:") post) eqn:Hm; [|done].
  apply litMatches_ignoring_case in Hm as (marker & rest & -> & Hmark).
  pose proof (sameIgnoringCase_length _ _ Hmark) as Hlen.
  change (length (str "TYPE:")) with 5 in Hlen.
  rewrite <- Hlen, drop_app_length.
  destruct (typeGroup (trimStart rest)) as [g|] eqn:Hg; [|done].
  intros [= <-]. apply typeGroup_inv in Hg as (kind & rest' & Hr & Hv & Hk).
  destruct (trimStart_split rest) as (ws & Hrest & Hws).
  exists kind, g. split; [|split; [done|]].
  - exists marker, ws, g, rest'. simpl. rewrite <- Hr, <- Hrest. auto.
  - apply lower_of_same_word; [by apply kind_lower|done].
Qed.

Lemma type_marker_matchHere (post kind : jsstring) :
  TypeMarkerAt post [] kind →
  ∃ value, matchHere typeFlags typePattern post = Some {| group1 := Some value |}
    ∧ toLowerCase value = kind.
Proof.
  intros (marker & ws & value & rest & -> & Hmark & Hws & Hv & Hk).
  exists value. split; [|apply lower_of_same_word; [by apply kind_lower|done]].
  rewrite matchHere_type, app_nil_l.
  assert (litMatches typeFlags (str "TYPE:") (marker ++ ws ++ value ++ rest) = true) as ->.
  { apply litMatches_ignoring_case. by exists marker, (ws ++ value ++ rest). }
  pose proof (sameIgnoringCase_length _ _ Hmark) as Hlen.
  change (length (str "TYPE:")) with 5 in Hlen.
  rewrite <- Hlen, drop_app_length, trimStart_app_space by done.
  rewrite (kind_starts_with_letter kind) by done.
  by rewrite (typeGroup_of_kind kind).
Qed.

Lemma matchHere_body_marker (post : jsstring) (m : MatchArray) :
  matchHere textFlags textPattern post = Some m
  ↔ ∃ body, BodyMarkerAt post [] body ∧ m = {| group1 := Some (textGroup body) |}.
Proof.
  rewrite matchHere_text. unfold BodyMarkerAt. split.
  - destruct (startsWith (str "TEXT:") post) eqn:Hs; [|done].
    apply startsWith_inv in Hs. change (length (str "TEXT:")) with 5 in Hs.
    destruct (drop 5 post) as [|b body] eqn:Hd; [done|].
    intros [= <-]. exists (b :: body). by rewrite app_nil_l.
  - intros (body & [-> Hne] & ->). rewrite app_nil_l.
    rewrite (startsWith_app (str "TEXT:") body).
    change (drop 5 (str "TEXT:" ++ body)) with body. by destruct body.
Qed.

Lemma type_marker_shift (pre post kind : jsstring) :
  TypeMarkerAt (pre ++ post) pre kind ↔ TypeMarkerAt post [] kind.
Proof.
  unfold TypeMarkerAt. split.
  - intros (marker & ws & value & rest & E & H). apply app_inv_head in E.
    by exists marker, ws, value, rest.
  - intros (marker & ws & value & rest & E & H). rewrite app_nil_l in E.
    subst post. by exists marker, ws, value, rest.
Qed.

Lemma body_marker_shift (pre post body : jsstring) :
  BodyMarkerAt (pre ++ post) pre body ↔ BodyMarkerAt post [] body.
Proof.
  unfold BodyMarkerAt. rewrite app_nil_l. split.
  - intros [E ?]. by apply app_inv_head in E.
  - by intros [-> ?].
Qed.

Lemma marker_is_prefix_type (raw pre kind : jsstring) :
  TypeMarkerAt raw pre kind → ∃ post, raw = pre ++ post.
Proof. intros (marker & ws & value & rest & -> & _). eauto. Qed.

Lemma type_pattern_some (raw : jsstring) (tm : MatchArray) :
  regexMatch typeFlags typePattern raw = Some tm →
  ∃ pre kind value,
    TypeMarkerAt raw pre kind
    ∧ (∀ p k, TypeMarkerAt raw p k → length pre ≤ length p)
    ∧ tm = {| group1 := Some value |} ∧ toLowerCase value = kind.
Proof.
  intros (pre & post & -> & Hm & Hmin)%regexMatch_found.
  apply matchHere_type_marker in Hm as (kind & value & Hk & Hg & Hlow).
  exists pre, kind, value. split_and!.
  - by apply type_marker_shift.
  - intros p k Hpk. destruct (decide (length pre ≤ length p)) as [|Hlt]; [done|].
    destruct (marker_is_prefix_type _ _ _ Hpk) as (q & E).
    rewrite E in Hpk. apply type_marker_shift in Hpk.
    apply type_marker_matchHere in Hpk as (v & Hv & _).
    rewrite (Hmin p q E) in Hv; [done|lia].
  - destruct tm as [g]. simpl in Hg. by subst g.
  - done.
Qed.

Lemma type_pattern_none (raw : jsstring) :
  regexMatch typeFlags typePattern raw = None
  ↔ ¬ ∃ pre kind, TypeMarkerAt raw pre kind.
Proof.
  split.
  - intros Hn (pre & kind & H).
    destruct (marker_is_prefix_type _ _ _ H) as (post & E).
    rewrite E in H. apply type_marker_shift in H.
    apply type_marker_matchHere in H as (v & Hv & _).
    by rewrite (proj1 (regexMatch_none _ _ _) Hn pre post E) in Hv.
  - intros H. destruct (regexMatch typeFlags typePattern raw) as [tm|] eqn:E; [|done].
    apply type_pattern_some in E as (pre & kind & _ & Hk & _). destruct H. eauto.
Qed.

Lemma body_pattern_some (raw : jsstring) (xm : MatchArray) :
  regexMatch textFlags textPattern raw = Some xm →
  ∃ pre body,
    BodyMarkerAt raw pre body
    ∧ (∀ p b, BodyMarkerAt raw p b → length pre ≤ length p)
    ∧ xm = {| group1 := Some (textGroup body) |}.
Proof.
  intros (pre & post & -> & Hm & Hmin)%regexMatch_found.
  apply matchHere_body_marker in Hm as (body & Hb & ->).
  exists pre, body. split_and!.
  - by apply body_marker_shift.
  - intros p b Hpb. destruct (decide (length pre ≤ length p)) as [|Hlt]; [done|].
    pose proof Hpb as [E _]. rewrite E in Hpb. apply body_marker_shift in Hpb.
    assert (Hq : matchHere textFlags textPattern (str "TEXT:" ++ b)
                 = Some {| group1 := Some (textGroup b) |}).
    { apply matchHere_body_marker. eauto. }
    rewrite (Hmin p _ E) in Hq; [done|lia].
  - done.
Qed.

Lemma body_pattern_none (raw : jsstring) :
  regexMatch textFlags textPattern raw = None
  ↔ ¬ ∃ pre body, BodyMarkerAt raw pre body.
Proof.
  split.
  - intros Hn (pre & body & H). pose proof H as [E _].
    rewrite E in H. apply body_marker_shift in H.
    assert (Hq : matchHere textFlags textPattern (str "TEXT:" ++ body)
                 = Some {| group1 := Some (textGroup body) |}).
    { apply matchHere_body_marker. eauto. }
    by rewrite (proj1 (regexMatch_none _ _ _) Hn pre _ E) in Hq.
  - intros H. destruct (regexMatch textFlags textPattern raw) as [xm|] eqn:E; [|done].
    apply body_pattern_some in E as (pre & body & Hb & _). destruct H. eauto.
Qed.

Lemma first_body_marker_unique (raw pre body pre' body' : jsstring) :
  BodyMarkerAt raw pre body → BodyMarkerAt raw pre' body' →
  length pre ≤ length pre' → length pre' ≤ length pre → body = body'.
Proof.
  intros [E _] [E' _] H1 H2. rewrite E in E'.
  apply app_inj_1 in E' as [_ E']; [|lia]. by apply app_inv_head in E'.
Qed.

Lemma first_type_marker_unique (raw pre kind pre' kind' : jsstring) :
  TypeMarkerAt raw pre kind → TypeMarkerAt raw pre' kind' →
  length pre ≤ length pre' → length pre' ≤ length pre → kind = kind'.
Proof.
  intros H H' H1 H2.
  destruct (marker_is_prefix_type _ _ _ H) as (post & E).
  destruct (marker_is_prefix_type _ _ _ H') as (post' & E').
  rewrite E in E'. apply app_inj_1 in E' as [<- <-]; [|lia].
  rewrite E in H, H'. apply type_marker_shift in H, H'.
  apply type_marker_matchHere in H as (v & Hv & <-).
  apply type_marker_matchHere in H' as (v' & Hv' & <-).
  rewrite Hv in Hv'. by injection Hv' as ->.
Qed.

(** The parse when both patterns have a match. *)
Lemma parseResponse_matched (raw value body : jsstring) :
  regexMatch typeFlags typePattern raw = Some {| group1 := Some value |} →
  regexMatch textFlags textPattern raw
  = Some {| group1 := Some (textGroup body) |} →
  parseResponse raw
  = Resolved {| Result.type := toLowerCase value; Result.text := trim body |}.
Proof.
  intros Et Ex. unfold parseResponse. rewrite Et, Ex. simpl.
  by rewrite trim_textGroup.
Qed.

(** C6, as the source has it.  The parse of an output always resolves.
    When the type pattern or the body pattern has no match in the output,
    the parse is the commentary note whose text is the whole output,
    trimmed.  When both have one, the parse has the kind of the first match
    of the type pattern, in lower case, and as its text what follows the
    first match of [TEXT:] up to the end of the output, trimmed.  The type
    pattern is [TYPE:] in any case, optional white space and text that
    begins with one of the two kinds in any case; the body pattern is
    [TEXT:] in capitals followed by at least one character. *)
Theorem parseResponse_follows_the_markers (raw : jsstring) :
  (∃ note, parseResponse raw = Resolved note)
  ∧ ((¬ ∃ pre kind, TypeMarkerAt raw pre kind)
     ∨ (¬ ∃ pre body, BodyMarkerAt raw pre body) →
     parseResponse raw
     = Resolved {| Result.type := commentary; Result.text := trim raw |})
  ∧ ((∃ pre kind, TypeMarkerAt raw pre kind) →
     (∃ pre body, BodyMarkerAt raw pre body) →
     ∃ pre kind pre' body,
       TypeMarkerAt raw pre kind
       ∧ (∀ p k, TypeMarkerAt raw p k → length pre ≤ length p)
       ∧ BodyMarkerAt raw pre' body
       ∧ (∀ p b, BodyMarkerAt raw p b → length pre' ≤ length p)
       ∧ parseResponse raw
         = Resolved {| Result.type := kind; Result.text := trim body |})
  ∧ (∀ pre kind pre' body,
       TypeMarkerAt raw pre kind →
       (∀ p k, TypeMarkerAt raw p k → length pre ≤ length p) →
       BodyMarkerAt raw pre' body →
       (∀ p b, BodyMarkerAt raw p b → length pre' ≤ length p) →
       parseResponse raw
       = Resolved {| Result.type := kind; Result.text := trim body |}).
Proof.
  assert (Hboth : (∃ pre kind, TypeMarkerAt raw pre kind) →
     (∃ pre body, BodyMarkerAt raw pre body) →
     ∃ pre kind pre' body,
       TypeMarkerAt raw pre kind
       ∧ (∀ p k, TypeMarkerAt raw p k → length pre ≤ length p)
       ∧ BodyMarkerAt raw pre' body
       ∧ (∀ p b, BodyMarkerAt raw p b → length pre' ≤ length p)
       ∧ parseResponse raw
         = Resolved {| Result.type := kind; Result.text := trim body |}).
  { intros Ht Hb.
    destruct (regexMatch typeFlags typePattern raw) as [tm|] eqn:Et;
      [|by apply type_pattern_none in Et].
    destruct (regexMatch textFlags textPattern raw) as [xm|] eqn:Ex;
      [|by apply body_pattern_none in Ex].
    pose proof Et as Et'. pose proof Ex as Ex'.
    apply type_pattern_some in Et' as (pre & kind & value & Hk & Hkmin & -> & Hlow).
    apply body_pattern_some in Ex' as (pre' & body & Hbm & Hbmin & ->).
    exists pre, kind, pre', body. split_and!; try done.
    by rewrite (parseResponse_matched raw value body Et Ex), Hlow. }
  assert (Hmiss : (¬ ∃ pre kind, TypeMarkerAt raw pre kind)
     ∨ (¬ ∃ pre body, BodyMarkerAt raw pre body) →
     parseResponse raw
     = Resolved {| Result.type := commentary; Result.text := trim raw |}).
  { intros [H | H]; unfold parseResponse.
    - apply type_pattern_none in H. by rewrite H.
    - apply body_pattern_none in H. rewrite H.
      by destruct (regexMatch typeFlags typePattern raw). }
  split_and!.
  - destruct (regexMatch typeFlags typePattern raw) as [tm|] eqn:Et.
    + destruct (regexMatch textFlags textPattern raw) as [xm|] eqn:Ex.
      * apply type_pattern_some in Et as (pre & kind & _ & Hk & _).
        apply body_pattern_some in Ex as (pre' & body & Hb & _).
        destruct Hboth as (? & ? & ? & ? & _ & _ & _ & _ & E); eauto.
      * eexists. apply Hmiss. right. by apply body_pattern_none.
    + eexists. apply Hmiss. left. by apply type_pattern_none.
  - exact Hmiss.
  - exact Hboth.
  - intros pre kind pre' body Ht Htmin Hb Hbmin.
    destruct Hboth as (p0 & k0 & p0' & b0 & Ht0 & Htmin0 & Hb0 & Hbmin0 & ->);
      [eauto|eauto|].
    assert (k0 = kind) as ->
      by (apply (first_type_marker_unique raw p0 k0 pre kind); eauto).
    assert (b0 = body) as ->
      by (apply (first_body_marker_unique raw p0' b0 pre' body); eauto).
    done.
Qed.

(** C6 on three outputs: one in the required shape, one whose type marker
    is written in another case, and one without markers. *)
Lemma parseResponse_follows_the_markers_witness :
  parseResponse stuckAnswer
  = Resolved {| Result.type := question;
                Result.text := str "What does 'stuck' feel like in your body right now?" |}
  ∧ parseResponse (str "Type:  COMMENTARY
TEXT: Stay with that feeling.")
    = Resolved {| Result.type := commentary;
                  Result.text := str "Stay with that feeling." |}
  ∧ parseResponse (str "Stay with that feeling.  ")
    = Resolved {| Result.type := commentary;
                  Result.text := str "Stay with that feeling." |}.
Proof.
  split_and!.
  - apply (proj2 (proj2 (proj2 (parseResponse_follows_the_markers stuckAnswer)))
             [] question (str "TYPE: question
")
             (str " What does 'stuck' feel like in your body right now?")).
    + exists (str "TYPE:"), (str " "), question, (str "
TEXT: What does 'stuck' feel like in your body right now?").
      split_and!; [reflexivity|reflexivity|reflexivity|reflexivity|by right].
    + intros p k _. simpl. lia.
    + split; [reflexivity|discriminate].
    + intros p b [E _]. eapply (no_occurrence_before _ _ 15); [|exact E].
      vm_compute. reflexivity.
  - apply (proj2 (proj2 (proj2 (parseResponse_follows_the_markers
                                  (str "Type:  COMMENTARY
TEXT: Stay with that feeling."))))
             [] commentary (str "Type:  COMMENTARY
")
             (str " Stay with that feeling.")).
    + exists (str "Type:"), (str "  "), (str "COMMENTARY"), (str "
TEXT: Stay with that feeling.").
      split_and!; [reflexivity|reflexivity|reflexivity|reflexivity|by left].
    + intros p k _. simpl. lia.
    + split; [reflexivity|discriminate].
    + intros p b [E _]. eapply (no_occurrence_before _ _ 18); [|exact E].
      vm_compute. reflexivity.
  - apply (proj1 (proj2 (parseResponse_follows_the_markers
                           (str "Stay with that feeling.  ")))).
    right. intros (p & b & E & _).
    assert (26 ≤ length p).
    { eapply (no_occurrence_before _ _ 26); [|exact E]. vm_compute. reflexivity. }
    apply (f_equal length) in E. rewrite !length_app in E. simpl in E. lia.
Defined.

(** C6 as stated does not hold.  The specification locates both markers
    without regard to case, falls back when the value of the type marker is
    not one of the two kinds, and returns the body when both markers are
    there.  The source accepts a value that merely begins with a kind,
    does not accept [Text:] in lower case, and falls back on an empty
    body. *)
Lemma parseResponse_is_not_the_specified_parse :
  (parseResponse (str "TYPE: questionable
TEXT: Is it?")
   = Resolved {| Result.type := question; Result.text := str "Is it?" |}
   ∧ specifiedParse (str "TYPE: questionable
TEXT: Is it?")
     = {| Result.type := commentary;
          Result.text := str "TYPE: questionable
TEXT: Is it?" |})
  ∧ (parseResponse (str "Type: Question
Text: Is it?")
     = Resolved {| Result.type := commentary;
                   Result.text := str "Type: Question
Text: Is it?" |}
     ∧ specifiedParse (str "Type: Question
Text: Is it?")
       = {| Result.type := question; Result.text := str "Is it?" |})
  ∧ (parseResponse (str "TYPE: question
TEXT:")
     = Resolved {| Result.type := commentary;
                   Result.text := str "TYPE: question
TEXT:" |}
     ∧ specifiedParse (str "TYPE: question
TEXT:")
       = {| Result.type := question; Result.text := [] |}).
Proof. by vm_compute. Qed.

Lemma trimStart_head (s t : jsstring) (c : ascii) :
  trimStart s = c :: t → isWhiteSpace c = false.
Proof.
  induction s as [|d s IH]; simpl; [done|].
  destruct (isWhiteSpace d) eqn:Hd; [done|]. by intros [= <- _].
Qed.

Lemma trim_nil_blank (s : jsstring) :
  trim s = [] → forallb isWhiteSpace s = true.
Proof.
  unfold trim, trimEnd. intros H. apply trimStart_blank.
  destruct (trimStart s) as [|c t] eqn:E; [done|]. exfalso.
  apply (f_equal (@rev ascii)) in H. rewrite rev_involutive in H. simpl in H.
  apply trimStart_blank in H. rewrite forallb_forall in H.
  pose proof (H c) as Hc. rewrite (trimStart_head _ _ _ E) in Hc.
  discriminate Hc. apply in_or_app. right. by left.
Qed.

Lemma body_marker_not_blank (raw pre body : jsstring) :
  BodyMarkerAt raw pre body → trim raw ≠ [].
Proof.
  intros [-> _] H%trim_nil_blank.
  rewrite forallb_app in H. apply andb_true_iff in H as [_ H]. done.
Qed.

(** When the parse has an empty text. *)
Lemma parseResponse_text_empty (raw : jsstring) (note : MarginNote) :
  parseResponse raw = Resolved note →
  (Result.text note = [] ↔ textless raw).
Proof.
  intros Hp. unfold textless.
  destruct (regexMatch typeFlags typePattern raw) as [tm|] eqn:Et; cycle 1.
  { assert (E : parseResponse raw
                = Resolved {| Result.type := commentary; Result.text := trim raw |})
      by (unfold parseResponse; by rewrite Et).
    rewrite E in Hp. injection Hp as <-. simpl. split; [by left|].
    intros [H | [H _]]; [done|]. by apply type_pattern_none in Et. }
  destruct (regexMatch textFlags textPattern raw) as [xm|] eqn:Ex; cycle 1.
  { assert (E : parseResponse raw
                = Resolved {| Result.type := commentary; Result.text := trim raw |})
      by (unfold parseResponse; by rewrite Et, Ex).
    rewrite E in Hp. injection Hp as <-. simpl. split; [by left|].
    intros [H | [_ (pre & body & Hb & _)]]; [done|].
    apply body_pattern_none in Ex. destruct Ex. eauto. }
  pose proof Et as Et'. pose proof Ex as Ex'.
  apply type_pattern_some in Et' as (pre & kind & value & Hk & _ & -> & _).
  apply body_pattern_some in Ex' as (pre' & body & Hb & Hbmin & ->).
  rewrite (parseResponse_matched raw value body Et Ex) in Hp.
  injection Hp as <-. simpl. split.
  - intros H. right. split; [eauto|]. exists pre', body. done.
  - intros [H | [_ (p & b & Hpb & Hmin & Hblank)]].
    + by destruct (body_marker_not_blank _ _ _ Hb).
    + assert (body = b) as ->
        by (apply (first_body_marker_unique raw pre' body p b); eauto).
      done.
Qed.

Lemma parseResponse_resolves (raw : jsstring) :
  ∃ note, parseResponse raw = Resolved note
    ∧ (Result.type note = commentary ∨ Result.type note = question).
Proof.
  unfold parseResponse.
  destruct (regexMatch typeFlags typePattern raw) as [tm|] eqn:Et; [|eauto].
  destruct (regexMatch textFlags textPattern raw) as [xm|] eqn:Ex; [|eauto].
  apply regexMatch_found in Et as (pre & post & _ & Ht & _).
  apply regexMatch_found in Ex as (pre' & post' & _ & Hx & _).
  apply matchHere_type_marker in Ht as (kind & value & Hk & Hg & Hlow).
  apply matchHere_body_marker in Hx as (body & _ & ->).
  destruct Hk as (_ & _ & _ & _ & _ & _ & _ & _ & Hk).
  unfold entry1. rewrite Hg. simpl. rewrite Hlow. eauto.
Qed.

Lemma basic_client_outcome (model : Collaborator) (paragraphText : jsstring) :
  ∃ note, Basic.generateMarginNote model paragraphText = Resolved note
    ∧ (Result.type note = commentary ∨ Result.type note = question)
    ∧ (∀ raw, model 0 (Basic.prompt paragraphText) = ReturnsText raw →
         parseResponse raw = Resolved note)
    ∧ (∀ e, model 0 (Basic.prompt paragraphText) = Fails e →
         note = Basic.fallback ∧ Result.text note ≠ []).
Proof.
  unfold Basic.generateMarginNote, generateContentText.
  destruct (model 0 (Basic.prompt paragraphText)) as [raw|e]; simpl.
  - destruct (parseResponse_resolves raw) as (note & E & Hk). rewrite E. simpl.
    exists note. split_and!; [done|done|by intros ? [= <-]|done].
  - exists Basic.fallback. split_and!; [done|by left|done|done].
Qed.

(** C1, as the source has it.  For every paragraph text and every
    behaviour of the collaborator, both clients resolve, never reject, and
    the note they resolve to has the type commentary or question.  When a
    call fails, at either stage, the note is the fixed fallback, whose text
    is not empty.  When the collaborator answers, the note is the parse of
    its answer, and its text is empty in exactly two cases: the answer is
    blank, or the answer has a type marker and only white space follows its
    first body marker.  In every other case the text is not empty. *)
Theorem generateMarginNote_total (model : Collaborator) (paragraphText : jsstring) :
  (∃ note, Basic.generateMarginNote model paragraphText = Resolved note
     ∧ (Result.type note = commentary ∨ Result.type note = question)
     ∧ (∀ raw, model 0 (Basic.prompt paragraphText) = ReturnsText raw →
          parseResponse raw = Resolved note
          ∧ (Result.text note = [] ↔ textless raw))
     ∧ (∀ e, model 0 (Basic.prompt paragraphText) = Fails e →
          note = Basic.fallback ∧ Result.text note ≠ []))
  ∧ (∃ note, Adaptive.generateMarginNote model paragraphText = Resolved note
     ∧ (Result.type note = commentary ∨ Result.type note = question)
     ∧ (∀ label raw,
          model 0 (Adaptive.analysisPrompt paragraphText) = ReturnsText label →
          model 1 (Adaptive.mainPrompt (Adaptive.normalize label) paragraphText)
            = ReturnsText raw →
          parseResponse raw = Resolved note
          ∧ (Result.text note = [] ↔ textless raw))
     ∧ ((∃ e, model 0 (Adaptive.analysisPrompt paragraphText) = Fails e)
        ∨ (∃ label e,
             model 0 (Adaptive.analysisPrompt paragraphText) = ReturnsText label
             ∧ model 1 (Adaptive.mainPrompt (Adaptive.normalize label) paragraphText)
               = Fails e) →
        note = Adaptive.fallback ∧ Result.text note ≠ [])).
Proof.
  split.
  { destruct (basic_client_outcome model paragraphText) as (note & E & Hk & Hr & Hf).
    exists note. split_and!; [done|done| |done].
    intros raw Hraw. split; [by apply Hr|]. by apply parseResponse_text_empty, Hr. }
  unfold Adaptive.generateMarginNote, generateContentText.
  destruct (model 0 (Adaptive.analysisPrompt paragraphText)) as [label|e]; simpl.
  - destruct (model 1 _) as [raw|e] eqn:E2; simpl.
    + destruct (parseResponse_resolves raw) as (note & E & Hk). rewrite E. simpl.
      exists note. split_and!; [done|done| |].
      * intros ? ? [= <-]. rewrite E2. intros [= <-].
        split; [done|]. by apply parseResponse_text_empty.
      * intros [[? ?] | (? & ? & [= <-] & ?)]; congruence.
    + exists Adaptive.fallback. split_and!; [done|by left| |done].
      intros ? ? [= <-]. by rewrite E2.
  - exists Adaptive.fallback. split_and!; [done|by left|done|done].
Qed.

(** C1 on a collaborator that rejects, on one that fails at the second
    stage, and on one whose answer has nothing but white space after its
    body marker. *)
Lemma generateMarginNote_total_witness :
  Basic.generateMarginNote failingModel (str "I feel stuck today.")
  = Resolved Basic.fallback
  ∧ Adaptive.generateMarginNote halfFailingModel (str "I feel stuck today.")
    = Resolved Adaptive.fallback
  ∧ Basic.generateMarginNote (fun _ _ => ReturnsText blankBody)
      (str "I feel stuck today.")
    = Resolved {| Result.type := question; Result.text := [] |}.
Proof.
  destruct (generateMarginNote_total failingModel (str "I feel stuck today."))
    as [(note & E & _ & _ & Hf) _].
  destruct (generateMarginNote_total halfFailingModel (str "I feel stuck today."))
    as [_ (note' & E' & _ & _ & Hf')].
  destruct (generateMarginNote_total (fun _ _ => ReturnsText blankBody)
              (str "I feel stuck today."))
    as [(note'' & E'' & _ & Hr & _) _].
  split_and!.
  - rewrite E. f_equal. by apply (Hf GenerateContentRejected).
  - rewrite E'. f_equal. apply Hf'. right.
    exists (str "journaling"), TextThrew. by split.
  - rewrite E''. destruct (Hr blankBody eq_refl) as [Hp _].
    rewrite <- Hp. vm_compute. reflexivity.
Defined.

(** C1 as stated does not hold: the text can be empty.  A collaborator
    that answers with the empty string makes both clients resolve to a
    commentary note with empty text; one whose answer has only white space
    after its body marker makes them resolve to a question with empty
    text. *)
Lemma blank_output_gives_empty_text :
  Basic.generateMarginNote (fun _ _ => ReturnsText []) (str "I feel stuck today.")
  = Resolved {| Result.type := commentary; Result.text := [] |}
  ∧ Adaptive.generateMarginNote (fun _ _ => ReturnsText []) (str "I feel stuck today.")
    = Resolved {| Result.type := commentary; Result.text := [] |}
  ∧ Basic.generateMarginNote (fun _ _ => ReturnsText blankBody)
      (str "I feel stuck today.")
    = Resolved {| Result.type := question; Result.text := [] |}
  ∧ Adaptive.generateMarginNote (fun _ _ => ReturnsText blankBody)
      (str "I feel stuck today.")
    = Resolved {| Result.type := question; Result.text := [] |}.
Proof. by vm_compute. Qed.

(* ---- the classification stage ---- *)

Lemma switchBranch_label (l : Label) :
  Adaptive.switchBranch (labelName l) = templateOf l.
Proof. destruct l; by vm_compute. Qed.

Lemma switchBranch_unknown (contentType : jsstring) :
  (∀ l, contentType ≠ labelName l) → Adaptive.switchBranch contentType = Adaptive.Default.
Proof.
  intros H. unfold Adaptive.switchBranch, Adaptive.eqs.
  repeat case_bool_decide; try done; subst.
  - by destruct (H Journaling).
  - by destruct (H Brainstorming).
  - by destruct (H Technical).
  - by destruct (H Storytelling).
  - by destruct (H NoteTaking).
Qed.

Lemma mainPromptOf_distinct (b1 b2 : Adaptive.Branch) (paragraphText : jsstring) :
  Adaptive.mainPromptOf b1 paragraphText = Adaptive.mainPromptOf b2 paragraphText →
  b1 = b2.
Proof.
  intros E. apply (f_equal (take 13)) in E.
  destruct b1, b2; try done; by vm_compute in E.
Qed.

Lemma templateOf_inj (l l' : Label) : templateOf l = templateOf l' → l = l'.
Proof. by destruct l, l'. Qed.

Lemma classify_label (l : Label) : classify (labelName l) = l.
Proof. by destruct l. Qed.

Lemma classify_unknown (contentType : jsstring) :
  (∀ l, contentType ≠ labelName l) → classify contentType = Other.
Proof.
  intros H. unfold classify, labels. cbn [List.find].
  rewrite !bool_decide_false by apply H. done.
Qed.

Lemma classify_cases (contentType : jsstring) :
  contentType = labelName (classify contentType)
  ∨ (classify contentType = Other ∧ ∀ l, contentType ≠ labelName l).
Proof.
  unfold classify, labels. cbn [List.find].
  repeat case_bool_decide; try (by left).
  right. split; [done|]. by intros [].
Qed.

Lemma mainPrompt_classify (contentType paragraphText : jsstring) :
  Adaptive.mainPrompt contentType paragraphText
  = templateFor (classify contentType) paragraphText.
Proof.
  unfold templateFor, Adaptive.mainPrompt. f_equal.
  destruct (classify_cases contentType) as [E | [E H]].
  - by rewrite <- E.
  - by rewrite E, (switchBranch_unknown _ H).
Qed.

(** C7.  The content type is the collaborator's answer, trimmed and in
    lower case.  Its label is the one of the six whose name it is, and
    the label other when it is none of them.  The prompt of the second
    call is the template of that label: whatever the collaborator does, the
    client returns the parse of the answer given to that prompt, or the
    fallback when that call fails.  The six templates are the ones the
    specification describes: each has the paragraph between quotation
    marks, around it the word of its own voice and of no other, after it
    the required output shape; no two of them are equal. *)
Theorem classification_selects_the_template (raw paragraphText : jsstring) :
  let label := classify (toLowerCase (trim raw)) in
  (∀ l, toLowerCase (trim raw) = labelName l → label = l)
  ∧ ((∀ l, toLowerCase (trim raw) ≠ labelName l) → label = Other)
  ∧ (∀ model,
       model 0 (Adaptive.analysisPrompt paragraphText) = ReturnsText raw →
       Adaptive.generateMarginNote model paragraphText
       = match model 1 (templateFor label paragraphText) with
         | ReturnsText answer => parseResponse answer
         | Fails e => Resolved Adaptive.fallback
         end)
  ∧ (∀ l, ∃ before after,
       (∀ p, templateFor l p = before ++ [DQUOTE] ++ p ++ [DQUOTE] ++ after)
       ∧ includes (voice l) (before ++ after) = true
       ∧ (∀ l', l' ≠ l → includes (voice l') (before ++ after) = false)
       ∧ includes outputShape after = true)
  ∧ (∀ l l' p, templateFor l p = templateFor l' p → l = l').
Proof.
  intros label. subst label. split_and!.
  - intros l ->. apply classify_label.
  - apply classify_unknown.
  - intros model E.
    unfold Adaptive.generateMarginNote, generateContentText. rewrite E.
    cbn [bind]. change (Adaptive.normalize raw) with (toLowerCase (trim raw)).
    rewrite mainPrompt_classify.
    destruct (model 1 _) as [answer|e]; cbn [bind tryCatch]; [|done].
    by destruct (parseResponse_resolves answer) as (note & -> & _).
  - intros l. destruct l; eexists _, _; (split_and!;
      [ intros p; unfold templateFor, Adaptive.mainPrompt;
        rewrite switchBranch_label; cbn [templateOf Adaptive.mainPromptOf];
        unfold promptTemplate; rewrite app_assoc; reflexivity
      | vm_compute; reflexivity
      | intros l' Hne; destruct l'; try done; vm_compute; reflexivity
      | vm_compute; reflexivity ]).
  - intros l l' p E. unfold templateFor, Adaptive.mainPrompt in E.
    rewrite !switchBranch_label in E.
    by apply templateOf_inj, (mainPromptOf_distinct _ _ p).
Qed.

(** C7 on an answer outside the labels, given to a collaborator that
    answers the fallback template only, and on a label written with
    capitals and surrounding white space. *)
Lemma classification_selects_the_template_witness :
  Adaptive.generateMarginNote poetryModel (str "I feel stuck today.")
  = Resolved {| Result.type := question;
                Result.text :=
                  str "What does 'stuck' feel like in your body right now?" |}
  ∧ classify (toLowerCase (trim (str " Note-Taking
"))) = NoteTaking.
Proof.
  split.
  - rewrite (proj1 (proj2 (proj2 (classification_selects_the_template
                                    (str "poetry") (str "I feel stuck today."))))
               poetryModel eq_refl).
    vm_compute. reflexivity.
  - apply (proj1 (classification_selects_the_template (str " Note-Taking
") [])).
    vm_compute. reflexivity.
Defined.

(* ---- the handler ---- *)

Lemma handler_cases (marginNotes : gmap nat Note) (i : nat) (t : jsstring) :
  (generateMarginNoteForParagraph marginNotes i t = Skipped
   ∧ (length (trim t) < 10 ∨ is_Some (marginNotes !! i)))
  ∨ (generateMarginNoteForParagraph marginNotes i t
     = Fired (showLoading i) {| paragraphIndex := i; paragraphText := t |}
     ∧ 10 ≤ length (trim t) ∧ marginNotes !! i = None).
Proof.
  unfold generateMarginNoteForParagraph.
  destruct (length (trim t) <? 10) eqn:Hlen.
  { apply Nat.ltb_lt in Hlen. left. auto. }
  apply Nat.ltb_ge in Hlen. case_bool_decide as Hs.
  - left. auto.
  - right. split_and!; [done|done|]. by apply eq_None_not_Some.
Qed.

(* ---- the trigger ---- *)

Lemma paragraphs_truthy (content p : jsstring) (i : nat) :
  paragraphs content !! i = Some p → truthy p = true.
Proof.
  intros H. apply list_elem_of_lookup_2, list_elem_of_In in H.
  apply filter_In in H as [_ H]. unfold nonBlank in H.
  destruct p; [done|done].
Qed.

Lemma step_content (st : AppState) (newText : jsstring) :
  let ps := paragraphs newText in
  let '(st', issued) := step st (ContentChanged newText) in
  content st' = newText
  ∧ prevParagraphCount st' = length ps
  ∧ ((issued = [] ∧ marginNotes st' = marginNotes st ∧ inFlight st' = inFlight st
      ∧ ∀ req, ¬ due st newText req)
     ∨ (∃ req, issued = [req] ∧ due st newText req
        ∧ marginNotes st' = showLoading (paragraphIndex req) (marginNotes st)
        ∧ inFlight st' = inFlight st ++ [req])).
Proof.
  cbv zeta. unfold step.
  assert (Hdue : ∀ req, due st newText req ↔
            prevParagraphCount st < length (paragraphs newText)
            ∧ 2 ≤ length (paragraphs newText)
            ∧ paragraphIndex req = length (paragraphs newText) - 2
            ∧ paragraphs newText !! (length (paragraphs newText) - 2)
              = Some (paragraphText req)
            ∧ 10 ≤ length (trim (paragraphText req))
            ∧ marginNotes st !! (length (paragraphs newText) - 2) = None) by done.
  pose proof (paragraphs_truthy newText) as Htruthy.
  remember (paragraphs newText) as ps eqn:Eps. clear Eps.
  destruct (length ps =? prevParagraphCount st) eqn:Hsame.
  { apply Nat.eqb_eq in Hsame. simpl. split_and!; [done|done|]. left.
    split_and!; try done. intros req (H & _)%Hdue. lia. }
  unfold triggerEffect.
  destruct (prevParagraphCount st <? length ps) eqn:Hgrow; cycle 1.
  { apply Nat.ltb_ge in Hgrow. simpl. split_and!; [done|done|]. left.
    split_and!; try done. intros req (H & _)%Hdue. lia. }
  apply Nat.ltb_lt in Hgrow.
  destruct (0 <=? Z.of_nat (length ps) - 2)%Z eqn:Htwo; cycle 1.
  { apply Z.leb_gt in Htwo. simpl. split_and!; [done|done|]. left.
    split_and!; try done. intros req (_ & H & _)%Hdue. lia. }
  apply Z.leb_le in Htwo.
  replace (Z.to_nat (Z.of_nat (length ps) - 2)) with (length ps - 2) by lia.
  destruct (ps !! (length ps - 2)) as [p|] eqn:Hp; cycle 1.
  { apply lookup_ge_None in Hp. lia. }
  rewrite (Htruthy p _ Hp).
  destruct (handler_cases (marginNotes st) (length ps - 2) p)
    as [[-> H] | (-> & Hlen & Hnone)]; simpl.
  - split_and!; [done|done|]. left. split_and!; try done.
    intros req (_ & _ & _ & Hreq & Hl & Hn)%Hdue.
    injection Hreq as ->. destruct H as [H | H]; [lia|].
    rewrite Hn in H. by destruct H.
  - split_and!; [done|done|]. right. eexists. split_and!; try done.
    apply Hdue. simpl. split_and!; try done. lia.
Qed.

(** Case analysis on what an observation did, by [step_content]. *)
Ltac observe st newText Hs :=
  let st1 := fresh "st1" in
  let issued := fresh "issued" in
  pose proof (step_content st newText) as Hs; cbv zeta in Hs;
  destruct (step st (ContentChanged newText)) as [st1 issued].


Lemma due_unique (st : AppState) (newText : jsstring) (r1 r2 : Request) :
  due st newText r1 → due st newText r2 → r1 = r2.
Proof.
  intros (_ & _ & Hi1 & Ht1 & _) (_ & _ & Hi2 & Ht2 & _).
  destruct r1, r2. simpl in *. congruence.
Qed.

Lemma run_cons (st : AppState) (ev : Event) (evs : list Event) :
  run st (ev :: evs)
  = (fst (run (fst (step st ev)) evs),
     snd (step st ev) ++ snd (run (fst (step st ev)) evs)).
Proof.
  cbn [run]. destruct (step st ev) as [st1 issued1]. cbn [fst snd].
  by destruct (run st1 evs).
Qed.

Lemma step_observed (st : AppState) (ev : Event) :
  prevParagraphCount st = length (paragraphs (content st)) →
  prevParagraphCount (fst (step st ev))
  = length (paragraphs (content (fst (step st ev)))).
Proof.
  intros H. destruct ev as [newText | n model].
  - observe st newText Hs.
    destruct Hs as (Hc & Hp & _). cbn [fst]. by rewrite Hc, Hp.
  - cbn [step]. by destruct (inFlight st !! n).
Qed.

Lemma run_observed (evs : list Event) (st : AppState) :
  prevParagraphCount st = length (paragraphs (content st)) →
  prevParagraphCount (fst (run st evs))
  = length (paragraphs (content (fst (run st evs)))).
Proof.
  revert st. induction evs as [|ev evs IH]; intros st H; [done|].
  rewrite run_cons. cbn [fst]. by apply IH, step_observed.
Qed.

(** C4, as the source has it.  In every state the component reaches,
    [prevParagraphCount] is the paragraph count of the text observed last.
    An observation of a new text then issues at most one request.  It
    issues the request [req] exactly when the paragraph count has grown
    since the previous observation, there are at least two paragraphs,
    [req] is for the second-to-last paragraph, at index count - 2, and that
    paragraph passes the two gates.  Nothing is issued when the count is
    the same or smaller. *)
Theorem trigger_on_count_increase (notes : gmap nat Note) (evs : list Event)
    (newText : jsstring) :
  let st := fst (run (mounted notes) evs) in
  let count := length (paragraphs newText) in
  let issued := snd (step st (ContentChanged newText)) in
  prevParagraphCount st = length (paragraphs (content st))
  ∧ (issued = [] ∨ ∃ req, issued = [req])
  ∧ (∀ req, issued = [req] ↔ due st newText req)
  ∧ (count ≤ prevParagraphCount st → issued = []).
Proof.
  intros st count issued. subst count issued.
  split; [by apply run_observed|]. generalize st. clear st. intros st.
  pose proof (step_content st newText) as H. cbv zeta in H.
  destruct (step st (ContentChanged newText)) as [st' issued].
  destruct H as (_ & Hcount & [(-> & _ & _ & Hnone) | (req & -> & Hdue & _)]); simpl.
  - split_and!; [by left| |done]. intros req. split; [done|].
    intros H. by destruct (Hnone req).
  - split_and!; [right; eauto| |].
    + intros req'. split; [by intros [= <-]|].
      intros H. f_equal. by apply (due_unique st newText).
    + destruct Hdue as (H & _). lia.
Qed.

(** C4 on the document of the scenario: the second paragraph makes the
    first one due. *)
Lemma trigger_on_count_increase_witness :
  snd (step (mounted ∅) (ContentChanged stuckDocument))
  = [{| paragraphIndex := 0; paragraphText := str "I feel stuck today." |}].
Proof.
  apply (proj1 (proj2 (proj2 (trigger_on_count_increase ∅ [] stuckDocument)))).
  unfold due. split_and!; try reflexivity; vm_compute; lia.
Defined.

(** C4 as stated does not hold: the count can grow without a request.
    The first paragraph of an empty document raises the count from 0 to 1
    and nothing is issued, there being no paragraph at index -1. *)
Lemma first_paragraph_issues_nothing :
  prevParagraphCount (mounted ∅)
    < length (paragraphs (str "I feel stuck today, and the day is long."))
  ∧ snd (step (mounted ∅)
           (ContentChanged (str "I feel stuck today, and the day is long.")))
    = [].
Proof. split; [vm_compute; lia|by vm_compute]. Qed.

(* ---- the length gate ---- *)

(** C8.  A paragraph whose trimmed text is shorter than 10 code units
    never fires a request.  One whose trimmed text has at least 10 passes
    the length gate: it fires exactly when the store has no entry for its
    index.  Every request an event issues is for a text of at least 10
    code units after trimming. *)
Theorem length_gate (marginNotes : gmap nat Note) (i : nat) (t : jsstring) :
  (length (trim t) < 10 →
     generateMarginNoteForParagraph marginNotes i t
     = Skipped)
  ∧ (10 ≤ length (trim t) →
     marginNotes !! i = None →
     generateMarginNoteForParagraph marginNotes i t
     = Fired (showLoading i)
         {| paragraphIndex := i; paragraphText := t |})
  ∧ (10 ≤ length (trim t) →
     is_Some (marginNotes !! i) →
     generateMarginNoteForParagraph marginNotes i t
     = Skipped)
  ∧ (∀ st ev req, req ∈ snd (step st ev) →
       10 ≤ length (trim (paragraphText req))).
Proof.
  assert (Hstep : ∀ st ev req, req ∈ snd (step st ev) →
            10 ≤ length (trim (paragraphText req))).
  { intros st [newText | n model] req.
    - observe st newText Hs. simpl.
      destruct Hs as (_ & _ & [(-> & _) | (r & -> & Hdue & _)]).
      + by intros ?%elem_of_nil.
      + intros ->%list_elem_of_singleton. by destruct Hdue as (_ & _ & _ & _ & ? & _).
    - cbn [step]. destruct (inFlight st !! n); simpl; by intros ?%elem_of_nil. }
  destruct (handler_cases marginNotes i t)
    as [[-> H] | (-> & Hlen & Hnone)].
  - split_and!; [done| |done|done]. intros Hlen Hnone. destruct H as [H | H]; [lia|].
    rewrite Hnone in H. by destruct H.
  - split_and!; [lia|done| |done]. intros _ H. rewrite Hnone in H. by destruct H.
Qed.

(** C8 at the boundary: nine characters are skipped, ten fire. *)
Lemma length_gate_witness :
  length (trim (str " aaaaaaaaa ")) = 9
  ∧ generateMarginNoteForParagraph ∅ 0 (str " aaaaaaaaa ") = Skipped
  ∧ length (trim (str "aaaaaaaaaa")) = 10
  ∧ generateMarginNoteForParagraph ∅ 0 (str "aaaaaaaaaa")
    = Fired (showLoading 0)
        {| paragraphIndex := 0; paragraphText := str "aaaaaaaaaa" |}.
Proof.
  split_and!.
  - reflexivity.
  - apply (proj1 (length_gate ∅ 0 (str " aaaaaaaaa "))). vm_compute. lia.
  - reflexivity.
  - apply (proj1 (proj2 (length_gate ∅ 0 (str "aaaaaaaaaa")))).
    + vm_compute. lia.
    + reflexivity.
Defined.

(* ---- the requests issued over a run ---- *)

Lemma showLoading_keeps (i j : nat) (m : gmap nat Note) :
  is_Some (m !! j) → is_Some (showLoading i m !! j).
Proof.
  unfold showLoading. intros H. destruct (decide (i = j)) as [->|Hne].
  - by rewrite lookup_insert_eq.
  - by rewrite lookup_insert_ne.
Qed.

Lemma step_keeps_entries (st : AppState) (ev : Event) (j : nat) :
  is_Some (marginNotes st !! j) →
  is_Some (marginNotes (fst (step st ev)) !! j).
Proof.
  intros H. destruct ev as [newText | n model].
  - observe st newText Hs. simpl.
    destruct Hs as (_ & _ & [(_ & -> & _) | (req & _ & _ & -> & _)]); [done|].
    by apply showLoading_keeps.
  - simpl. destruct (inFlight st !! n) as [req|]; [|done]. simpl.
    destruct (basic_client_outcome model (paragraphText req)) as (note & -> & _).
    simpl. unfold updateWithNote.
    destruct (decide (paragraphIndex req = j)) as [->|Hne].
    + by rewrite lookup_insert_eq.
    + by rewrite lookup_insert_ne.
Qed.

Lemma step_issues (st : AppState) (ev : Event) :
  (snd (step st ev) = [] ∨ ∃ req, snd (step st ev) = [req])
  ∧ ∀ r, r ∈ snd (step st ev) →
      marginNotes st !! paragraphIndex r = None
      ∧ is_Some (marginNotes (fst (step st ev)) !! paragraphIndex r).
Proof.
  destruct ev as [newText | n model].
  - observe st newText Hs. simpl.
    destruct Hs as (_ & _ & [(-> & _) | (req & -> & Hdue & -> & _)]).
    + split; [by left|]. intros r Hr. by apply elem_of_nil in Hr.
    + split; [right; eauto|]. intros r Hr.
      apply list_elem_of_singleton in Hr as ->.
      destruct Hdue as (_ & _ & -> & _ & _ & Hnone). split; [done|].
      unfold showLoading. by rewrite lookup_insert_eq.
  - simpl. destruct (inFlight st !! n) as [req|]; simpl;
      (split; [by left|]; intros r Hr; by apply elem_of_nil in Hr).
Qed.

Lemma indices_app (a b : list Request) : indices (a ++ b) = indices a ++ indices b.
Proof. apply map_app. Qed.

Lemma indices_delete (n : nat) (rs : list Request) :
  indices (delete n rs) = delete n (indices rs).
Proof.
  revert n. induction rs as [|r rs IH]; intros [|n]; simpl; try done.
  f_equal. apply IH.
Qed.

Lemma NoDup_delete {A} (n : nat) (l : list A) : NoDup l → NoDup (delete n l).
Proof.
  intros H. eapply sublist_NoDup; [done|]. apply sublist_delete.
Qed.

Lemma elem_of_delete {A} (n : nat) (l : list A) (x : A) :
  x ∈ delete n l → x ∈ l.
Proof. intros H. eapply elem_of_sublist; [done|apply sublist_delete]. Qed.

Lemma step_tracked (st : AppState) (ev : Event) :
  tracked st → tracked (fst (step st ev)).
Proof.
  intros [Hnd Hin]. destruct ev as [newText | n model].
  - observe st newText Hs. simpl.
    destruct Hs as (_ & _ & [(_ & Em & Ei & _) | (req & _ & Hdue & Em & Ei)]).
    + unfold tracked. by rewrite Em, Ei.
    + unfold tracked. rewrite Em, Ei, indices_app. split.
      * apply NoDup_app. split_and!; [done| |apply NoDup_singleton].
        intros i Hi ->%list_elem_of_singleton.
        apply list_elem_of_fmap in Hi as (r & Hr & Hr2).
        apply Hin in Hr2. destruct Hdue as (_ & _ & E & _ & _ & Hnone).
        rewrite <- Hr, E, Hnone in Hr2. by destruct Hr2.
      * intros r [Hr | ->%list_elem_of_singleton]%elem_of_app.
        -- by apply showLoading_keeps, Hin.
        -- unfold showLoading. by rewrite lookup_insert_eq.
  - cbn [step]. destruct (inFlight st !! n) as [req|] eqn:Hn; [|done].
    unfold tracked. cbn [fst inFlight marginNotes]. split.
    + rewrite indices_delete. by apply NoDup_delete.
    + intros r Hr.
      destruct (basic_client_outcome model (paragraphText req)) as (note & -> & _).
      simpl. unfold updateWithNote.
      destruct (decide (paragraphIndex req = paragraphIndex r)) as [->|Hne].
      * by rewrite lookup_insert_eq.
      * rewrite lookup_insert_ne by done. by apply Hin, (elem_of_delete n).
Qed.

Lemma run_issues (evs : list Event) (st : AppState) :
  tracked st →
  tracked (fst (run st evs))
  ∧ NoDup (indices (snd (run st evs)))
  ∧ (∀ r, r ∈ snd (run st evs) → marginNotes st !! paragraphIndex r = None)
  ∧ (∀ j, is_Some (marginNotes st !! j) →
          is_Some (marginNotes (fst (run st evs)) !! j)).
Proof.
  revert st. induction evs as [|ev evs IH]; intros st Htr.
  - simpl. split_and!; [done|apply NoDup_nil_2| |done].
    intros r Hr. by apply elem_of_nil in Hr.
  - rewrite run_cons. cbn [fst snd].
    destruct (IH _ (step_tracked st ev Htr)) as (Htr' & Hnd & Habs & Hmono).
    destruct (step_issues st ev) as [Hone Hnew].
    split_and!.
    + done.
    + rewrite indices_app. apply NoDup_app. split_and!; [|  |done].
      * destruct Hone as [-> | [req ->]]; [apply NoDup_nil_2|apply NoDup_singleton].
      * intros i (r1 & E1 & Hr1)%list_elem_of_fmap (r2 & E2 & Hr2)%list_elem_of_fmap.
        apply Hnew in Hr1 as [_ Hsome]. apply Habs in Hr2.
        rewrite <- E1, E2, Hr2 in Hsome. by destruct Hsome.
    + intros r [Hr | Hr]%elem_of_app; [by apply Hnew|].
      apply Habs in Hr. apply eq_None_not_Some. intros Hs.
      apply (step_keeps_entries st ev) in Hs. rewrite Hr in Hs. by destruct Hs.
    + intros j Hj. by apply Hmono, step_keeps_entries.
Qed.

Lemma mounted_tracked (notes : gmap nat Note) : tracked (mounted notes).
Proof.
  split; [apply NoDup_nil_2|]. intros r Hr. by apply elem_of_nil in Hr.
Qed.

(** C3.  After any sequence of events on the mounted component, the
    requests in flight are for distinct indices, the requests issued so far
    are for distinct indices, none of them was for an index that had an
    entry at the start, and the next event issues at most one request,
    only for an index without an entry. *)
Theorem one_request_per_index (notes : gmap nat Note) (evs : list Event) :
  let st := fst (run (mounted notes) evs) in
  let issued := snd (run (mounted notes) evs) in
  NoDup (indices (inFlight st))
  ∧ NoDup (indices issued)
  ∧ (∀ r, r ∈ issued → notes !! paragraphIndex r = None)
  ∧ (∀ ev r, r ∈ snd (step st ev) →
       marginNotes st !! paragraphIndex r = None)
  ∧ (∀ ev, length (snd (step st ev)) ≤ 1).
Proof.
  intros st issued. subst st issued.
  destruct (run_issues evs _ (mounted_tracked notes)) as ([Hnd _] & Hlog & Habs & _).
  split_and!; [done|done|done| |].
  - intros ev r Hr. by apply (step_issues _ ev).
  - intros ev. destruct (step_issues (fst (run (mounted notes) evs)) ev)
      as [[-> | [req ->]] _]; simpl; lia.
Qed.




(* ---- the lifecycle of a note ---- *)



(* ---- loading at startup ---- *)




(* ---- positions ---- *)

Lemma forEachPara_keys (m : Layout) (l : list jsstring) :
  ∀ (k : nat) (positions : gmap nat Z) (y : Z) (i : nat),
    is_Some (fst (forEachPara m l k positions y) !! i)
    ↔ is_Some (positions !! i)
      ∨ ∃ j e, i = k + j ∧ l !! j = Some e ∧ nonBlank e = true.
Proof.
  induction l as [|para rest IH]; intros k positions y i; cbn [forEachPara fst].
  - split; [by left|]. intros [H | (j & e & _ & H & _)]; done.
  - destruct (isEmpty (trim para)) eqn:Hb.
    + rewrite IH. split.
      * intros [H | (j & e & -> & Hj & He)]; [by left|right].
        exists (S j), e. split_and!; [lia|done|done].
      * intros [H | (j & e & -> & Hj & He)]; [by left|right].
        destruct j as [|j]; simpl in Hj.
        { injection Hj as ->. unfold nonBlank in He. by rewrite Hb in He. }
        exists j, e. split_and!; [lia|done|done].
    + rewrite IH. split.
      * intros [H | (j & e & -> & Hj & He)].
        -- destruct (decide (k = i)) as [->|Hne].
           ++ right. exists 0, para. split_and!; [lia|done|].
              unfold nonBlank. by rewrite Hb.
           ++ left. by rewrite lookup_insert_ne in H.
        -- right. exists (S j), e. split_and!; [lia|done|done].
      * intros [H | (j & e & -> & Hj & He)].
        -- left. destruct (decide (k = i)) as [->|Hne].
           ++ by rewrite lookup_insert_eq.
           ++ by rewrite lookup_insert_ne.
        -- destruct j as [|j]; simpl in Hj.
           ++ left. rewrite Nat.add_0_r. by rewrite lookup_insert_eq.
           ++ right. exists j, e. split_and!; [lia|done|done].
Qed.

(** The keys of the position map are the places of the non-blank entries
    in the split text, blank entries counted. *)
Lemma positions_keys (m : Layout) (content : jsstring) (positions : gmap nat Z)
    (i : nat) :
  calculateParagraphPositions (Some m) content = Some positions →
  is_Some (positions !! i)
  ↔ ∃ e, split blankLine content !! i = Some e ∧ nonBlank e = true.
Proof.
  intros [= <-]. rewrite forEachPara_keys. split.
  - intros [H | (j & e & -> & Hj & He)]; [by destruct H|]. by exists e.
  - intros (e & Hi & He). right. by exists i, e.
Qed.

Lemma forEachPara_nonnegative (m : Layout) (l : list jsstring) :
  (0 ≤ lineHeight m)%Z → (∀ p, 0 ≤ offsetHeight m p)%Z →
  ∀ (k : nat) (positions : gmap nat Z) (y : Z),
    (0 ≤ y)%Z → (∀ i v, positions !! i = Some v → (0 ≤ v)%Z) →
    ∀ i v, fst (forEachPara m l k positions y) !! i = Some v → (0 ≤ v)%Z.
Proof.
  intros Hl Hh. induction l as [|para rest IH]; intros k positions y Hy Hpos;
    cbn [forEachPara fst]; [done|].
  destruct (isEmpty (trim para)); [by apply IH|].
  apply IH; [specialize (Hh para); lia|].
  intros i v. destruct (decide (k = i)) as [->|Hne].
  - rewrite lookup_insert_eq. by intros [= <-].
  - rewrite lookup_insert_ne by done. apply Hpos.
Qed.

Lemma positions_nonnegative (m : Layout) (content : jsstring)
    (positions : gmap nat Z) :
  (0 ≤ paddingTop m)%Z → (0 ≤ lineHeight m)%Z → (∀ p, 0 ≤ offsetHeight m p)%Z →
  calculateParagraphPositions (Some m) content = Some positions →
  ∀ i v, positions !! i = Some v → (0 ≤ v)%Z.
Proof.
  intros Hp Hl Hh [= <-]. by apply forEachPara_nonnegative.
Qed.

(** C10 fails on a document with an empty entry between two paragraphs:
    the paragraphs have the indices 0 and 1, the position map has the keys
    0 and 2. *)
Theorem positions_skip_an_index (m : Layout) :
  paragraphs gapped = [str "first paragraph"; str "second paragraph"]
  ∧ ∃ positions,
      calculateParagraphPositions (Some m) gapped = Some positions
      ∧ positions !! 0 = Some (paddingTop m)
      ∧ positions !! 1 = None
      ∧ is_Some (positions !! 2).
Proof.
  split; [by vm_compute|].
  eexists. split; [done|]. 
  change (split blankLine gapped)
    with [str "first paragraph"; []; str "second paragraph"].
  cbn [forEachPara fst].
  change (isEmpty (trim (str "first paragraph"))) with false.
  change (isEmpty (trim [])) with true.
  change (isEmpty (trim (str "second paragraph"))) with false.
  cbn [fst forEachPara]. split_and!.
  - rewrite lookup_insert_ne by done. by rewrite lookup_insert_eq.
  - by rewrite !lookup_insert_ne.
  - by rewrite lookup_insert_eq.
Qed.

(* ---- the scenario of the specification ---- *)

(** The scenario of the specification, end to end. *)
Lemma stuck_scenario :
  let '(st, issued) :=
    run (mounted ∅)
      [ContentChanged stuckDocument;
       Settled 0 (fun _ _ => ReturnsText stuckAnswer)] in
  issued = [{| paragraphIndex := 0; paragraphText := str "I feel stuck today." |}]
  ∧ inFlight st = []
  ∧ marginNotes st !! 0
    = Some (settledNote
              {| Result.type := question;
                 Result.text := str "What does 'stuck' feel like in your body right now?" |})
  ∧ marginNotes st !! 1 = None.
Proof. by vm_compute. Qed.

(* ---- the closed form of the positions ---- *)

Lemma heightOf_app (m : Layout) (a b : list jsstring) :
  heightOf m (a ++ b) = (heightOf m a + heightOf m b)%Z.
Proof. induction a as [|e a IH]; simpl; [done|]. rewrite IH. lia. Qed.

Lemma heightOf_nonnegative (m : Layout) (l : list jsstring) :
  (0 ≤ lineHeight m)%Z → (∀ p, 0 ≤ offsetHeight m p)%Z → (0 ≤ heightOf m l)%Z.
Proof.
  intros Hl Hh. induction l as [|e l IH]; simpl; [done|].
  specialize (Hh e). destruct (nonBlank e); lia.
Qed.

Lemma forEachPara_lookup (m : Layout) (l : list jsstring) :
  ∀ (k : nat) (positions : gmap nat Z) (y : Z) (i : nat),
    fst (forEachPara m l k positions y) !! i
    = if decide (k ≤ i) then
        match l !! (i - k) with
        | Some e =>
            if nonBlank e then Some (y + heightOf m (take (i - k) l))%Z
            else positions !! i
        | None => positions !! i
        end
      else positions !! i.
Proof.
  induction l as [|para rest IH]; intros k positions y i; cbn [forEachPara fst].
  - by destruct (decide (k ≤ i)).
  - destruct (isEmpty (trim para)) eqn:Hb; rewrite IH.
    + assert (Hnb : nonBlank para = false) by (unfold nonBlank; by rewrite Hb).
      destruct (decide (S k ≤ i)) as [Hi|Hi].
      * rewrite decide_True by lia.
        replace (i - k) with (S (i - S k)) by lia.
        cbn [lookup list_lookup take heightOf]. rewrite Hnb.
        by rewrite Z.add_0_l.
      * destruct (decide (k ≤ i)) as [Hk|Hk]; [|done].
        replace (i - k) with 0 by lia. cbn [lookup list_lookup].
        by rewrite Hnb.
    + assert (Hnb : nonBlank para = true) by (unfold nonBlank; by rewrite Hb).
      destruct (decide (S k ≤ i)) as [Hi|Hi].
      * rewrite decide_True by lia.
        replace (i - k) with (S (i - S k)) by lia.
        cbn [lookup list_lookup take heightOf]. rewrite Hnb.
        rewrite lookup_insert_ne by lia.
        destruct (rest !! (i - S k)) as [e|]; [|done].
        destruct (nonBlank e); [|done]. f_equal. lia.
      * destruct (decide (k ≤ i)) as [Hk|Hk].
        -- assert (i = k) as -> by lia. rewrite Nat.sub_diag.
           cbn [lookup list_lookup take heightOf].
           rewrite Hnb, lookup_insert_eq. f_equal. lia.
        -- rewrite lookup_insert_ne by lia. done.
Qed.

Lemma positions_lookup (m : Layout) (content : jsstring)
    (positions : gmap nat Z) (i : nat) :
  calculateParagraphPositions (Some m) content = Some positions →
  positions !! i
  = match split blankLine content !! i with
    | Some e =>
        if nonBlank e
        then Some (paddingTop m
                   + heightOf m (take i (split blankLine content)))%Z
        else None
    | None => None
    end.
Proof.
  intros [= <-]. rewrite forEachPara_lookup.
  rewrite decide_True by lia. rewrite Nat.sub_0_r, lookup_empty.
  by destruct (split blankLine content !! i).
Qed.

(** X1.  With the editor mounted, [calculateParagraphPositions] stores an
    offset exactly for the entries of [content.split('\n\n')] that are not
    blank, under the index of the entry in that split; the offset is the
    top padding plus, for every non-blank entry before it, the measured
    height of that entry and two line heights. *)
Theorem positions_by_formula (m : Layout) (content : jsstring) :
  ∃ positions,
    calculateParagraphPositions (Some m) content = Some positions
    ∧ ∀ i, positions !! i
           = match split blankLine content !! i with
             | Some e =>
                 if nonBlank e
                 then Some (paddingTop m
                            + heightOf m (take i (split blankLine content)))%Z
                 else None
             | None => None
             end.
Proof.
  eexists. split; [reflexivity|]. intros i. by apply positions_lookup.
Qed.

Lemma filter_prefix {A} (f : A → bool) (l : list A) :
  List.filter f l = take (length (List.filter f l)) l
  ↔ Forall (fun e => f e = true) (take (length (List.filter f l)) l).
Proof.
  split.
  - intros E. rewrite <- E. apply Forall_forall. intros e He.
    apply list_elem_of_In, filter_In in He. tauto.
  - induction l as [|a l IH]; simpl; [done|].
    destruct (f a) eqn:Ha; simpl.
    + intros H. apply Forall_cons in H as [_ H]. f_equal. by apply IH.
    + intros H. destruct (List.filter f l) as [|b k] eqn:E; [done|].
      simpl in H. apply Forall_cons in H as [H _]. congruence.
Qed.

Lemma filter_after_prefix {A} (f : A → bool) (l : list A) (j : nat) (e : A) :
  List.filter f l = take (length (List.filter f l)) l →
  l !! j = Some e → f e = true → j < length (List.filter f l).
Proof.
  revert j. induction l as [|a l IH]; intros j; simpl; [done|].
  destruct (f a) eqn:Ha; simpl.
  - intros [= E]. destruct j as [|j]; simpl; [lia|].
    intros Hj He. apply (IH j E) in Hj; [lia|done].
  - intros E. destruct (List.filter f l) as [|b k] eqn:El.
    + intros Hj He. destruct j as [|j]; simpl in Hj; [congruence|].
      apply list_elem_of_lookup_2, list_elem_of_In in Hj.
      assert (In e (List.filter f l)) as Hin by (apply filter_In; tauto).
      rewrite El in Hin. done.
    + simpl in E. injection E as -> _.
      assert (In a (List.filter f l)) as Hin by (rewrite El; by left).
      apply filter_In in Hin. destruct Hin. congruence.
Qed.

(** X2.  Where the line height and the measured heights are not negative,
    the stored offsets grow with the index: no offset lies above the top
    padding, and a later paragraph starts at least the height of an
    earlier one and two line heights below it. *)
Theorem positions_grow (m : Layout) (content : jsstring)
    (positions : gmap nat Z) (i j : nat) (e : jsstring) (yi yj : Z) :
  (0 ≤ lineHeight m)%Z → (∀ p, 0 ≤ offsetHeight m p)%Z →
  calculateParagraphPositions (Some m) content = Some positions →
  split blankLine content !! i = Some e →
  positions !! i = Some yi → positions !! j = Some yj → i < j →
  (paddingTop m ≤ yi ∧ yi + offsetHeight m e + lineHeight m * 2 ≤ yj)%Z.
Proof.
  intros Hl Hh Hc He Hi Hj Hij.
  pose proof (positions_lookup m content positions i Hc) as F1.
  pose proof (positions_lookup m content positions j Hc) as F2.
  rewrite Hi, He in F1. rewrite Hj in F2.
  destruct (nonBlank e) eqn:Hnb; [|done]. injection F1 as ->.
  destruct (split blankLine content !! j) as [e'|] eqn:Hej; [|done].
  destruct (nonBlank e'); [|done]. injection F2 as ->.
  pose proof (heightOf_nonnegative m (take i (split blankLine content)) Hl Hh).
  split; [lia|].
  rewrite <- (take_drop i (take j (split blankLine content))).
  rewrite take_take, Nat.min_l by lia. rewrite heightOf_app.
  rewrite skipn_firstn_comm.
  assert (Hd : ∃ rest, take (j - i) (drop i (split blankLine content)) = e :: rest).
  { rewrite (drop_S _ e i He). replace (j - i) with (S (j - S i)) by lia.
    simpl. eauto. }
  destruct Hd as (rest & ->). simpl. rewrite Hnb.
  pose proof (heightOf_nonnegative m rest Hl Hh). lia.
Qed.

(** X3.  The keys of the position map are the indices of the paragraphs
    exactly when the paragraphs are the first entries of the split, that
    is, when no blank entry comes before a paragraph. *)
Theorem positions_keyed_by_paragraphs (m : Layout) (content : jsstring)
    (positions : gmap nat Z) :
  calculateParagraphPositions (Some m) content = Some positions →
  (∀ i, is_Some (positions !! i) ↔ i < length (paragraphs content))
  ↔ paragraphs content
    = take (length (paragraphs content)) (split blankLine content).
Proof.
  intros Hc.
  assert (F : ∀ i, positions !! i
            = match split blankLine content !! i with
              | Some e =>
                  if nonBlank e
                  then Some (paddingTop m
                             + heightOf m (take i (split blankLine content)))%Z
                  else None
              | None => None
              end).
  { intros i. by apply positions_lookup. }
  unfold paragraphs. split.
  - intros H. apply filter_prefix, Forall_lookup. intros i e Hi.
    apply lookup_take_Some in Hi as [Hi Hlt].
    apply H in Hlt. rewrite F, Hi in Hlt.
    destruct (nonBlank e); [done|by destruct Hlt].
  - intros E i. rewrite F. split.
    + intros Hs. destruct (split blankLine content !! i) as [e|] eqn:Hi;
        [|by destruct Hs].
      destruct (nonBlank e) eqn:He; [|by destruct Hs].
      by apply (filter_after_prefix nonBlank _ i e).
    + intros Hlt. apply lookup_lt_is_Some in Hlt as [p Hp].
      pose proof Hp as Hin. apply list_elem_of_lookup_2, list_elem_of_In in Hin.
      apply filter_In in Hin as [_ Hnb].
      rewrite E, lookup_take_Some in Hp. destruct Hp as [-> _]. by rewrite Hnb.
Qed.

Lemma drawMargins_slot (ps : list jsstring) (notes : gmap nat Note)
    (positions : gmap nat Measured.number) (slots : list (option Drawn))
    (i : nat) :
  drawMargins ps notes positions = Some slots →
  slots !! i = if decide (i < length ps) then Some (drawNote notes positions i)
               else None.
Proof.
  unfold drawMargins. destruct (length ps =? 0); [done|]. intros [= <-].
  rewrite list_lookup_imap. destruct (decide (i < length ps)) as [H|H].
  - apply lookup_lt_is_Some in H as [p ->]. done.
  - rewrite lookup_ge_None_2 by lia. done.
Qed.

(** With a line height that is a number, the calculation with [NaN] in it
    is the calculation on whole numbers. *)
Lemma measured_forEachPara_whole (m : Measured.Layout) (lh : Z)
    (l : list jsstring) :
  Measured.lineHeight m = Measured.Num lh →
  ∀ (k : nat) (positions : gmap nat Z) (y : Z),
    Measured.forEachPara m l k (Measured.Num <$> positions) (Measured.Num y)
    = (Measured.Num <$> fst (forEachPara (wholeLayout m lh) l k positions y),
       Measured.Num (snd (forEachPara (wholeLayout m lh) l k positions y))).
Proof.
  intros Hlh. induction l as [|para rest IH]; intros k positions y;
    cbn [Measured.forEachPara forEachPara fst snd]; [done|].
  destruct (isEmpty (trim para)); [apply IH|].
  rewrite Hlh. cbn [Measured.add Measured.mul wholeLayout lineHeight offsetHeight].
  rewrite <- fmap_insert. apply IH.
Qed.

Lemma measured_positions_whole (m : Measured.Layout) (lh : Z)
    (content : jsstring) (positions : gmap nat Measured.number) (i : nat) :
  Measured.lineHeight m = Measured.Num lh →
  Measured.calculateParagraphPositions (Some m) content = Some positions →
  positions !! i
  = Measured.Num <$>
      match split blankLine content !! i with
      | Some e =>
          if nonBlank e
          then Some (Measured.paddingTop m
                     + heightOf (wholeLayout m lh)
                         (take i (split blankLine content)))%Z
          else None
      | None => None
      end.
Proof.
  intros Hlh [= <-].
  rewrite <- (fmap_empty Measured.Num), (measured_forEachPara_whole m lh _ Hlh).
  cbn [fst]. rewrite lookup_fmap. f_equal.
  by apply (positions_lookup (wholeLayout m lh)).
Qed.

(** Once [currentY] is [NaN], every offset stored is [NaN]. *)
Lemma measured_forEachPara_NaN (m : Measured.Layout) (l : list jsstring) :
  ∀ (k : nat) (positions : gmap nat Measured.number) (i : nat),
    fst (Measured.forEachPara m l k positions Measured.NaN) !! i
    = if decide (k ≤ i) then
        match l !! (i - k) with
        | Some e => if nonBlank e then Some Measured.NaN else positions !! i
        | None => positions !! i
        end
      else positions !! i.
Proof.
  induction l as [|para rest IH]; intros k positions i;
    cbn [Measured.forEachPara fst].
  - by destruct (decide (k ≤ i)).
  - destruct (isEmpty (trim para)) eqn:Hb.
    + assert (Hnb : nonBlank para = false) by (unfold nonBlank; by rewrite Hb).
      rewrite IH. destruct (decide (S k ≤ i)) as [Hi|Hi].
      * rewrite decide_True by lia.
        replace (i - k) with (S (i - S k)) by lia. done.
      * destruct (decide (k ≤ i)) as [Hk|Hk]; [|done].
        replace (i - k) with 0 by lia. cbn [lookup list_lookup].
        by rewrite Hnb.
    + assert (Hnb : nonBlank para = true) by (unfold nonBlank; by rewrite Hb).
      cbn [Measured.add]. rewrite IH. destruct (decide (S k ≤ i)) as [Hi|Hi].
      * rewrite decide_True by lia.
        replace (i - k) with (S (i - S k)) by lia. cbn [lookup list_lookup].
        rewrite lookup_insert_ne by lia. done.
      * destruct (decide (k ≤ i)) as [Hk|Hk].
        -- assert (i = k) as -> by lia. rewrite Nat.sub_diag.
           cbn [lookup list_lookup]. by rewrite Hnb, lookup_insert_eq.
        -- rewrite lookup_insert_ne by lia. done.
Qed.

Lemma measured_positions_NaN (m : Measured.Layout) (content : jsstring)
    (positions : gmap nat Measured.number) (e : jsstring) (i : nat) :
  Measured.lineHeight m = Measured.NaN →
  Measured.calculateParagraphPositions (Some m) content = Some positions →
  split blankLine content !! 0 = Some e → nonBlank e = true →
  positions !! 0 = Some (Measured.Num (Measured.paddingTop m))
  ∧ ∀ p, split blankLine content !! S i = Some p → nonBlank p = true →
         positions !! S i = Some Measured.NaN.
Proof.
  intros Hlh [= <-] H0 Hnb.
  destruct (split blankLine content) as [|e0 rest]; [done|].
  injection H0 as ->. cbn [Measured.forEachPara].
  assert (isEmpty (trim e) = false) as ->
    by (unfold nonBlank in Hnb; by apply negb_true_iff).
  rewrite Hlh. cbn [Measured.add Measured.mul].
  split.
  - rewrite measured_forEachPara_NaN. rewrite decide_False by lia.
    by rewrite lookup_insert_eq.
  - intros p Hp Hnp. rewrite measured_forEachPara_NaN.
    rewrite decide_True by lia. rewrite Nat.sub_succ, Nat.sub_0_r.
    change ((e :: rest) !! S i) with (rest !! i) in Hp. by rewrite Hp, Hnp.
Qed.

(** X5.  In a document where no blank entry comes before a paragraph, a
    visible note of paragraph [i] is drawn as follows.  When the computed
    line height is a number, its [top] is the offset computed for that
    paragraph, less 60: the top padding plus the heights of the paragraphs
    before it, each with two line heights.  When the computed line height
    is [normal], so that [parseFloat] gives [NaN], the note of the first
    paragraph has the top padding less 60 as its [top], and the note of
    every later paragraph has -60. *)
Theorem notes_drawn_at_their_paragraph (m : Measured.Layout)
    (content : jsstring) (notes : gmap nat Note)
    (positions : gmap nat Measured.number) (i : nat) (note : Note) :
  Measured.calculateParagraphPositions (Some m) content = Some positions →
  paragraphs content
    = take (length (paragraphs content)) (split blankLine content) →
  i < length (paragraphs content) →
  notes !! i = Some note → Store.isVisible note = true →
  ∃ slots,
    drawMargins (paragraphs content) notes positions = Some slots
    ∧ slots !! i
      = Some (Some {| top :=
                        match Measured.lineHeight m with
                        | Measured.Num lh =>
                            (Measured.paddingTop m
                             + heightOf (wholeLayout m lh)
                                 (take i (paragraphs content))
                             - 60)%Z
                        | Measured.NaN =>
                            match i with
                            | 0 => (Measured.paddingTop m - 60)%Z
                            | S _ => (-60)%Z
                            end
                        end;
                      label := i + 1;
                      shown := Store.text note |}).
Proof.
  intros Hc Hend Hi Hn Hv.
  destruct (drawMargins (paragraphs content) notes positions) as [slots|] eqn:Hd;
    cycle 1.
  { unfold drawMargins in Hd.
    destruct (paragraphs content); [simpl in Hi; lia|done]. }
  exists slots. split; [done|]. rewrite (drawMargins_slot _ _ _ _ i Hd).
  rewrite decide_True by done. unfold drawNote. rewrite Hn, Hv.
  assert (Hentry : ∀ j, j < length (paragraphs content) →
            ∃ p, split blankLine content !! j = Some p ∧ nonBlank p = true).
  { intros j Hj. apply lookup_lt_is_Some in Hj as [p Hp]. exists p.
    pose proof Hp as Hin. apply list_elem_of_lookup_2, list_elem_of_In in Hin.
    apply filter_In in Hin as [_ Hnb].
    rewrite Hend, lookup_take_Some in Hp. by destruct Hp. }
  do 3 f_equal.
  destruct (Measured.lineHeight m) as [lh|] eqn:Hlh.
  - rewrite (measured_positions_whole m lh content positions i Hlh Hc).
    destruct (Hentry i Hi) as (p & -> & ->). cbn [fmap option_fmap option_map orZero].
    rewrite Hend at 1. rewrite take_take, Nat.min_l by lia. done.
  - destruct (Hentry 0 ltac:(lia)) as (e & He & Hnb).
    destruct i as [|i].
    + destruct (measured_positions_NaN m content positions e 0 Hlh Hc He Hnb)
        as [-> _]. done.
    + destruct (measured_positions_NaN m content positions e i Hlh Hc He Hnb)
        as [_ H].
      destruct (Hentry (S i) Hi) as (p & Hp & Hnp). by rewrite (H p Hp Hnp).
Qed.

(* ---- trimmed text ---- *)

Lemma trimStart_idempotent (s : jsstring) : trimStart (trimStart s) = trimStart s.
Proof.
  induction s as [|c s IH]; simpl; [done|].
  destruct (isWhiteSpace c) eqn:Hc; [done|]. simpl. by rewrite Hc.
Qed.

Lemma trimEnd_prefix (s : jsstring) :
  ∃ ws, s = trimEnd s ++ ws ∧ forallb isWhiteSpace ws = true.
Proof.
  destruct (trimStart_split (rev s)) as (ws & E & Hws). exists (rev ws). split.
  - unfold trimEnd. rewrite <- rev_app_distr, <- E. by rewrite rev_involutive.
  - rewrite forallb_forall in Hws. apply forallb_forall. intros c Hc.
    apply Hws. by apply in_rev.
Qed.

Lemma trimEnd_idempotent (s : jsstring) : trimEnd (trimEnd s) = trimEnd s.
Proof. unfold trimEnd. by rewrite rev_involutive, trimStart_idempotent. Qed.

Lemma trimStart_fixed (s : jsstring) :
  trimStart s = s ↔ match s with [] => True | c :: _ => isWhiteSpace c = false end.
Proof.
  destruct s as [|c s]; simpl; [done|]. destruct (isWhiteSpace c) eqn:Hc.
  - split; [|done]. intros E. exfalso.
    destruct (trimStart_split s) as (ws & Es & _).
    apply (f_equal length) in E, Es. cbn [length] in E.
    rewrite !length_app in *. lia.
  - done.
Qed.

Lemma trim_idempotent (s : jsstring) : trim (trim s) = trim s.
Proof.
  unfold trim.
  assert (H : trimStart (trimEnd (trimStart s)) = trimEnd (trimStart s)).
  { apply trimStart_fixed.
    destruct (trimEnd_prefix (trimStart s)) as (ws & E & _).
    destruct (trimEnd (trimStart s)) as [|c t] eqn:Et; [done|].
    pose proof (trimStart_idempotent s) as Hi. rewrite E in Hi. simpl in Hi.
    destruct (isWhiteSpace c) eqn:Hc; [|done]. exfalso.
    destruct (trimStart_split (t ++ ws)) as (ws' & Es & _).
    apply (f_equal length) in Hi, Es. cbn [length app] in Hi.
    rewrite !length_app in *. lia. }
  by rewrite H, trimEnd_idempotent.
Qed.

Lemma parseResponse_trimmed (raw : jsstring) (note : MarginNote) :
  parseResponse raw = Resolved note → trim (Result.text note) = Result.text note.
Proof.
  unfold parseResponse.
  destruct (regexMatch typeFlags typePattern raw) as [tm|];
    [|intros [= <-]; apply trim_idempotent].
  destruct (regexMatch textFlags textPattern raw) as [xm|];
    [|intros [= <-]; apply trim_idempotent].
  unfold entry1. destruct (group1 tm); [|done]. destruct (group1 xm); [|done].
  simpl. intros [= <-]. apply trim_idempotent.
Qed.

(** X6.  The text of a note that either client resolves with has no
    white space at its start or end: trimming it changes nothing.  This
    holds for parsed answers and for the fallback notes alike. *)
Theorem note_text_is_trimmed (model : Collaborator) (paragraphText : jsstring)
    (note : MarginNote) :
  Basic.generateMarginNote model paragraphText = Resolved note
  ∨ Adaptive.generateMarginNote model paragraphText = Resolved note →
  trim (Result.text note) = Result.text note.
Proof.
  intros [H | H].
  - unfold Basic.generateMarginNote, generateContentText in H.
    destruct (model 0 _) as [raw|e]; simpl in H.
    + destruct (parseResponse raw) as [n|e] eqn:E; simpl in H; [|by injection H as <-].
      injection H as <-. by apply (parseResponse_trimmed raw).
    + by injection H as <-.
  - unfold Adaptive.generateMarginNote, generateContentText in H.
    destruct (model 0 _) as [label|e]; simpl in H; [|by injection H as <-].
    destruct (model 1 _) as [raw|e]; simpl in H; [|by injection H as <-].
    destruct (parseResponse raw) as [n|e] eqn:E; simpl in H; [|by injection H as <-].
    injection H as <-. by apply (parseResponse_trimmed raw).
Qed.

(* ---- the store over a run ---- *)

Lemma step_keeps_loaded (notes : gmap nat Note) (st : AppState) (ev : Event) :
  (∀ i e, notes !! i = Some e → marginNotes st !! i = Some e) →
  (∀ r, r ∈ inFlight st → notes !! paragraphIndex r = None) →
  (∀ i e, notes !! i = Some e → marginNotes (fst (step st ev)) !! i = Some e)
  ∧ (∀ r, r ∈ inFlight (fst (step st ev)) → notes !! paragraphIndex r = None).
Proof.
  intros Hkeep Hfl. destruct ev as [newText | n model].
  - observe st newText Hs. cbn [fst].
    destruct Hs as (_ & _ & [(_ & -> & -> & _) | (req & _ & Hdue & -> & ->)]);
      [done|].
    destruct Hdue as (_ & _ & Hi & _ & _ & Hnone). rewrite <- Hi in Hnone.
    assert (Hreq : notes !! paragraphIndex req = None).
    { destruct (notes !! paragraphIndex req) as [e|] eqn:E; [|done].
      apply Hkeep in E. congruence. }
    split.
    + intros i e Hie. unfold showLoading.
      rewrite lookup_insert_ne by congruence. by apply Hkeep.
    + intros r [Hr | ->%list_elem_of_singleton]%elem_of_app; [by apply Hfl|done].
  - cbn [step]. destruct (inFlight st !! n) as [req|] eqn:Hn; [|done].
    cbn [fst marginNotes inFlight].
    assert (Hreq : notes !! paragraphIndex req = None).
    { apply Hfl. by eapply list_elem_of_lookup_2. }
    split.
    + intros i e Hie.
      destruct (basic_client_outcome model (paragraphText req)) as (note & -> & _).
      cbn [resume]. unfold updateWithNote.
      rewrite lookup_insert_ne by congruence. by apply Hkeep.
    + intros r Hr. by apply Hfl, (elem_of_delete n).
Qed.

(** X7.  An entry that the store holds at startup stays as it is through
    any sequence of edits and settled calls, and no request is ever issued
    for its index. *)
Theorem loaded_entries_are_kept (notes : gmap nat Note) (evs : list Event)
    (i : nat) (entry : Note) :
  notes !! i = Some entry →
  marginNotes (fst (run (mounted notes) evs)) !! i = Some entry
  ∧ ∀ r, r ∈ snd (run (mounted notes) evs) → paragraphIndex r ≠ i.
Proof.
  intros Hi. split.
  - assert (H : ∀ st,
              (∀ i e, notes !! i = Some e → marginNotes st !! i = Some e) →
              (∀ r, r ∈ inFlight st → notes !! paragraphIndex r = None) →
              ∀ i e, notes !! i = Some e →
                marginNotes (fst (run st evs)) !! i = Some e).
    { induction evs as [|ev evs IH]; intros st Hk Hf; [done|].
      rewrite run_cons. cbn [fst].
      destruct (step_keeps_loaded notes st ev Hk Hf) as [Hk' Hf'].
      by apply IH. }
    apply (H (mounted notes)); [done| |done].
    intros r Hr. by apply elem_of_nil in Hr.
  - intros r Hr E.
    destruct (run_issues evs _ (mounted_tracked notes)) as (_ & _ & Habs & _).
    apply Habs in Hr. cbn [mounted marginNotes] in Hr. congruence.
Qed.

Lemma delete_delete_lt {A} (a b : nat) (l : list A) :
  a < b → delete (b - 1) (delete a l) = delete a (delete b l).
Proof.
  revert a b. induction l as [|x l IH]; intros a b Hab.
  - by destruct a, b.
  - destruct b as [|b]; [lia|]. destruct a as [|a]; simpl.
    + by rewrite Nat.sub_0_r.
    + destruct b as [|b]; [lia|]. simpl. f_equal.
      rewrite <- (IH a (S b)) by lia. simpl. by rewrite Nat.sub_0_r.
Qed.

Lemma settle_step (st : AppState) (n : nat) (model : Collaborator) (req : Request) :
  inFlight st !! n = Some req →
  step st (Settled n model)
  = ({| content := content st;
        marginNotes :=
          resume (paragraphIndex req)
            (Basic.generateMarginNote model (paragraphText req)) (marginNotes st);
        prevParagraphCount := prevParagraphCount st;
        inFlight := delete n (inFlight st) |}, []).
Proof. intros H. cbn [step]. by rewrite H. Qed.

(** X8.  Two pending calls may settle in either order: the store and the
    list of pending calls end up the same.  (After the call at position
    [a] has settled, the one that stood at position [b] stands at
    [b - 1].) *)
Theorem settling_order_is_immaterial (notes : gmap nat Note) (evs : list Event)
    (a b : nat) (ma mb : Collaborator) :
  let st := fst (run (mounted notes) evs) in
  a < b → b < length (inFlight st) →
  fst (run st [Settled a ma; Settled (b - 1) mb])
  = fst (run st [Settled b mb; Settled a ma]).
Proof.
  intros st Hab Hb.
  destruct (run_issues evs _ (mounted_tracked notes)) as ([Hnd _] & _).
  fold st in Hnd.
  destruct (lookup_lt_is_Some_2 (inFlight st) a ltac:(lia)) as [ra Ha].
  destruct (lookup_lt_is_Some_2 (inFlight st) b Hb) as [rb Hrb].
  assert (Hne : paragraphIndex ra ≠ paragraphIndex rb).
  { intros E. assert (a = b); [|lia].
    apply (NoDup_lookup (indices (inFlight st)) a b (paragraphIndex ra)); [done| |].
    - unfold indices. by rewrite list_lookup_fmap, Ha.
    - unfold indices. by rewrite list_lookup_fmap, Hrb, E. }
  rewrite !run_cons. cbn [run fst snd].
  rewrite (settle_step st a ma ra Ha), (settle_step st b mb rb Hrb). cbn [fst].
  rewrite (settle_step _ (b - 1) mb rb), (settle_step _ a ma ra); cycle 1.
  { cbn [inFlight]. by rewrite list_lookup_delete_lt. }
  { cbn [inFlight]. rewrite list_lookup_delete_ge by lia.
    by replace (S (b - 1)) with b by lia. }
  cbn [fst content marginNotes prevParagraphCount inFlight paragraphIndex paragraphText].
  destruct (basic_client_outcome ma (paragraphText ra)) as (na & -> & _).
  destruct (basic_client_outcome mb (paragraphText rb)) as (nb & -> & _).
  cbn [resume]. unfold updateWithNote. f_equal.
  - by apply insert_insert_ne.
  - by apply delete_delete_lt.
Qed.

(* ---- instances ---- *)

Lemma positions_grow_witness :
  calculateParagraphPositions (Some oneLineLayout) gapped
  = Some (<[2 := 132%Z]> {[0 := 60%Z]})
  ∧ (paddingTop oneLineLayout ≤ 60
     ∧ 60 + offsetHeight oneLineLayout (str "first paragraph")
       + lineHeight oneLineLayout * 2 ≤ 132)%Z.
Proof.
  assert (H : calculateParagraphPositions (Some oneLineLayout) gapped
              = Some (<[2 := 132%Z]> {[0 := 60%Z]}))
    by (vm_compute; reflexivity).
  split; [exact H|].
  apply (positions_grow oneLineLayout gapped _ 0 2 (str "first paragraph")
           60 132 ltac:(simpl; lia) ltac:(intros; simpl; lia) H);
    [reflexivity | reflexivity | reflexivity | lia].
Defined.

Lemma positions_keyed_by_paragraphs_witness :
  calculateParagraphPositions (Some oneLineLayout) stuckDocument
  = Some (<[1 := 132%Z]> {[0 := 60%Z]})
  ∧ (is_Some ((<[1 := 132%Z]> {[0 := 60%Z]} : gmap nat Z) !! 2)
     ↔ 2 < length (paragraphs stuckDocument)).
Proof.
  assert (H : calculateParagraphPositions (Some oneLineLayout) stuckDocument
              = Some (<[1 := 132%Z]> {[0 := 60%Z]}))
    by (vm_compute; reflexivity).
  split; [exact H|].
  apply (proj2 (positions_keyed_by_paragraphs oneLineLayout stuckDocument _ H)).
  reflexivity.
Defined.

Lemma notes_drawn_at_their_paragraph_witness :
  (∃ slots,
     drawMargins (paragraphs stuckDocument) {[1 := loadingNote]}
       (<[1 := Measured.Num 132]> {[0 := Measured.Num 60]}) = Some slots
     ∧ slots !! 1
       = Some (Some {| top := 72; label := 2; shown := str "Thinking..." |}))
  ∧ (∃ slots,
       drawMargins (paragraphs stuckDocument) {[1 := loadingNote]}
         (<[1 := Measured.NaN]> {[0 := Measured.Num 60]}) = Some slots
       ∧ slots !! 1
         = Some (Some {| top := -60; label := 2; shown := str "Thinking..." |})).
Proof.
  split.
  - apply (notes_drawn_at_their_paragraph oneLineMeasured stuckDocument
             {[1 := loadingNote]}
             (<[1 := Measured.Num 132]> {[0 := Measured.Num 60]}) 1 loadingNote).
    + vm_compute; reflexivity.
    + reflexivity.
    + vm_compute; lia.
    + reflexivity.
    + reflexivity.
  - apply (notes_drawn_at_their_paragraph normalLineHeight stuckDocument
             {[1 := loadingNote]}
             (<[1 := Measured.NaN]> {[0 := Measured.Num 60]}) 1 loadingNote).
    + vm_compute; reflexivity.
    + reflexivity.
    + vm_compute; lia.
    + reflexivity.
    + reflexivity.
Defined.

Lemma note_text_is_trimmed_witness :
  trim (str "What does 'stuck' feel like in your body right now?")
  = str "What does 'stuck' feel like in your body right now?".
Proof.
  apply (note_text_is_trimmed answeringModel (str "I feel stuck today.")
           {| Result.type := question;
              Result.text :=
                str "What does 'stuck' feel like in your body right now?" |}).
  left. vm_compute. reflexivity.
Defined.

Lemma loaded_entries_are_kept_witness :
  marginNotes
    (fst (run (mounted {[0 := loadingNote]}) [ContentChanged stuckDocument]))
    !! 0 = Some loadingNote
  ∧ ∀ r,
      r ∈ snd (run (mounted {[0 := loadingNote]}) [ContentChanged stuckDocument]) →
      paragraphIndex r ≠ 0.
Proof.
  apply (loaded_entries_are_kept {[0 := loadingNote]}
           [ContentChanged stuckDocument] 0 loadingNote).
  reflexivity.
Defined.

Lemma settling_order_is_immaterial_witness :
  fst (run (fst (run (mounted ∅)
                   [ContentChanged stuckDocument; ContentChanged longerDocument]))
         [Settled 0 answeringModel; Settled 0 failingModel])
  = fst (run (fst (run (mounted ∅)
                     [ContentChanged stuckDocument; ContentChanged longerDocument]))
           [Settled 1 failingModel; Settled 0 answeringModel]).
Proof.
  apply (settling_order_is_immaterial ∅
           [ContentChanged stuckDocument; ContentChanged longerDocument]
           0 1 answeringModel failingModel).
  - lia.
  - vm_compute. lia.
Defined.

(* ---- segmentation, joined again ---- *)

Lemma separated_cons (sep p q : jsstring) (rest : list jsstring) :
  separated sep (p :: q :: rest) <-> tight sep p /\ separated sep (q :: rest).
Proof. reflexivity. Qed.

Lemma includes_drop (p s : jsstring) (i : nat) :
  includes p s = false -> startsWith p (drop i s) = false.
Proof.
  revert i. induction s as [|c s IH]; intros i H.
  - rewrite drop_nil. cbn in H. by apply orb_false_elim in H as [H _].
  - cbn [includes] in H. apply orb_false_elim in H as [H0 H].
    destruct i; [exact H0|]. cbn [drop]. by apply IH.
Qed.

Lemma startsWith_long (p s t : jsstring) :
  length p <= length s -> startsWith p (s ++ t) = startsWith p s.
Proof.
  revert s. induction p as [|a p IH]; intros [|b s] H; cbn in *; try done; try lia.
  rewrite IH by lia. done.
Qed.

Lemma tight_includes (sep p : jsstring) :
  sep <> [] -> tight sep p -> includes sep p = false.
Proof.
  intros Hsep Ht. apply includes_false. intros i Hi.
  destruct (decide (i < length p)) as [Hlt|Hge].
  - specialize (Ht i Hlt).
    destruct (startsWith sep (drop i p)) eqn:Hd; [|done].
    apply (startsWith_weaken _ _ sep) in Hd.
    rewrite <- drop_app_le in Hd by lia. congruence.
  - rewrite drop_ge by lia. by destruct sep.
Qed.

Lemma split_go_separated (sep : jsstring) (n : nat) :
  sep <> [] ->
  forall s cur, length s <= n ->
    (forall i, i < length cur -> startsWith sep (drop i (cur ++ s)) = false) ->
    separated sep (split_go sep s 0 cur).
Proof.
  intros Hsep. induction n as [|n IH]; intros s cur Hn Hcur.
  - destruct s; [|simpl in Hn; lia]. cbn.
    apply includes_false. intros i Hi.
    destruct (decide (i < length cur)) as [Hlt|Hge].
    + specialize (Hcur i Hlt). by rewrite app_nil_r in Hcur.
    + rewrite drop_ge by lia. by destruct sep.
  - destruct s as [|c s].
    { cbn. apply includes_false. intros i Hi.
      destruct (decide (i < length cur)) as [Hlt|Hge].
      + specialize (Hcur i Hlt). by rewrite app_nil_r in Hcur.
      + rewrite drop_ge by lia. by destruct sep. }
    simpl in Hn. cbn [split_go].
    destruct (startsWith sep (c :: s)) eqn:Hp.
    + pose proof (split_go_not_nil sep s (length sep - 1) []) as Hne.
      destruct (split_go sep s (length sep - 1) []) as [|q rest] eqn:Eq; [done|].
      apply separated_cons. split.
      * intros i Hi. specialize (Hcur i Hi).
        destruct (startsWith sep (drop i (cur ++ sep))) eqn:Hd; [|done].
        apply startsWith_inv in Hp. rewrite Hp in Hcur.
        rewrite app_assoc, drop_app_le in Hcur by (rewrite length_app; lia).
        apply (startsWith_weaken _ _ (drop (length sep) (c :: s))) in Hd.
        congruence.
      * rewrite <- Eq, split_go_skip. apply IH; [rewrite length_drop; lia|].
        simpl. intros; lia.
    + apply IH; [lia|]. intros i Hi. rewrite length_app in Hi. simpl in Hi.
      rewrite <- app_assoc. simpl.
      destruct (decide (i < length cur)) as [Hlt|Hge]; [by apply Hcur|].
      assert (i = length cur) as -> by lia.
      by rewrite drop_app_length.
Qed.

Lemma split_separated (sep s : jsstring) :
  sep <> [] -> separated sep (split sep s).
Proof.
  intros H. apply (split_go_separated sep (length s) H); [done|].
  simpl. intros; lia.
Qed.

Lemma filter_separated (sep : jsstring) (f : jsstring -> bool)
    (pieces : list jsstring) :
  sep <> [] -> separated sep pieces -> separated sep (List.filter f pieces).
Proof.
  intros Hsep. induction pieces as [|p [|q rest] IH]; intros H.
  - done.
  - cbn. destruct (f p); done.
  - apply separated_cons in H as [Ht H]. specialize (IH H).
    cbn [List.filter]. cbn [List.filter] in IH.
    destruct (f p); [|exact IH].
    destruct (if f q then q :: List.filter f rest else List.filter f rest)
      as [|q' rest'].
    + cbn. by apply tight_includes.
    + apply separated_cons. by split.
Qed.

Lemma split_go_last (sep s cur : jsstring) :
  includes sep (cur ++ s) = false -> split_go sep s 0 cur = [cur ++ s].
Proof.
  revert cur. induction s as [|c s IH]; intros cur H.
  - by rewrite app_nil_r.
  - cbn [split_go].
    pose proof (includes_drop _ _ (length cur) H) as Hd.
    rewrite drop_app_length in Hd. rewrite Hd.
    rewrite IH; rewrite <- app_assoc; done.
Qed.

Lemma split_go_tight (sep s cur tail : jsstring) :
  sep <> [] -> tight sep (cur ++ s) ->
  split_go sep (s ++ sep ++ tail) 0 cur
  = (cur ++ s) :: split_go sep tail 0 [].
Proof.
  intros Hsep. revert cur. induction s as [|c s IH]; intros cur Ht.
  - rewrite app_nil_r. cbn [app].
    destruct sep as [|a sep]; [done|]. cbn [app split_go].
    change (a :: sep ++ tail) with ((a :: sep) ++ tail).
    rewrite startsWith_app. f_equal.
    rewrite split_go_skip.
    replace (length (a :: sep) - 1) with (length sep) by (simpl; lia).
    by rewrite drop_app_length.
  - cbn [app split_go].
    assert (Hd : startsWith sep (c :: s ++ sep ++ tail) = false).
    { pose proof (Ht (length cur) ltac:(rewrite length_app; simpl; lia)) as H.
      rewrite <- app_assoc, drop_app_length in H.
      change (c :: s ++ sep ++ tail) with ((c :: s) ++ sep ++ tail).
      rewrite app_assoc, startsWith_long; [exact H|].
      rewrite length_app. lia. }
    rewrite Hd. rewrite IH; rewrite <- app_assoc; done.
Qed.

Lemma split_join (sep : jsstring) (pieces : list jsstring) :
  sep <> [] -> pieces <> [] -> separated sep pieces ->
  split sep (join sep pieces) = pieces.
Proof.
  intros Hsep Hne. unfold split.
  induction pieces as [|p [|q rest] IH]; intros H; [done| |].
  - cbn [join]. by rewrite split_go_last.
  - apply separated_cons in H as [Ht H]. rewrite join_cons.
    rewrite split_go_tight by done. cbn [app]. f_equal. by apply IH.
Qed.

Lemma filter_filter_same {A} (f : A -> bool) (l : list A) :
  List.filter f (List.filter f l) = List.filter f l.
Proof.
  induction l as [|a l IH]; [done|]. cbn. destruct (f a) eqn:E; [|done].
  cbn. by rewrite E, IH.
Qed.

(** X9.  Segmentation is stable: the paragraphs of a document, joined
    again by blank lines, form a document with exactly those paragraphs. *)
Theorem paragraphs_of_joined_paragraphs (content : jsstring) :
  paragraphs (join blankLine (paragraphs content)) = paragraphs content.
Proof.
  unfold paragraphs at 1.
  destruct (paragraphs content) as [|p ps] eqn:E; [reflexivity|].
  rewrite split_join; [| done | done |].
  - rewrite <- E. apply filter_filter_same.
  - rewrite <- E. apply filter_separated; [done|]. by apply split_separated.
Qed.

(* ---- saving and loading ---- *)

Import Stringify.

Lemma lexString_quoteChar (c : ascii) (rest : jsstring) (acc : list N) (n : nat) :
  JSON.lexString (quoteChar c ++ rest) acc n
  = JSON.lexString rest (code c :: acc) (n + length (quoteChar c)).
Proof.
  destruct c as [[] [] [] [] [] [] [] []]; cbn; try reflexivity;
    rewrite Nat.add_1_r; reflexivity.
Qed.

Lemma lexString_quoted (s rest : jsstring) (acc : list N) (n : nat) :
  JSON.lexString (flat_map quoteChar s ++ DQUOTE :: rest) acc n
  = Some (rev acc ++ units s, S (n + length (flat_map quoteChar s))).
Proof.
  revert acc n. induction s as [|c s IH]; intros acc n.
  - cbn. by rewrite app_nil_r, Nat.add_0_r.
  - cbn [flat_map]. rewrite <- app_assoc, lexString_quoteChar, IH.
    cbn [rev units map]. rewrite <- app_assoc, length_app. cbn [app].
    do 2 f_equal. lia.
Qed.

Lemma tokenize_skip (s : jsstring) (k : nat) :
  JSON.tokenize s k = JSON.tokenize (drop k s) 0.
Proof.
  revert k. induction s as [|c s IH]; intros [|k]; try reflexivity.
  cbn [JSON.tokenize drop]. apply IH.
Qed.

Lemma tokenize_lex (c : ascii) (r : jsstring) (t : JSON.token) (n : nat) :
  JSON.isJsonSpace c = false ->
  JSON.lexToken (c :: r) = Some (t, S n) ->
  JSON.tokenize (c :: r) 0 = cons t <$> JSON.tokenize (drop n r) 0.
Proof.
  intros Hc Hl. cbn [JSON.tokenize]. rewrite Hc, Hl.
  rewrite tokenize_skip. replace (S n - 1) with n by lia. reflexivity.
Qed.

Lemma tokenize_string (s rest : jsstring) :
  JSON.tokenize (quote s ++ rest) 0
  = cons (JSON.TString (units s)) <$> JSON.tokenize rest 0.
Proof.
  unfold quote. cbn [app]. rewrite <- app_assoc. cbn [app].
  rewrite (tokenize_lex _ _ (JSON.TString (units s))
             (S (length (flat_map quoteChar s)))); [|reflexivity|].
  - replace (S (length (flat_map quoteChar s)))
      with (length (flat_map quoteChar s) + 1) by lia.
    rewrite <- drop_drop, drop_app_length. reflexivity.
  - change (JSON.lexToken (DQUOTE :: ?r))
      with (match JSON.lexString r [] 1 with
            | Some (u, n) => Some (JSON.TString u, n)
            | None => None
            end).
    rewrite lexString_quoted. reflexivity.
Qed.

Lemma tokenize_boolean (b : bool) (rest : jsstring) :
  JSON.tokenize (boolean b ++ rest) 0
  = cons (if b then JSON.TTrue else JSON.TFalse) <$> JSON.tokenize rest 0.
Proof. destruct b; reflexivity. Qed.

Lemma tokenize_punct (c : ascii) (t : JSON.token) (rest : jsstring) :
  JSON.isJsonSpace c = false ->
  (forall r, JSON.lexToken (c :: r) = Some (t, 1)) ->
  JSON.tokenize ([c] ++ rest) 0 = cons t <$> JSON.tokenize rest 0.
Proof. intros Hc Hl. cbn [app]. by rewrite (tokenize_lex c rest t 0). Qed.

Lemma tokenize_note (note : Note) (rest : jsstring) :
  JSON.tokenize (stringifyNote note ++ rest) 0
  = app (noteTokens note) <$> JSON.tokenize rest 0.
Proof.
  unfold stringifyNote. rewrite <- !app_assoc.
  change (str "{") with ["{"%char]. change (str ":") with [":"%char].
  change (str ",") with [","%char]. change (str "}") with ["}"%char].
  repeat first
    [ rewrite tokenize_string
    | rewrite tokenize_boolean
    | rewrite (tokenize_punct "{" JSON.TLBrace) by reflexivity
    | rewrite (tokenize_punct "}" JSON.TRBrace) by reflexivity
    | rewrite (tokenize_punct ":" JSON.TColon) by reflexivity
    | rewrite (tokenize_punct "," JSON.TComma) by reflexivity ].
  destruct (JSON.tokenize rest 0); reflexivity.
Qed.

Lemma tokenize_members (e : nat * Note) (es : list (nat * Note)) :
  JSON.tokenize (join (str ",") (map stringifyMember (e :: es)) ++ str "}") 0
  = Some (memberTokens e
          ++ flat_map (fun e' => JSON.TComma :: memberTokens e') es
          ++ [JSON.TRBrace]).
Proof.
  revert e. induction es as [|e' es IH]; intros e.
  - cbn [map join flat_map app]. unfold stringifyMember.
    rewrite <- !app_assoc, tokenize_string.
    change (str ":") with [":"%char].
    rewrite (tokenize_punct ":" JSON.TColon) by reflexivity.
    rewrite tokenize_note. reflexivity.
  - cbn [map]. rewrite join_cons. fold (map stringifyMember (e' :: es)).
    unfold stringifyMember at 1.
    rewrite <- !app_assoc, tokenize_string.
    change (str ":") with [":"%char]. change (str ",") with [","%char].
    rewrite (tokenize_punct ":" JSON.TColon) by reflexivity.
    rewrite tokenize_note.
    rewrite (tokenize_punct "," JSON.TComma) by reflexivity.
    specialize (IH e'). cbn [map] in IH.
    change (str ",") with [","%char] in IH. rewrite IH. reflexivity.
Qed.

Lemma feedAll_member (entry : nat * Note) (done : list (list N * JSON.json))
    (stack : list JSON.frame) (e : JSON.expect) (ts : list JSON.token) :
  e = JSON.EKey \/ e = JSON.EKeyOrClose ->
  JSON.feedAll (JSON.FObject done None :: stack, e) (memberTokens entry ++ ts)
  = JSON.feedAll
      (JSON.FObject (memberJson entry :: done) None :: stack,
       JSON.ECommaOrClose) ts.
Proof.
  destruct entry as [i [t ty [] []]]; intros [-> | ->]; reflexivity.
Qed.

Lemma feedAll_tail (es : list (nat * Note)) (done : list (list N * JSON.json)) :
  JSON.feedAll ([JSON.FObject done None], JSON.ECommaOrClose)
    (flat_map (fun e' => JSON.TComma :: memberTokens e') es ++ [JSON.TRBrace])
  = Some ([], JSON.EEnd (JSON.JObject (rev done ++ map memberJson es))).
Proof.
  revert done. induction es as [|e es IH]; intros done.
  - cbn. by rewrite app_nil_r.
  - cbn [flat_map]. rewrite <- app_assoc.
    change (JSON.feedAll ?st (((JSON.TComma :: ?a) ++ ?b)))
      with (JSON.feedAll ([JSON.FObject done None], JSON.EKey) (a ++ b)).
    rewrite feedAll_member by auto. rewrite IH.
    cbn [rev map]. by rewrite <- app_assoc.
Qed.

Lemma parse_stringify (marginNotes : gmap nat Note) :
  JSON.parse (stringify marginNotes) = Some (notesJson marginNotes).
Proof.
  unfold stringify, notesJson, JSON.parse.
  change (str "{") with ["{"%char].
  rewrite (tokenize_punct "{" JSON.TLBrace) by reflexivity.
  destruct (entries marginNotes) as [|e es]; [reflexivity|].
  rewrite tokenize_members. cbn [fmap option_fmap option_map].
  change (JSON.feedAll ([], JSON.EValue) (JSON.TLBrace :: ?ts))
    with (JSON.feedAll ([JSON.FObject [] None], JSON.EKeyOrClose) ts).
  rewrite feedAll_member by auto. rewrite feedAll_tail. reflexivity.
Qed.

Lemma units_inj (s t : jsstring) : units s = units t -> s = t.
Proof.
  revert t. induction s as [|c s IH]; intros [|d t] E; try done.
  injection E as E1 E2. f_equal; [|by apply IH].
  by rewrite <- (ascii_N_embedding c), <- (ascii_N_embedding d); f_equal.
Qed.

Lemma ToString_inj (i j : nat) : ToString i = ToString j -> i = j.
Proof.
  unfold ToString, str. intros E.
  apply Unsigned.to_uint_inj.
  assert (E' : NilEmpty.string_of_uint (Nat.to_uint i)
               = NilEmpty.string_of_uint (Nat.to_uint j)).
  { by rewrite <- (string_of_list_ascii_of_string (NilEmpty.string_of_uint _)),
      E, string_of_list_ascii_of_string. }
  pose proof (NilEmpty.usu (Nat.to_uint i)) as U.
  rewrite E', NilEmpty.usu in U. by injection U.
Qed.

Lemma entries_elem (marginNotes : gmap nat Note) (i : nat) (note : Note) :
  (i, note) ∈ entries marginNotes <-> marginNotes !! i = Some note.
Proof.
  unfold entries. rewrite list_elem_of_omap. split.
  - intros (j & _ & E). destruct (marginNotes !! j) eqn:L; [|done].
    cbn in E. by injection E as -> ->.
  - intros L. exists i. split; [|by rewrite L].
    apply elem_of_seq. split; [lia|]. cbn.
    assert (i ≤ max_list (map fst (map_to_list marginNotes))); [|lia].
    apply max_list_elem_of_le.
    apply list_elem_of_fmap. exists (i, note).
    split; [done|by apply elem_of_map_to_list].
Qed.

Lemma entries_keys (marginNotes : gmap nat Note) :
  NoDup (map fst (entries marginNotes)).
Proof.
  unfold entries.
  generalize (seq 0 (S (max_list (map fst (map_to_list marginNotes)))))
             (NoDup_seq 0 (S (max_list (map fst (map_to_list marginNotes))))).
  intros l. induction 1 as [|a l Ha Hl IH]; [constructor|].
  cbn [omap list_omap]. destruct (marginNotes !! a) as [n|]; cbn; [|exact IH].
  constructor; [|exact IH].
  intros (x & Ex & Hx)%list_elem_of_fmap.
  apply list_elem_of_omap in Hx as (j & Hj & E).
  destruct (marginNotes !! j); [|done]. cbn in E. injection E as <-.
  cbn in Ex. by subst.
Qed.

Lemma lookupMember_entries (es : list (nat * Note)) (i : nat) :
  NoDup (map fst es) ->
  (forall note, (i, note) ∈ es ->
     lookupMember (map memberJson es) (units (ToString i))
     = Some (noteJson note))
  /\ (i ∉ map fst es ->
      lookupMember (map memberJson es) (units (ToString i)) = None).
Proof.
  induction es as [|[j n] es IH]; intros Hnd.
  - split; [by intros ? ?%elem_of_nil|done].
  - apply NoDup_cons in Hnd as [Hj Hnd]. destruct (IH Hnd) as [IH1 IH2].
    cbn [map memberJson fst snd lookupMember]. split.
    + intros note [E|Hin]%elem_of_cons.
      * injection E as -> ->. rewrite IH2 by exact Hj.
        by rewrite bool_decide_true.
      * by rewrite (IH1 note Hin).
    + intros Hi. cbn [map fst] in Hi. apply not_elem_of_cons in Hi as [Hne Hi].
      rewrite IH2 by exact Hi. rewrite bool_decide_false; [done|].
      intros E%units_inj%ToString_inj. by subst.
Qed.

Lemma property_notesJson (marginNotes : gmap nat Note) (i : nat) :
  property (notesJson marginNotes) (units (ToString i))
  = noteJson <$> marginNotes !! i.
Proof.
  cbn [property notesJson].
  destruct (lookupMember_entries (entries marginNotes) i (entries_keys _))
    as [H1 H2].
  destruct (marginNotes !! i) as [note|] eqn:L.
  - apply H1. by apply entries_elem.
  - apply H2. intros ([j n] & E & Hin)%list_elem_of_fmap. cbn in E. subst j.
    apply entries_elem in Hin. congruence.
Qed.

Lemma units_back (s : jsstring) : map ascii_of_N (units s) = s.
Proof.
  induction s as [|c s IH]; [done|]. cbn [units map].
  unfold code at 1. rewrite ascii_N_embedding. f_equal. exact IH.
Qed.

Lemma noteOf_noteJson (note : Note) : noteOf (noteJson note) = Some note.
Proof.
  destruct note as [t y v l].
  change (noteOf (noteJson {| Store.text := t; Store.type := y;
                              Store.isVisible := v; Store.isLoading := l |}))
    with (Some {| Store.text := map ascii_of_N (units t);
                  Store.type := map ascii_of_N (units y);
                  Store.isVisible := v; Store.isLoading := l |}).
  by rewrite !units_back.
Qed.

(** X10.  [JSON.parse] accepts what [JSON.stringify] writes for a store of
    notes, whatever characters the texts hold, and the value it returns
    has under each index the note the store had there, and nothing under
    an index the store did not have. *)
Theorem notes_survive_stringify (marginNotes : gmap nat Note) :
  exists saved,
    JSON.parse (stringify marginNotes) = Some saved
    /\ forall i,
         property saved (units (ToString i)) ≫= noteOf = marginNotes !! i.
Proof.
  exists (notesJson marginNotes). split; [apply parse_stringify|].
  intros i. rewrite property_notesJson.
  destruct (marginNotes !! i) as [note|]; [|done].
  cbn. apply noteOf_noteJson.
Qed.

(** X11.  What the two saving effects write, the loading effect reads
    back: it returns without throwing, the content it sets (or the empty
    initial content, where it sets none) is the content saved, and the
    notes it sets are the parsed form of the notes saved.  The keys of the
    storage other than the two of the component play no part. *)
Theorem saved_state_is_loaded_back (content : jsstring)
    (marginNotes : gmap nat Note) (localStorage : Storage) :
  exists setContent,
    loadEffect (saveEffects content marginNotes localStorage)
    = LoadReturned setContent (Some (notesJson marginNotes))
    /\ match setContent with Some c => c | None => [] end = content.
Proof.
  unfold loadEffect, saveEffects, setItem. cbn [String.eqb Ascii.eqb Bool.eqb].
  cbn [whenTruthy].
  assert (T : truthy (stringify marginNotes) = true) by reflexivity.
  rewrite T, parse_stringify.
  destruct content as [|c content]; eexists; split; reflexivity.
Qed.

(* ---- a pending note across a restart ---- *)



(* ---- the earlier triggers ---- *)

Import DoubleEnter.

Lemma handleKeyDown_cases (content : jsstring) (notes : gmap nat Note)
    (flag : bool) (k : jsstring) :
  (k ≠ Enter ∧ handleKeyDown content notes flag k = (false, None))
  ∨ (k = Enter ∧ flag = false ∧ handleKeyDown content notes flag k = (true, None))
  ∨ (k = Enter ∧ flag = true ∧ paragraphs content = []
     ∧ handleKeyDown content notes flag k = (false, None))
  ∨ (k = Enter ∧ flag = true
     ∧ ∃ p, paragraphs content !! (length (paragraphs content) - 1) = Some p
         ∧ 0 < length (paragraphs content)
         ∧ handleKeyDown content notes flag k
           = (false, Some {| seenNotes := notes;
                             lastParagraphIndex := length (paragraphs content) - 1;
                             lastParagraph := p |})).
Proof.
  unfold handleKeyDown. case_bool_decide as Hk; [|by left].
  right. destruct flag; [|by left]. right.
  pose proof (paragraphs_truthy content) as Htruthy.
  destruct (paragraphs content) as [|p0 ps] eqn:E using rev_ind; [by left|].
  right. clear IHps. split_and!; [done|done|].
  rewrite length_app. cbn [length].
  replace (0 <=? Z.of_nat (length ps + 1) - 1)%Z with true by (symmetry; apply Z.leb_le; lia).
  replace (Z.to_nat (Z.of_nat (length ps + 1) - 1)) with (length ps) by lia.
  replace (length ps + 1 - 1) with (length ps) by lia.
  assert (Hl : (ps ++ [p0]) !! length ps = Some p0).
  { rewrite lookup_app_r by lia. by rewrite Nat.sub_diag. }
  rewrite Hl, (Htruthy p0 _ Hl). exists p0. split_and!; [done|lia|done].
Qed.

Lemma keyDowns_cons (flag : bool) (k : KeyDown) (rest : list KeyDown) :
  keyDowns flag (k :: rest)
  = (fst (keyDowns (fst (handleKeyDown (contentThen k) (notesThen k) flag (key k)))
            rest),
     match snd (handleKeyDown (contentThen k) (notesThen k) flag (key k)) with
     | Some t => [t]
     | None => []
     end
     ++ snd (keyDowns (fst (handleKeyDown (contentThen k) (notesThen k) flag (key k)))
               rest)).
Proof.
  cbn [keyDowns].
  destruct (handleKeyDown (contentThen k) (notesThen k) flag (key k)) as [f [t|]];
    cbn [fst snd]; by destruct (keyDowns f rest).
Qed.

Lemma keyDowns_count (ks : list KeyDown) (flag : bool) :
  2 * length (snd (keyDowns flag ks)) + (if fst (keyDowns flag ks) then 1 else 0)
  ≤ enterCount ks + (if flag then 1 else 0).
Proof.
  revert flag. induction ks as [|k rest IH]; intros flag; [simpl; lia|].
  rewrite keyDowns_cons. cbn [fst snd]. unfold enterCount. cbn [List.filter].
  fold (enterCount rest). rewrite length_app.
  destruct (handleKeyDown_cases (contentThen k) (notesThen k) flag (key k))
    as [[Hk ->] | [(Hk & -> & ->) | [(Hk & -> & _ & ->) | (Hk & -> & p & _ & _ & ->)]]];
    cbn [fst snd length]; specialize (IH false) as IHf; specialize (IH true) as IHt;
    cbn in IHf, IHt.
  - rewrite bool_decide_false by done. fold (enterCount rest). lia.
  - rewrite bool_decide_true by done. cbn [length]. fold (enterCount rest). lia.
  - rewrite bool_decide_true by done. cbn [length]. fold (enterCount rest). lia.
  - rewrite bool_decide_true by done. cbn [length]. fold (enterCount rest). lia.
Qed.

Lemma keyDowns_targets (ks : list KeyDown) (flag : bool) (t : Timer) :
  t ∈ snd (keyDowns flag ks) →
  ∃ k, k ∈ ks ∧ key k = Enter ∧ seenNotes t = notesThen k
    ∧ S (lastParagraphIndex t) = length (paragraphs (contentThen k))
    ∧ paragraphs (contentThen k) !! lastParagraphIndex t = Some (lastParagraph t).
Proof.
  revert flag. induction ks as [|k rest IH]; intros flag.
  - simpl. by intros ?%elem_of_nil.
  - rewrite keyDowns_cons. cbn [snd]. intros [Ht | Ht]%elem_of_app.
    + exists k. split; [apply elem_of_cons; by left|].
      destruct (handleKeyDown_cases (contentThen k) (notesThen k) flag (key k))
        as [[Hk E] | [(Hk & _ & E) | [(Hk & _ & _ & E) | (Hk & _ & p & Hp & Hpos & E)]]];
        rewrite E in Ht; cbn [snd] in Ht; try by apply elem_of_nil in Ht.
      apply list_elem_of_singleton in Ht as ->. cbn.
      split_and!; [done|done|lia|done].
    + destruct (IH _ Ht) as (k' & Hin & H). exists k'.
      split; [apply elem_of_cons; by right|done].
Qed.

Lemma keyDowns_held (ks : list KeyDown) (flag : bool) :
  Forall (fun k => key k = Enter ∧ paragraphs (contentThen k) ≠ []) ks →
  length (snd (keyDowns flag ks)) = (length ks + (if flag then 1 else 0)) / 2
  ∧ fst (keyDowns flag ks) = Nat.odd (length ks + (if flag then 1 else 0)).
Proof.
  revert flag. induction ks as [|k rest IH]; intros flag H.
  - destruct flag; by cbn.
  - apply Forall_cons in H as [[Hk Hne] H]. rewrite keyDowns_cons. cbn [fst snd].
    rewrite length_app.
    destruct (handleKeyDown_cases (contentThen k) (notesThen k) flag (key k))
      as [[Hk' _] | [(_ & -> & ->) | [(_ & _ & He & _) | (_ & -> & p & _ & _ & ->)]]];
      [done| |done|]; cbn [fst snd length].
    + destruct (IH true H) as [-> ->]. rewrite !Nat.add_0_r.
      by replace (length rest + 1) with (S (length rest)) by lia.
    + destruct (IH false H) as [-> ->]. rewrite !Nat.add_0_r.
      replace (S (length rest) + 1) with (length rest + 1 * 2) by lia.
      rewrite Nat.div_add by done.
      split; [lia|]. replace (length rest + 1 * 2) with (S (S (length rest))) by lia.
      done.
Qed.

(** X12.  In the double-Enter version the presses of Enter are taken in
    pairs: a sequence of key presses sets at most one timer for every two
    presses of Enter; each timer targets the last paragraph of the text at
    the press that set it and carries the store of that render; and when
    Enter is held on a text with a paragraph, [n] presses set [n / 2]
    timers and leave the flag set exactly when [n] is odd. *)
Theorem double_enter_pairs (ks : list KeyDown) :
  2 * length (snd (keyDowns false ks)) ≤ enterCount ks
  ∧ (∀ t, t ∈ snd (keyDowns false ks) →
       ∃ k, k ∈ ks ∧ key k = Enter ∧ seenNotes t = notesThen k
         ∧ S (lastParagraphIndex t) = length (paragraphs (contentThen k))
         ∧ paragraphs (contentThen k) !! lastParagraphIndex t
           = Some (lastParagraph t))
  ∧ (Forall (fun k => key k = Enter ∧ paragraphs (contentThen k) ≠ []) ks →
       length (snd (keyDowns false ks)) = length ks / 2
       ∧ fst (keyDowns false ks) = Nat.odd (length ks)).
Proof.
  split_and!.
  - pose proof (keyDowns_count ks false) as H. simpl in H.
    destruct (fst (keyDowns false ks)); lia.
  - intros t. apply keyDowns_targets.
  - intros H. destruct (keyDowns_held ks false H) as [E1 E2].
    by rewrite Nat.add_0_r in E1, E2.
Qed.

(** X13.  In the double-Enter version four presses of Enter that reach
    the handler before the store changes set two timers for the same last
    paragraph.  Both timers issue a request: the second tests the store of
    the render it was set in, which has no entry for the paragraph, although
    the first has put the loading entry there by then. *)
Theorem held_enter_fires_twice (notes current : gmap nat Note)
    (c1 c2 c3 c4 p2 p4 : jsstring) (i : nat) :
  paragraphs c2 !! i = Some p2 → length (paragraphs c2) = S i →
  paragraphs c4 !! i = Some p4 → length (paragraphs c4) = S i →
  10 ≤ length (trim p2) → 10 ≤ length (trim p4) →
  notes !! i = None →
  ∃ t1 t2 afterFirst afterSecond,
    keyDowns false [enterOn c1 notes; enterOn c2 notes;
                    enterOn c3 notes; enterOn c4 notes]
    = (false, [t1; t2])
    ∧ fire t1 current
      = (afterFirst, [{| paragraphIndex := i; paragraphText := p2 |}])
    ∧ afterFirst !! i = Some loadingNote
    ∧ fire t2 afterFirst
      = (afterSecond, [{| paragraphIndex := i; paragraphText := p4 |}]).
Proof.
  intros H2 L2 H4 L4 Hl2 Hl4 Hnone.
  assert (K : ∀ c p, paragraphs c !! i = Some p → length (paragraphs c) = S i →
            handleKeyDown c notes true Enter
            = (false, Some {| seenNotes := notes; lastParagraphIndex := i;
                              lastParagraph := p |})).
  { intros c p Hp Hlen.
    destruct (handleKeyDown_cases c notes true Enter)
      as [[Hk _] | [(_ & Hf & _) | [(_ & _ & He & _) | (_ & _ & q & Hq & _ & ->)]]];
      [done|done|by rewrite He in Hlen|].
    rewrite Hlen in Hq |- *. replace (S i - 1) with i in * by lia.
    rewrite Hp in Hq. by injection Hq as <-. }
  assert (K0 : ∀ c, handleKeyDown c notes false Enter = (true, None)).
  { intros c. unfold handleKeyDown. by rewrite bool_decide_true. }
  eexists _, _, _, _. split_and!.
  - rewrite keyDowns_cons. cbn [enterOn key contentThen notesThen].
    rewrite K0. cbn [fst snd].
    rewrite keyDowns_cons. cbn [enterOn key contentThen notesThen].
    rewrite (K c2 p2 H2 L2). cbn [fst snd].
    rewrite keyDowns_cons. cbn [enterOn key contentThen notesThen].
    rewrite K0. cbn [fst snd].
    rewrite keyDowns_cons. cbn [enterOn key contentThen notesThen].
    rewrite (K c4 p4 H4 L4). cbn [fst snd keyDowns app]. done.
  - unfold fire. cbn [seenNotes lastParagraphIndex lastParagraph].
    destruct (handler_cases notes i p2) as [[_ [H | H]] | (-> & _)];
      [lia|rewrite Hnone in H; by destruct H|done].
  - unfold showLoading. by rewrite lookup_insert_eq.
  - unfold fire. cbn [seenNotes lastParagraphIndex lastParagraph].
    destruct (handler_cases notes i p4) as [[_ [H | H]] | (-> & _)];
      [lia|rewrite Hnone in H; by destruct H|done].
Qed.

(* ---- the trigger for every paragraph ---- *)

Import EveryParagraph.

Lemma forEachParagraph_cons (notes : gmap nat Note) (p : jsstring)
    (rest : list jsstring) (k : nat) :
  forEachParagraph notes (p :: rest) k
  = match generateMarginNoteForParagraph notes k p with
    | Fired update req =>
        (fun prev => fst (forEachParagraph notes rest (S k)) (update prev),
         req :: snd (forEachParagraph notes rest (S k)))
    | Skipped => forEachParagraph notes rest (S k)
    end.
Proof.
  cbn [forEachParagraph]. destruct (forEachParagraph notes rest (S k)) as [u rs].
  by destruct (generateMarginNoteForParagraph notes k p).
Qed.

Lemma forEachParagraph_requests (notes : gmap nat Note) (ps : list jsstring) :
  ∀ (k : nat) (r : Request),
    r ∈ snd (forEachParagraph notes ps k)
    ↔ k ≤ paragraphIndex r
      ∧ ps !! (paragraphIndex r - k) = Some (paragraphText r)
      ∧ 10 ≤ length (trim (paragraphText r))
      ∧ notes !! paragraphIndex r = None.
Proof.
  induction ps as [|p rest IH]; intros k r.
  - simpl. split; [by intros ?%elem_of_nil|]. by intros (_ & ? & _).
  - rewrite forEachParagraph_cons.
    assert (Hrest : r ∈ snd (forEachParagraph notes rest (S k))
              ↔ S k ≤ paragraphIndex r
                ∧ (p :: rest) !! (paragraphIndex r - k) = Some (paragraphText r)
                ∧ 10 ≤ length (trim (paragraphText r))
                ∧ notes !! paragraphIndex r = None).
    { rewrite IH. split; intros (Hk & Hl & H); (split; [done|]); (split; [|done]).
      - by replace (paragraphIndex r - k) with (S (paragraphIndex r - S k)) by lia.
      - by replace (paragraphIndex r - k) with (S (paragraphIndex r - S k)) in Hl by lia. }
    destruct (handler_cases notes k p) as [[-> Hskip] | (-> & Hlen & Hnone)].
    + rewrite Hrest. split; [intros (? & ?); split; [lia|done]|].
      intros (Hk & Hl & Hlen & Hnone).
      destruct (decide (paragraphIndex r = k)) as [E|]; [|split; [lia|done]].
      exfalso. rewrite E, Nat.sub_diag in Hl. injection Hl as ->.
      rewrite E in Hnone. destruct Hskip as [H | H]; [lia|].
      rewrite Hnone in H. by destruct H.
    + cbn [snd]. rewrite elem_of_cons, Hrest. split.
      * intros [-> | (? & ?)]; [|split; [lia|done]].
        cbn. by rewrite Nat.sub_diag.
      * intros (Hk & Hl & H).
        destruct (decide (paragraphIndex r = k)) as [E|]; [|right; split; [lia|done]].
        left. rewrite E, Nat.sub_diag in Hl. injection Hl as Hl.
        destruct r. cbn in *. by subst.
Qed.

Lemma forEachParagraph_sorted (notes : gmap nat Note) (ps : list jsstring) :
  ∀ k, NoDup (indices (snd (forEachParagraph notes ps k))).
Proof.
  induction ps as [|p rest IH]; intros k; [apply NoDup_nil_2|].
  rewrite forEachParagraph_cons.
  destruct (generateMarginNoteForParagraph notes k p) as [|u req] eqn:E; [apply IH|].
  cbn [snd indices map]. apply NoDup_cons. split; [|apply IH].
  intros (r & Hr & Hin)%list_elem_of_fmap.
  apply forEachParagraph_requests in Hin as (Hk & _).
  destruct (handler_cases notes k p) as [[E' _] | (E' & _)]; rewrite E' in E; [done|].
  injection E as _ <-. cbn in Hr. lia.
Qed.

Lemma forEachParagraph_store (notes : gmap nat Note) (ps : list jsstring) :
  ∀ (k : nat) (prev : gmap nat Note) (i : nat),
    fst (forEachParagraph notes ps k) prev !! i
    = if bool_decide (i ∈ indices (snd (forEachParagraph notes ps k)))
      then Some loadingNote else prev !! i.
Proof.
  induction ps as [|p rest IH]; intros k prev i.
  - cbn [forEachParagraph fst snd indices map].
    by rewrite bool_decide_false by apply not_elem_of_nil.
  - rewrite forEachParagraph_cons.
    destruct (handler_cases notes k p) as [[-> _] | (-> & _)]; [apply IH|].
    cbn [fst snd indices map paragraphIndex]. rewrite IH. fold (indices).
    destruct (decide (i ∈ indices (snd (forEachParagraph notes rest (S k)))))
      as [Hin|Hin].
    + rewrite !bool_decide_true; [done| |done]. apply elem_of_cons. by right.
    + rewrite (bool_decide_false _ Hin). unfold showLoading.
      destruct (decide (k = i)) as [->|Hne].
      * rewrite lookup_insert_eq, bool_decide_true; [done|]. apply elem_of_cons. by left.
      * rewrite lookup_insert_ne by done. rewrite bool_decide_false; [done|].
        intros [?|?]%elem_of_cons; [congruence|done].
Qed.

(** X14.  In the version whose effect visits every paragraph, one run of
    the effect issues a request for exactly the paragraphs of at least 10
    trimmed characters that have no entry in the store, one for each;
    afterwards every such paragraph has an entry, and the entries that
    existed are unchanged. *)
Theorem every_paragraph_effect (notes : gmap nat Note) (ps : list jsstring) :
  let update := fst (effect notes ps) in
  let requests := snd (effect notes ps) in
  (∀ r, r ∈ requests
        ↔ ps !! paragraphIndex r = Some (paragraphText r)
          ∧ 10 ≤ length (trim (paragraphText r))
          ∧ notes !! paragraphIndex r = None)
  ∧ NoDup (indices requests)
  ∧ (∀ i p, ps !! i = Some p → 10 ≤ length (trim p) →
       is_Some (update notes !! i))
  ∧ (∀ i entry, notes !! i = Some entry → update notes !! i = Some entry).
Proof.
  intros update requests. subst update requests. unfold effect.
  assert (Hreq : ∀ r, r ∈ snd (forEachParagraph notes ps 0)
            ↔ ps !! paragraphIndex r = Some (paragraphText r)
              ∧ 10 ≤ length (trim (paragraphText r))
              ∧ notes !! paragraphIndex r = None).
  { intros r. rewrite forEachParagraph_requests, Nat.sub_0_r.
    split; [by intros (_ & ?)|]. intros H. split; [lia|done]. }
  split_and!.
  - done.
  - apply forEachParagraph_sorted.
  - intros i p Hp Hlen. rewrite forEachParagraph_store.
    case_bool_decide as Hin; [done|].
    destruct (notes !! i) as [e|] eqn:E; [done|]. exfalso. apply Hin.
    apply list_elem_of_fmap. exists {| paragraphIndex := i; paragraphText := p |}.
    split; [done|]. by apply Hreq.
  - intros i entry Hi. rewrite forEachParagraph_store.
    case_bool_decide as Hin; [|done]. exfalso.
    apply list_elem_of_fmap in Hin as (r & -> & Hr). apply Hreq in Hr as (_ & _ & Hn).
    congruence.
Qed.

(* ---- instances ---- *)

Lemma double_enter_pairs_witness :
  length (snd (keyDowns false
                 [enterOn stuckDocument ∅; enterOn stuckDocument ∅;
                  enterOn stuckDocument ∅])) = 1
  ∧ fst (keyDowns false
           [enterOn stuckDocument ∅; enterOn stuckDocument ∅;
            enterOn stuckDocument ∅]) = true.
Proof.
  apply (proj2 (proj2 (double_enter_pairs
                         [enterOn stuckDocument ∅; enterOn stuckDocument ∅;
                          enterOn stuckDocument ∅]))).
  repeat constructor; vm_compute; discriminate.
Defined.

Lemma held_enter_fires_twice_witness :
  ∃ t1 t2 afterFirst afterSecond,
    keyDowns false [enterOn stuckDocument ∅; enterOn stuckDocument ∅;
                    enterOn stuckDocument ∅; enterOn stuckDocument ∅]
    = (false, [t1; t2])
    ∧ fire t1 ∅
      = (afterFirst, [{| paragraphIndex := 1;
                         paragraphText := str "Maybe I should try a walk." |}])
    ∧ afterFirst !! 1 = Some loadingNote
    ∧ fire t2 afterFirst
      = (afterSecond, [{| paragraphIndex := 1;
                          paragraphText := str "Maybe I should try a walk." |}]).
Proof.
  apply (held_enter_fires_twice ∅ ∅ stuckDocument stuckDocument stuckDocument
           stuckDocument (str "Maybe I should try a walk.")
           (str "Maybe I should try a walk.") 1);
    try reflexivity; vm_compute; lia.
Defined.

Lemma every_paragraph_effect_witness :
  is_Some (fst (effect ∅ (paragraphs stuckDocument)) ∅ !! 1).
Proof.
  apply (proj1 (proj2 (proj2 (every_paragraph_effect ∅
                                (paragraphs stuckDocument))))
           1 (str "Maybe I should try a walk.")).
  - reflexivity.
  - vm_compute. lia.
Defined.
